(** * Segment: a shallow embedding of [src/segment.js]

    The model follows the source function by function.  JavaScript numbers
    are modelled as rationals ([Q]).  The functions of the modules [Flp],
    [Vector] and [Segment] compute exactly.  Module [Rounded] has the
    functions of the order of segments with every difference and product
    rounded, as the program computes them; what depends on the value of a
    product is stated there.  The helper modules the segment code imports ([flp], [vector], [bbox],
    [sweep-event], [operation]) are not part of the sources at hand and are
    modelled from the specification, each under a doc comment saying so. *)

From Stdlib Require Import QArith Qabs Qminmax Qround Lqa Lia ZArith List Bool.
From stdpp Require Import base option list gmap.
Import ListNotations.

Local Open Scope Q_scope.

(** ** Floating-point predicates (module [flp]) *)

Module Flp.

(** The larger of two numbers, as [Math.max] on two arguments. *)
Definition maxQ (a b : Q) : Q := if Qle_bool a b then b else a.

(** The smaller of two numbers, as [Math.min] on two arguments. *)
Definition minQ (a b : Q) : Q := if Qle_bool a b then a else b.

(** [Math.abs]. *)
Definition absQ (a : Q) : Q := if Qle_bool 0 a then a else - a.

(** Strict comparison [a < b] on numbers. *)
Definition Qlt_bool (a b : Q) : bool := negb (Qle_bool b a).

Section WithEpsilon.

(** The tolerance; the specification leaves its value open. *)
Variable eps : Q.

(** Modelled from the spec: [flp.flpEQ] is missing from the sources;
    [flpEQ(a,b)] iff [|a-b| <= eps * max(1,|a|,|b|)]. *)
Definition flpEQ (a b : Q) : bool :=
  Qle_bool (absQ (a - b)) (eps * maxQ (maxQ 1 (absQ a)) (absQ b)).

(** Modelled from the spec: [flp.flpLT] is missing from the sources;
    [flpLT(a,b)] iff [a < b] and not [flpEQ(a,b)]. *)
Definition flpLT (a b : Q) : bool := Qlt_bool a b && negb (flpEQ a b).

(** Modelled from the spec: [flp.flpCompare] is missing from the sources;
    it returns -1, 0 or +1 according to [flpLT] and [flpEQ]. *)
Definition flpCompare (a b : Q) : Z :=
  if flpEQ a b then 0%Z else if Qlt_bool a b then (-1)%Z else 1%Z.

End WithEpsilon.

End Flp.

(** A point is the two-element array [[x, y]]. *)
Definition Point : Type := (Q * Q)%type.

(** ** Vector primitives (module [vector]) *)

Module Vector.

(** Modelled from the spec: [vector.crossProduct] is missing from the
    sources; [cross(u,v) = u.x*v.y - u.y*v.x].  The products are exact
    here; [Rounded.crossProduct] rounds them. *)
Definition crossProduct (u v : Point) : Q := fst u * snd v - snd u * fst v.

(** Modelled from the spec: [vector.compareVectorAngles] is missing from the
    sources; [compareVectorAngles(p, a, b) = sign(cross(b-a, p-a))], the sign
    being taken through [flpCompare] against zero. *)
Definition compareVectorAngles (eps : Q) (p a b : Point) : Z :=
  Flp.flpCompare eps
    (crossProduct (fst b - fst a, snd b - snd a) (fst p - fst a, snd p - snd a))
    0.

End Vector.

(** Modelled from the spec: [flp.arePointsEqual] is missing from the sources;
    [arePointsEqual(p,q)] iff [flpEQ(p.x,q.x)] and [flpEQ(p.y,q.y)]. *)
Definition arePointsEqual (eps : Q) (p q : Point) : bool :=
  Flp.flpEQ eps (fst p) (fst q) && Flp.flpEQ eps (snd p) (snd q).

(** ** Bounding boxes (module [bbox]) *)

Module Bbox.

(** A bounding box is the pair [[lowerLeft, upperRight]]. *)
Definition Bbox : Type := (Point * Point)%type.

(** Modelled from the spec: [bbox.isInBbox] is missing from the sources; a
    point is in a box when neither coordinate is strictly (under [flpLT])
    outside the box's range. *)
Definition isInBbox (eps : Q) (bbox : Bbox) (p : Point) : bool :=
  let '((xmin, ymin), (xmax, ymax)) := bbox in
  negb (Flp.flpLT eps (fst p) xmin) && negb (Flp.flpLT eps xmax (fst p)) &&
  negb (Flp.flpLT eps (snd p) ymin) && negb (Flp.flpLT eps ymax (snd p)).

End Bbox.

(** ** Sweep events (module [sweep-event]) *)

Module SweepEvent.

(** A sweep event: its own identity, its point and the segment it belongs
    to (a reference into the heap of segments). *)
Record SweepEvent : Type := mkSweepEvent {
  eid : nat;
  point : Point;
  segment : nat
}.

(** Modelled from the spec: [SweepEvent.comparePoints] is missing from the
    sources; lexicographic on [(x, y)] through [flpCompare]. *)
Definition comparePoints (eps : Q) (a b : Point) : Z :=
  let cx := Flp.flpCompare eps (fst a) (fst b) in
  if (cx =? 0)%Z then Flp.flpCompare eps (snd a) (snd b) else cx.

End SweepEvent.

(** ** Arrays *)

(** [Array.prototype.sort] with a comparison function, as a stable insertion
    sort: an element moves left past those the comparator puts after it. *)
Fixpoint insert_sorted {A} (cmp : A -> A -> Z) (x : A) (l : list A) : list A :=
  match l with
  | [] => [x]
  | y :: l' => if (0 <? cmp y x)%Z then x :: y :: l'
               else y :: insert_sorted cmp x l'
  end.

Definition sort {A} (cmp : A -> A -> Z) (l : list A) : list A :=
  fold_left (fun acc x => insert_sorted cmp x acc) l [].

(** [Array.from(new Set(l))]: duplicates are dropped, the first occurrence
    of each element keeps its place. *)
Fixpoint uniq_aux {A} `{EqDecision A} (seen l : list A) : list A :=
  match l with
  | [] => []
  | x :: l' => if bool_decide (x ∈ seen) then uniq_aux seen l'
               else x :: uniq_aux (x :: seen) l'
  end.

Definition uniq {A} `{EqDecision A} (l : list A) : list A := uniq_aux [] l.

(** [Array.prototype.includes]. *)
Definition includes {A} `{EqDecision A} (l : list A) (x : A) : bool :=
  bool_decide (x ∈ l).

(** ** The input model: multipolygons, polygons and rings

    Modelled from the spec: the classes of the input model are missing from
    the sources; a ring has a unique [id], the flag [isExterior] and its
    parent [poly], a poly its parent [multiPoly].  The objects are
    immutable; an object is identified with its value, the identifiers
    telling distinct objects apart. *)

Module MultiPoly.
Record MultiPoly : Type := mkMultiPoly { mpid : nat }.
#[global] Instance eq_dec : EqDecision MultiPoly.
Proof. solve_decision. Defined.
End MultiPoly.

Module Poly.
Record Poly : Type := mkPoly { pid : nat; multiPoly : MultiPoly.MultiPoly }.
#[global] Instance eq_dec : EqDecision Poly.
Proof. solve_decision. Defined.
End Poly.

Module Ring.
Record Ring : Type := mkRing { id : Z; isExterior : bool; poly : Poly.Poly }.
#[global] Instance eq_dec : EqDecision Ring.
Proof. solve_decision. Defined.
End Ring.

(** ** The operation descriptor (module [operation]) *)

Module Operation.

(** Modelled from the spec: the module [operation] is missing from the
    sources; an operation has a [type] among UNION, INTERSECTION, XOR and
    DIFFERENCE, the operands [multiPolys] and, for a difference, the
    [subject].  [OTHER] stands for any code that is none of the four. *)
Inductive optype : Type := UNION | INTERSECTION | XOR | DIFFERENCE | OTHER.

(** The source reads the current operation from a module-level object; the
    model passes it explicitly. *)
Record Operation : Type := mkOperation {
  type : optype;
  multiPolys : list MultiPoly.MultiPoly;
  subject : option MultiPoly.MultiPoly
}.

End Operation.

(** ** Outcomes of a call *)

(** The errors the segment code throws. *)
Inductive error : Type :=
| EqualPoints          (* Unable to build segment for equal points *)
| ComparisonFailed     (* Segment comparison failed *)
| SplitOnEndpoint      (* Cannot split segment upon endpoint *)
| ForeignSweepEvent    (* may only be called by own sweep events *)
| UnrecognizedOperation(* Unrecognized operation type found *).

(** A call returns a value, throws, or leaves the model: [Undefined] stands
    for a run the model does not follow (a reference to an object that is
    not in the heap, a chain of [prev] longer than the fuel given). *)
Inductive outcome (A : Type) : Type :=
| Return (a : A)
| Throw (e : error)
| Undefined.
Arguments Return {A} a.
Arguments Throw {A} e.
Arguments Undefined {A}.

(** ** Segments *)

Module Segment.

Import SweepEvent.

(** The cache of lazily computed properties, one slot per property name; an
    empty slot is a property not yet set ([undefined]). *)
Record Cache : Type := mkCache {
  c_sweepLineEntersRing : option bool;
  c_ringsInsideOf : option (list Ring.Ring);
  c_ringsOnEdgeOf : option (list Ring.Ring);
  c_ringsEntering : option (list Ring.Ring);
  c_ringsExiting : option (list Ring.Ring);
  c_isValidEdgeForPoly : option bool;
  c_isInResult : option bool;
  c_prevInResult : option nat
}.

(** The object [{}]. *)
Definition emptyCache : Cache :=
  mkCache None None None None None None None None.

(** A segment object.  [sid] is the identity of the object (its address in
    the heap); [prev] refers to a segment of the heap, [coincidents] to an
    array of the heap, so that several segments can share one array. *)
Record Segment : Type := mkSegment {
  sid : nat;
  ringIn : Ring.Ring;
  ringOut : option Ring.Ring;
  leftSE : SweepEvent;
  rightSE : SweepEvent;
  prev : option nat;
  coincidents : nat;
  _cache : Cache
}.

Section Geometry.

Variable eps : Q.

(** [get points]: an array of left point, right point. *)
Definition points (s : Segment) : list Point :=
  [point (leftSE s); point (rightSE s)].

(** [get bbox] *)
Definition bbox (s : Segment) : Bbox.Bbox :=
  let lp := point (leftSE s) in
  let rp := point (rightSE s) in
  ((fst lp, Flp.minQ (snd lp) (snd rp)), (fst rp, Flp.maxQ (snd lp) (snd rp))).

(** [get vector]: a vector from the left point to the right. *)
Definition vector (s : Segment) : Point :=
  (fst (point (rightSE s)) - fst (point (leftSE s)),
   snd (point (rightSE s)) - snd (point (leftSE s))).

(** [get isVertical] *)
Definition isVertical (s : Segment) : bool :=
  Flp.flpEQ eps (fst (point (leftSE s))) (fst (point (rightSE s))).

(** [getOtherSE (se)]: events are compared by identity. *)
Definition getOtherSE (s : Segment) (se : SweepEvent) : outcome SweepEvent :=
  if (eid se =? eid (leftSE s))%nat then Return (rightSE s)
  else if (eid se =? eid (rightSE s))%nat then Return (leftSE s)
  else Throw ForeignSweepEvent.

(** [isAnEndpoint (point)] *)
Definition isAnEndpoint (s : Segment) (pt : Point) : bool :=
  existsb (fun p => arePointsEqual eps p pt) (points s).

(** [isPointColinear (point)] *)
Definition isPointColinear (s : Segment) (pt : Point) : bool :=
  isAnEndpoint s pt ||
  (Vector.compareVectorAngles eps pt (point (leftSE s)) (point (rightSE s))
     =? 0)%Z.

(** [isPointOn (point)] *)
Definition isPointOn (s : Segment) (pt : Point) : bool :=
  Bbox.isInBbox eps (bbox s) pt && isPointColinear s pt.

(** [isCoincidentWith (other)] *)
Definition isCoincidentWith (s other : Segment) : bool :=
  arePointsEqual eps (point (leftSE s)) (point (leftSE other)) &&
  arePointsEqual eps (point (rightSE s)) (point (rightSE other)).

(** [isColinearWith (other)] *)
Definition isColinearWith (s other : Segment) : bool :=
  forallb (fun pt => isPointColinear s pt) (points other).

(** [isPointBelow (point)] *)
Definition isPointBelow (s : Segment) (pt : Point) : bool :=
  negb (isAnEndpoint s pt) &&
  (0 <? Vector.compareVectorAngles eps pt (point (leftSE s))
          (point (rightSE s)))%Z.

(** [isPointAbove (point)] *)
Definition isPointAbove (s : Segment) (pt : Point) : bool :=
  negb (isAnEndpoint s pt) &&
  (Vector.compareVectorAngles eps pt (point (leftSE s)) (point (rightSE s))
     <? 0)%Z.

(** [static compare (a, b)] *)
Definition compare (a b : Segment) : outcome Z :=
  if (sid a =? sid b)%nat then Return 0%Z else
  let alx := fst (point (leftSE a)) in
  let aly := snd (point (leftSE a)) in
  let blx := fst (point (leftSE b)) in
  let bly := snd (point (leftSE b)) in
  let arx := fst (point (rightSE a)) in
  let brx := fst (point (rightSE b)) in
  (* check if they're even in the same vertical plane *)
  if Flp.flpLT eps brx alx then Return 1%Z else
  if Flp.flpLT eps arx blx then Return (-1)%Z else
  let cmpLX := Flp.flpCompare eps alx blx in
  if isColinearWith a b then
    if negb (cmpLX =? 0)%Z then Return cmpLX
    else if negb (Ring.id (ringIn a) =? Ring.id (ringIn b))%Z then
      Return (if (Ring.id (ringIn a) <? Ring.id (ringIn b))%Z
              then (-1)%Z else 1%Z)
    else Throw ComparisonFailed
  else
    if arePointsEqual eps (point (leftSE a)) (point (leftSE b)) then
      Return (if isPointBelow a (point (rightSE b)) then (-1)%Z else 1%Z)
    else if (cmpLX =? 0)%Z then Return (Flp.flpCompare eps aly bly)
    else if Flp.flpLT eps alx blx then
      Return (if isPointBelow a (point (leftSE b)) then (-1)%Z else 1%Z)
    else if Flp.flpLT eps blx alx then
      Return (if isPointBelow b (point (leftSE a)) then 1%Z else (-1)%Z)
    else Throw ComparisonFailed.

End Geometry.

(** *** The heap of segments and arrays *)

(** Segments and the arrays their [coincidents] fields refer to live in a
    heap; the counters give the next free identity of each kind. *)
Record Heap : Type := mkHeap {
  segments : gmap nat Segment;
  arrays : gmap nat (list nat);
  nextSegment : nat;
  nextArray : nat;
  nextEvent : nat
}.

Definition emptyHeap : Heap := mkHeap ∅ ∅ 0 0 0.

(** A computation on the heap. *)
Definition M (A : Type) : Type := Heap -> outcome (A * Heap).

Definition ret {A} (a : A) : M A := fun h => Return (a, h).

Definition bind {A B} (c : M A) (k : A -> M B) : M B :=
  fun h => match c h with
           | Return (a, h') => k a h'
           | Throw e => Throw e
           | Undefined => Undefined
           end.

Definition throw {A} (e : error) : M A := fun _ => Throw e.

Definition undefined {A} : M A := fun _ => Undefined.

Notation "x <- c ;; k" := (bind c (fun x => k))
  (at level 100, c at next level, right associativity).
Notation "c ;;; k" := (bind c (fun _ => k))
  (at level 100, right associativity).

(** Reading a segment object through a reference. *)
Definition getSegment (i : nat) : M Segment :=
  fun h => match segments h !! i with
           | Some s => Return (s, h)
           | None => Undefined
           end.

(** Reading an array through a reference. *)
Definition getArray (r : nat) : M (list nat) :=
  fun h => match arrays h !! r with
           | Some l => Return (l, h)
           | None => Undefined
           end.

(** Writing the fields of a segment object. *)
Definition modifySegment (i : nat) (f : Segment -> Segment) : M unit :=
  fun h => match segments h !! i with
           | Some s =>
             Return (tt, mkHeap (<[i := f s]> (segments h)) (arrays h)
                           (nextSegment h) (nextArray h) (nextEvent h))
           | None => Undefined
           end.

(** Overwriting the contents of an array in place. *)
Definition setArray (r : nat) (l : list nat) : M unit :=
  fun h => Return (tt, mkHeap (segments h) (<[r := l]> (arrays h))
                         (nextSegment h) (nextArray h) (nextEvent h)).

(** Allocating a new array. *)
Definition newArray (l : list nat) : M nat :=
  fun h => Return (nextArray h,
                   mkHeap (segments h) (<[nextArray h := l]> (arrays h))
                     (nextSegment h) (S (nextArray h)) (nextEvent h)).

(** [new SweepEvent (point, segment)] *)
Definition newSweepEvent (pt : Point) (seg : nat) : M SweepEvent :=
  fun h => Return (mkSweepEvent (nextEvent h) pt seg,
                   mkHeap (segments h) (arrays h)
                     (nextSegment h) (nextArray h) (S (nextEvent h))).

Definition set_ringOut (r : option Ring.Ring) (s : Segment) : Segment :=
  mkSegment (sid s) (ringIn s) r (leftSE s) (rightSE s) (prev s)
    (coincidents s) (_cache s).

Definition set_leftSE (e : SweepEvent) (s : Segment) : Segment :=
  mkSegment (sid s) (ringIn s) (ringOut s) e (rightSE s) (prev s)
    (coincidents s) (_cache s).

Definition set_rightSE (e : SweepEvent) (s : Segment) : Segment :=
  mkSegment (sid s) (ringIn s) (ringOut s) (leftSE s) e (prev s)
    (coincidents s) (_cache s).

Definition set_prev (p : option nat) (s : Segment) : Segment :=
  mkSegment (sid s) (ringIn s) (ringOut s) (leftSE s) (rightSE s) p
    (coincidents s) (_cache s).

Definition set_coincidents (r : nat) (s : Segment) : Segment :=
  mkSegment (sid s) (ringIn s) (ringOut s) (leftSE s) (rightSE s) (prev s)
    r (_cache s).

Definition set_cache (c : Cache) (s : Segment) : Segment :=
  mkSegment (sid s) (ringIn s) (ringOut s) (leftSE s) (rightSE s) (prev s)
    (coincidents s) c.

(** [_clearCache ()] *)
Definition _clearCache (this : nat) : M unit :=
  modifySegment this (set_cache emptyCache).

Section Construction.

Variable eps : Q.

(** [constructor (point1, point2, ring)]: the new object is allocated in the
    heap, with its two events and its own [coincidents] array; the result
    is the reference to it. *)
Definition constructor (point1 point2 : Point) (ring : Ring.Ring) : M nat :=
  if arePointsEqual eps point1 point2 then throw EqualPoints else
  match sort (comparePoints eps) [point1; point2] with
  | [lp; rp] =>
    fun h =>
      let this := nextSegment h in
      let lse := mkSweepEvent (nextEvent h) lp this in
      let rse := mkSweepEvent (S (nextEvent h)) rp this in
      let seg := mkSegment this ring None lse rse None (nextArray h)
                   emptyCache in
      Return (this,
              mkHeap (<[this := seg]> (segments h))
                (<[nextArray h := [this]]> (arrays h))
                (S this) (S (nextArray h)) (S (S (nextEvent h))))
  | _ => undefined
  end.

(** [clone ()] *)
Definition clone (this : nat) : M nat :=
  s <- getSegment this ;;
  constructor (point (leftSE s)) (point (rightSE s)) (ringIn s).

End Construction.

(** [registerPrev (other)]; [other] may be no segment at all. *)
Definition registerPrev (this : nat) (other : option nat) : M unit :=
  modifySegment this (set_prev other) ;;;
  _clearCache this.

(** [registerCoincidence (other)]: the push changes the array [this] refers
    to in place, for every segment that shares it; the array made from the
    set is a new one, given to [this] and to [other] only. *)
Definition registerCoincidence (this other : nat) : M unit :=
  s <- getSegment this ;;
  o <- getSegment other ;;
  mine <- getArray (coincidents s) ;;
  theirs <- getArray (coincidents o) ;;
  setArray (coincidents s) (mine ++ theirs) ;;;
  merged <- newArray (uniq (mine ++ theirs)) ;;
  modifySegment this (set_coincidents merged) ;;;
  modifySegment other (set_coincidents merged) ;;;
  _clearCache this.

(** [registerRingOut (ring)] *)
Definition registerRingOut (this : nat) (ring : Ring.Ring) : M unit :=
  modifySegment this (set_ringOut (Some ring)).

Section Splitting.

Variable eps : Q.

(** The filter of [split]: a point of the sorted array is kept when it is
    the first or when [comparePoints] tells it from the one before it. *)
Fixpoint dropRepeats (before : Point) (pts : list Point) : list Point :=
  match pts with
  | [] => []
  | pt :: rest =>
    if (comparePoints eps before pt =? 0)%Z then dropRepeats pt rest
    else pt :: dropRepeats pt rest
  end.

Definition sortedUnique (pts : list Point) : list Point :=
  match sort (comparePoints eps) pts with
  | [] => []
  | pt :: rest => pt :: dropRepeats pt rest
  end.

(** [split (points)], the recursion counted by [fuel].  A call on no point
    at all builds events without a point and is not followed. *)
Fixpoint splitLoop (fuel : nat) (this : nat) (pts : list Point)
  : M (list SweepEvent) :=
  match fuel with
  | O => undefined
  | S fuel' =>
    (* sort them and unique-ify them *)
    let pts := sortedUnique pts in
    s <- getSegment this ;;
    if existsb (isAnEndpoint eps s) pts then throw SplitOnEndpoint else
    match pts with
    | [] => undefined
    | pt :: rest =>
      newSeg <- clone eps this ;;
      newLeft <- newSweepEvent pt newSeg ;;
      modifySegment newSeg (set_leftSE newLeft) ;;;
      modifySegment newSeg
        (set_rightSE (mkSweepEvent (eid (rightSE s)) (point (rightSE s))
                        newSeg)) ;;;
      newRight <- newSweepEvent pt this ;;
      modifySegment this (set_rightSE newRight) ;;;
      if (0 <? length rest)%nat then
        more <- splitLoop fuel' newSeg rest ;;
        ret ([newRight; newLeft] ++ more)
      else ret [newRight; newLeft]
    end
  end.

(** [split (points)]: every call passes on fewer points than it was given,
    so the number of points bounds the depth of the recursion. *)
Definition split (this : nat) (pts : list Point) : M (list SweepEvent) :=
  splitLoop (S (length pts)) this pts.

End Splitting.

(** *** Cached properties *)

(** [array.map] and [array.filter] with a callback that reads the heap. *)
Fixpoint mapM {A B} (f : A -> M B) (l : list A) : M (list B) :=
  match l with
  | [] => ret []
  | x :: l' => y <- f x ;; ys <- mapM f l' ;; ret (y :: ys)
  end.

Fixpoint filterM {A} (f : A -> M bool) (l : list A) : M (list A) :=
  match l with
  | [] => ret []
  | x :: l' =>
    b <- f x ;; ys <- filterM f l' ;; ret (if b then x :: ys else ys)
  end.

(** [_getCached (propName)]: [slot] reads the property's slot of a cache,
    [store] writes it and [calc] is the method [_propName]. *)
Definition _getCached {A} (slot : Cache -> option A)
    (store : A -> Cache -> Cache) (calc : M A) (this : nat) : M A :=
  s <- getSegment this ;;
  match slot (_cache s) with
  | Some v => ret v
  | None =>
    v <- calc ;;
    modifySegment this (fun s' => set_cache (store v (_cache s')) s') ;;;
    ret v
  end.

Definition store_sweepLineEntersRing (v : bool) (c : Cache) : Cache :=
  mkCache (Some v) (c_ringsInsideOf c) (c_ringsOnEdgeOf c) (c_ringsEntering c)
    (c_ringsExiting c) (c_isValidEdgeForPoly c) (c_isInResult c)
    (c_prevInResult c).

Definition store_ringsInsideOf (v : list Ring.Ring) (c : Cache) : Cache :=
  mkCache (c_sweepLineEntersRing c) (Some v) (c_ringsOnEdgeOf c)
    (c_ringsEntering c) (c_ringsExiting c) (c_isValidEdgeForPoly c)
    (c_isInResult c) (c_prevInResult c).

Definition store_ringsOnEdgeOf (v : list Ring.Ring) (c : Cache) : Cache :=
  mkCache (c_sweepLineEntersRing c) (c_ringsInsideOf c) (Some v)
    (c_ringsEntering c) (c_ringsExiting c) (c_isValidEdgeForPoly c)
    (c_isInResult c) (c_prevInResult c).

Definition store_ringsEntering (v : list Ring.Ring) (c : Cache) : Cache :=
  mkCache (c_sweepLineEntersRing c) (c_ringsInsideOf c) (c_ringsOnEdgeOf c)
    (Some v) (c_ringsExiting c) (c_isValidEdgeForPoly c) (c_isInResult c)
    (c_prevInResult c).

Definition store_ringsExiting (v : list Ring.Ring) (c : Cache) : Cache :=
  mkCache (c_sweepLineEntersRing c) (c_ringsInsideOf c) (c_ringsOnEdgeOf c)
    (c_ringsEntering c) (Some v) (c_isValidEdgeForPoly c) (c_isInResult c)
    (c_prevInResult c).

Definition store_isValidEdgeForPoly (v : bool) (c : Cache) : Cache :=
  mkCache (c_sweepLineEntersRing c) (c_ringsInsideOf c) (c_ringsOnEdgeOf c)
    (c_ringsEntering c) (c_ringsExiting c) (Some v) (c_isInResult c)
    (c_prevInResult c).

Definition store_isInResult (v : bool) (c : Cache) : Cache :=
  mkCache (c_sweepLineEntersRing c) (c_ringsInsideOf c) (c_ringsOnEdgeOf c)
    (c_ringsEntering c) (c_ringsExiting c) (c_isValidEdgeForPoly c) (Some v)
    (c_prevInResult c).

(** The value of [prevInResult] is a segment or [undefined]; storing
    [undefined] leaves the slot unset. *)
Definition store_prevInResult (v : option nat) (c : Cache) : Cache :=
  mkCache (c_sweepLineEntersRing c) (c_ringsInsideOf c) (c_ringsOnEdgeOf c)
    (c_ringsEntering c) (c_ringsExiting c) (c_isValidEdgeForPoly c)
    (c_isInResult c) v.

Definition slot_prevInResult (c : Cache) : option (option nat) :=
  match c_prevInResult c with Some p => Some (Some p) | None => None end.

(** The segments of [this.coincidents]. *)
Definition getCoincidents (this : nat) : M (list nat) :=
  s <- getSegment this ;;
  getArray (coincidents s).

(** [seg.ringIn] through a reference. *)
Definition ringInOf (seg : nat) : M Ring.Ring :=
  s <- getSegment seg ;; ret (ringIn s).

(** [get isCoincidenceWinner]; [Math.min] of no number at all is
    [Infinity], which no ring id equals. *)
Definition isCoincidenceWinner (this : nat) : M bool :=
  cs <- getCoincidents this ;;
  ringIds <- mapM (fun seg => r <- ringInOf seg ;; ret (Ring.id r)) cs ;;
  r <- ringInOf this ;;
  ret (match ringIds with
       | [] => false
       | i :: rest => (Ring.id r =? fold_left Z.min rest i)%Z
       end).

(** [_ringsOnEdgeOf ()] and [get ringsOnEdgeOf] *)
Definition _ringsOnEdgeOf (this : nat) : M (list Ring.Ring) :=
  cs <- getCoincidents this ;;
  mapM ringInOf cs.

Definition ringsOnEdgeOf (this : nat) : M (list Ring.Ring) :=
  _getCached c_ringsOnEdgeOf store_ringsOnEdgeOf (_ringsOnEdgeOf this) this.

Section Classification.

(** The current operation. *)
Variable operation : Operation.Operation.

(** [ring.isValid (ringsSameSLER, ringsDiffSLER, ringsInsideOf)] and
    [poly.isInside (ringsOnEdgeOf, ringsInsideOf)] belong to the input
    model, which is not part of the sources at hand; they are parameters. *)
Variable ring_isValid :
  Ring.Ring -> list Ring.Ring -> list Ring.Ring -> list Ring.Ring -> bool.
Variable poly_isInside :
  Poly.Poly -> list Ring.Ring -> list Ring.Ring -> bool.

(** The loop of [_sweepLineEntersRing]:
    [while (prev && prev.ringIn !== this.ringIn) prev = prev.prev]. *)
Fixpoint skipOtherRings (fuel : nat) (ring : Ring.Ring) (p : option nat)
  : M (option nat) :=
  match p with
  | None => ret None
  | Some q =>
    match fuel with
    | O => undefined
    | S fuel' =>
      sq <- getSegment q ;;
      if bool_decide (ringIn sq = ring) then ret (Some q)
      else skipOtherRings fuel' ring (prev sq)
    end
  end.

(** [get sweepLineEntersRing] over [_sweepLineEntersRing ()]; [fuel] bounds
    the length of the chain of [prev] that is followed. *)
Fixpoint sweepLineEntersRing (fuel : nat) (this : nat) : M bool :=
  match fuel with
  | O => undefined
  | S fuel' =>
    _getCached c_sweepLineEntersRing store_sweepLineEntersRing
      (s <- getSegment this ;;
       p <- skipOtherRings fuel' (ringIn s) (prev s) ;;
       match p with
       | None => ret true
       | Some q => b <- sweepLineEntersRing fuel' q ;; ret (negb b)
       end)
      this
  end.

(** [_ringsEntering ()] and [get ringsEntering] *)
Definition _ringsEntering (fuel : nat) (this : nat) : M (list Ring.Ring) :=
  cs <- getCoincidents this ;;
  entering <- filterM (sweepLineEntersRing fuel) cs ;;
  mapM ringInOf entering.

Definition ringsEntering (fuel : nat) (this : nat) : M (list Ring.Ring) :=
  _getCached c_ringsEntering store_ringsEntering (_ringsEntering fuel this)
    this.

(** [_ringsExiting ()] and [get ringsExiting] *)
Definition _ringsExiting (fuel : nat) (this : nat) : M (list Ring.Ring) :=
  cs <- getCoincidents this ;;
  exiting <- filterM (fun seg => b <- sweepLineEntersRing fuel seg ;;
                                 ret (negb b)) cs ;;
  mapM ringInOf exiting.

Definition ringsExiting (fuel : nat) (this : nat) : M (list Ring.Ring) :=
  _getCached c_ringsExiting store_ringsExiting (_ringsExiting fuel this) this.

(** [get ringsInsideOf] over [_ringsInsideOf ()] *)
Fixpoint ringsInsideOf (fuel : nat) (this : nat) : M (list Ring.Ring) :=
  match fuel with
  | O => undefined
  | S fuel' =>
    _getCached c_ringsInsideOf store_ringsInsideOf
      (s <- getSegment this ;;
       (* start with prev set of rings inside of, if any *)
       rings <- match prev s with
                | Some p => ringsInsideOf fuel' p
                | None => ret []
                end ;;
       (* coincidents always share the same *)
       cs <- getCoincidents this ;;
       if (0 <? length (List.filter
                          (fun c => bool_decide (Some c = prev s)) cs))%nat
       then ret rings else
       (* remove any we exited, add any we entered *)
       rings <- match prev s with
                | Some p =>
                  kept <- filterM
                            (fun r => ex <- ringsExiting fuel' p ;;
                                      ret (negb (includes ex r))) rings ;;
                  en <- ringsEntering fuel' p ;;
                  ret (kept ++ en)
                | None => ret rings
                end ;;
       (* remove any that we're actually on the boundary of *)
       filterM (fun r => on <- ringsOnEdgeOf this ;;
                         ret (negb (includes on r))) rings)
      this
  end.

(** [_isValidEdgeForPoly ()] and [get isValidEdgeForPoly] *)
Definition _isValidEdgeForPoly (fuel : nat) (this : nat) : M bool :=
  en <- ringsEntering fuel this ;;
  ex <- ringsExiting fuel this ;;
  enters <- sweepLineEntersRing fuel this ;;
  inside <- ringsInsideOf fuel this ;;
  r <- ringInOf this ;;
  ret (if enters then ring_isValid r en ex inside
       else ring_isValid r ex en inside).

Definition isValidEdgeForPoly (fuel : nat) (this : nat) : M bool :=
  _getCached c_isValidEdgeForPoly store_isValidEdgeForPoly
    (_isValidEdgeForPoly fuel this) this.

(** [get sweepLineEntersPoly] *)
Definition sweepLineEntersPoly (fuel : nat) (this : nat) : M bool :=
  valid <- isValidEdgeForPoly fuel this ;;
  if negb valid then ret false else
  r <- ringInOf this ;;
  enters <- sweepLineEntersRing fuel this ;;
  ret (Bool.eqb (Ring.isExterior r) enters).

(** [get sweepLineExitsPoly] *)
Definition sweepLineExitsPoly (fuel : nat) (this : nat) : M bool :=
  valid <- isValidEdgeForPoly fuel this ;;
  if negb valid then ret false else
  r <- ringInOf this ;;
  enters <- sweepLineEntersRing fuel this ;;
  ret (negb (Bool.eqb (Ring.isExterior r) enters)).

(** [get polysInsideOf] *)
Definition polysInsideOf (fuel : nat) (this : nat) : M (list Poly.Poly) :=
  inside <- ringsInsideOf fuel this ;;
  filterM (fun p => on <- ringsOnEdgeOf this ;;
                    ins <- ringsInsideOf fuel this ;;
                    ret (poly_isInside p on ins))
          (uniq (map Ring.poly inside)).

(** [get multiPolysInsideOf] *)
Definition multiPolysInsideOf (fuel : nat) (this : nat)
  : M (list MultiPoly.MultiPoly) :=
  ps <- polysInsideOf fuel this ;;
  ret (uniq (map Poly.multiPoly ps)).

(** [c.ringIn.poly.multiPoly] through a reference. *)
Definition multiPolyOf (seg : nat) : M MultiPoly.MultiPoly :=
  r <- ringInOf seg ;; ret (Poly.multiPoly (Ring.poly r)).

(** [get multiPolysSLPEnters]: the multipolys on one side of us. *)
Definition multiPolysSLPEnters (fuel : nat) (this : nat)
  : M (list MultiPoly.MultiPoly) :=
  cs <- getCoincidents this ;;
  entering <- filterM (sweepLineEntersPoly fuel) cs ;;
  onlyEnters <- mapM multiPolyOf entering ;;
  inside <- multiPolysInsideOf fuel this ;;
  ret (uniq (onlyEnters ++ inside)).

(** [get multiPolysSLPExits]: the multipolys on the other side of us. *)
Definition multiPolysSLPExits (fuel : nat) (this : nat)
  : M (list MultiPoly.MultiPoly) :=
  cs <- getCoincidents this ;;
  exiting <- filterM (sweepLineExitsPoly fuel) cs ;;
  onlyExits <- mapM multiPolyOf exiting ;;
  inside <- multiPolysInsideOf fuel this ;;
  ret (uniq (onlyExits ++ inside)).

(** [isJustSubject] of the DIFFERENCE case. *)
Definition isJustSubject (mps : list MultiPoly.MultiPoly) : bool :=
  (length mps =? 1)%nat &&
  bool_decide (head mps = Operation.subject operation).

(** [_isInResult ()] *)
Definition _isInResult (fuel : nat) (this : nat) : M bool :=
  winner <- isCoincidenceWinner this ;;
  if negb winner then ret false else
  match Operation.type operation with
  | Operation.UNION =>
    enters <- multiPolysSLPEnters fuel this ;;
    exits <- multiPolysSLPExits fuel this ;;
    let noEnters := (length enters =? 0)%nat in
    let noExits := (length exits =? 0)%nat in
    ret (negb (Bool.eqb noEnters noExits))
  | Operation.INTERSECTION =>
    enters <- multiPolysSLPEnters fuel this ;;
    exits <- multiPolysSLPExits fuel this ;;
    let numGeoms := Nat.max (length enters) (length exits) in
    ret (numGeoms =? length (Operation.multiPolys operation))%nat
  | Operation.XOR =>
    enters <- multiPolysSLPEnters fuel this ;;
    exits <- multiPolysSLPExits fuel this ;;
    let diff := Z.abs (Z.of_nat (length enters) - Z.of_nat (length exits)) in
    ret (diff mod 2 =? 1)%Z
  | Operation.DIFFERENCE =>
    enters <- multiPolysSLPEnters fuel this ;;
    exits <- multiPolysSLPExits fuel this ;;
    ret (negb (Bool.eqb (isJustSubject enters) (isJustSubject exits)))
  | Operation.OTHER => throw UnrecognizedOperation
  end.

(** [get isInResult] *)
Definition isInResult (fuel : nat) (this : nat) : M bool :=
  _getCached c_isInResult store_isInResult (_isInResult fuel this) this.

(** The loop of [_prevInResult]:
    [while (prev && !prev.isInResult) prev = prev.prev]. *)
Fixpoint skipNotInResult (fuel : nat) (p : option nat) : M (option nat) :=
  match p with
  | None => ret None
  | Some q =>
    match fuel with
    | O => undefined
    | S fuel' =>
      b <- isInResult fuel q ;;
      if b then ret (Some q)
      else sq <- getSegment q ;; skipNotInResult fuel' (prev sq)
    end
  end.

(** [_prevInResult ()] and [get prevInResult] *)
Definition _prevInResult (fuel : nat) (this : nat) : M (option nat) :=
  s <- getSegment this ;;
  skipNotInResult fuel (prev s).

Definition prevInResult (fuel : nat) (this : nat) : M (option nat) :=
  _getCached slot_prevInResult store_prevInResult (_prevInResult fuel this)
    this.

End Classification.

End Segment.

(** ** Vocabulary of the statements *)

(** The three outcomes of an exact comparison of two numbers. *)
Inductive cmp_spec (a b : Q) : Z -> Set :=
| cmp_lt : a < b -> cmp_spec a b (-1)%Z
| cmp_eq : a == b -> cmp_spec a b 0%Z
| cmp_gt : b < a -> cmp_spec a b 1%Z.

(** The cross product that decides on which side of [s] a point lies: the
    argument of [compareVectorAngles (pt, left, right)]. *)
Definition side (s : Segment.Segment) (pt : Point) : Q :=
  Vector.crossProduct
    (fst (SweepEvent.point (Segment.rightSE s))
       - fst (SweepEvent.point (Segment.leftSE s)),
     snd (SweepEvent.point (Segment.rightSE s))
       - snd (SweepEvent.point (Segment.leftSE s)))
    (fst pt - fst (SweepEvent.point (Segment.leftSE s)),
     snd pt - snd (SweepEvent.point (Segment.leftSE s))).

(** A segment is well formed when its left point strictly precedes its
    right point under [comparePoints], as the constructor leaves it. *)
Definition wellFormed (eps : Q) (s : Segment.Segment) : Prop :=
  SweepEvent.comparePoints eps
    (SweepEvent.point (Segment.leftSE s))
    (SweepEvent.point (Segment.rightSE s)) = (-1)%Z.

(** A number that is an integer. *)
Definition integral (q : Q) : Prop := exists z : Z, q == inject_Z z.

(** A point of the integer grid on which the tolerance [eps] tells any two
    distinct coordinates apart: both coordinates are integers of magnitude
    below [1 / eps]. *)
Definition gridPoint (eps : Q) (p : Point) : Prop :=
  integral (fst p) /\ integral (snd p) /\
  eps * Flp.absQ (fst p) < 1 /\ eps * Flp.absQ (snd p) < 1.

(** A segment with both endpoints on that grid. *)
Definition onGrid (eps : Q) (s : Segment.Segment) : Prop :=
  gridPoint eps (SweepEvent.point (Segment.leftSE s)) /\
  gridPoint eps (SweepEvent.point (Segment.rightSE s)).

(** Two points with the same coordinates. *)
Definition pointEq (p q : Point) : Prop := fst p == fst q /\ snd p == snd q.

(** The id of the ring of a segment of the heap. *)
Definition ringIdOf (h : Segment.Heap) (seg : nat) : Z :=
  match Segment.segments h !! seg with
  | Some s => Ring.id (Segment.ringIn s)
  | None => 0%Z
  end.

(** [cls] is a coincidence class of the heap: a non-empty set of segments,
    each of which holds exactly the segments of [cls] in its [coincidents],
    and no two of which come from rings of the same id. *)
Definition coincidenceClass (h : Segment.Heap) (cls : list nat) : Prop :=
  cls <> [] /\
  (forall c, c ∈ cls ->
     exists s arr,
       Segment.segments h !! c = Some s /\
       Segment.arrays h !! Segment.coincidents s = Some arr /\
       (forall x, x ∈ arr <-> x ∈ cls)) /\
  (forall c c', c ∈ cls -> c' ∈ cls ->
     ringIdOf h c = ringIdOf h c' -> c = c').


(** ** Example data *)

Module Examples.

(** A tolerance: [Number.EPSILON], two to the power -52. *)
Definition EPSILON : Q := 1 # 4503599627370496.

Definition subjectMP : MultiPoly.MultiPoly := MultiPoly.mkMultiPoly 0.
Definition clippingMP : MultiPoly.MultiPoly := MultiPoly.mkMultiPoly 1.
Definition poly1 : Poly.Poly := Poly.mkPoly 0 subjectMP.
Definition poly2 : Poly.Poly := Poly.mkPoly 1 clippingMP.
Definition ring1 : Ring.Ring := Ring.mkRing 1 true poly1.
Definition ring2 : Ring.Ring := Ring.mkRing 2 true poly2.
Definition ring3 : Ring.Ring := Ring.mkRing 3 true poly2.
Definition ring4 : Ring.Ring := Ring.mkRing 4 true poly2.

(** The segment the constructor builds as the [i]-th object of a heap that
    holds nothing else than segments built by the constructor. *)
Definition built (i : nat) (ring : Ring.Ring) (lp rp : Point)
  : Segment.Segment :=
  Segment.mkSegment i ring None
    (SweepEvent.mkSweepEvent (2 * i) lp i)
    (SweepEvent.mkSweepEvent (S (2 * i)) rp i)
    None i Segment.emptyCache.

(** Two horizontal segments, the second wholly to the left of the first. *)
Definition rightOne : Segment.Segment := built 0 ring1 (2, 0) (3, 0).
Definition leftOne : Segment.Segment := built 1 ring2 (0, 0) (1, 0).

(** A long horizontal segment and a short one that leaves it at a slope
    within the tolerance: three quarters of [EPSILON] over a run of one
    half. *)
Definition longFlat : Segment.Segment := built 0 ring1 (0, 0) (2, 0).
Definition shortTilted : Segment.Segment :=
  built 1 ring2 (1, 0) (3 # 2, 3 # 18014398509481984).

(** Three segments on the same two points, one per ring, registered as the
    sweep meets them: each new segment with the one below it. *)
Definition threeCoincident : Segment.M unit :=
  Segment.bind (Segment.constructor EPSILON (0, 0) (1, 0) ring1) (fun s0 =>
  Segment.bind (Segment.constructor EPSILON (0, 0) (1, 0) ring2) (fun s1 =>
  Segment.bind (Segment.constructor EPSILON (0, 0) (1, 0) ring3) (fun s2 =>
  Segment.bind (Segment.registerCoincidence s1 s0) (fun _ =>
  Segment.registerCoincidence s2 s1)))).

(** Two segments on the same two points; the second has its
    [ringsOnEdgeOf] read before the first registers the coincidence. *)
Definition readThenRegister : Segment.M (list Ring.Ring) :=
  Segment.bind (Segment.constructor EPSILON (0, 0) (1, 0) ring1) (fun s0 =>
  Segment.bind (Segment.constructor EPSILON (0, 0) (1, 0) ring2) (fun s1 =>
  Segment.bind (Segment.ringsOnEdgeOf s1) (fun _ =>
  Segment.bind (Segment.registerCoincidence s0 s1) (fun _ =>
  Segment.ringsOnEdgeOf s1)))).

(** A segment whose [ringsOnEdgeOf] is read and which is then split in its
    middle. *)
Definition readThenSplit : Segment.M (list SweepEvent.SweepEvent) :=
  Segment.bind (Segment.constructor EPSILON (0, 0) (2, 0) ring1) (fun s0 =>
  Segment.bind (Segment.ringsOnEdgeOf s0) (fun _ =>
  Segment.split EPSILON s0 [(1, 0)])).

(** An intersection of the two multipolys, with an input model in which
    every edge is valid and every poly counts as inside. *)
Definition intersectionOp : Operation.Operation :=
  Operation.mkOperation Operation.INTERSECTION [subjectMP; clippingMP]
    (Some subjectMP).

Definition alwaysValid
  (r : Ring.Ring) (same diff inside : list Ring.Ring) : bool := true.

Definition alwaysInside
  (p : Poly.Poly) (onEdge inside : list Ring.Ring) : bool := true.

(** Two segments on the same two points, one of each multipoly, registered
    as coincident. *)
Definition twoCoincident : Segment.Heap :=
  match
    Segment.bind (Segment.constructor EPSILON (0, 0) (1, 0) ring1) (fun s0 =>
    Segment.bind (Segment.constructor EPSILON (0, 0) (1, 0) ring2) (fun s1 =>
    Segment.registerCoincidence s1 s0)) Segment.emptyHeap
  with
  | Return (_, h) => h
  | _ => Segment.emptyHeap
  end.

(** A union of the two multipolys. *)
Definition unionOp : Operation.Operation :=
  Operation.mkOperation Operation.UNION [subjectMP; clippingMP] None.


End Examples.

(** ** Further example data *)

Module MoreExamples.

(** A second segment of the first ring, on the line of [Examples.longFlat]
    and with the same left end. *)
Definition shortFlat : Segment.Segment :=
  Examples.built 1 Examples.ring1 (0, 0) (1, 0).

(** The heap a computation leaves behind when it returns. *)
Definition heapAfter {A} (c : Segment.M A) (h : Segment.Heap)
  : Segment.Heap :=
  match c h with
  | Return (_, h') => h'
  | _ => h
  end.

(** A heap with one horizontal segment, from (0, 0) to (4, 0), and the
    heap with a second segment that crosses it. *)
Definition oneSegment : Segment.Heap :=
  heapAfter (Segment.constructor Examples.EPSILON (0, 0) (4, 0)
               Examples.ring1) Segment.emptyHeap.

Definition twoCrossing : Segment.Heap :=
  heapAfter (Segment.constructor Examples.EPSILON (2, 2) (2, -2)
               Examples.ring2) oneSegment.

(** The heap of [oneSegment] after its segment has been split at two
    points, given out of order, and the events that [split] returns. *)
Definition cutInThree : Segment.Heap :=
  heapAfter (Segment.split Examples.EPSILON 0 [(3, 0); (1, 0)]) oneSegment.

Definition cutEvents : list SweepEvent.SweepEvent :=
  [SweepEvent.mkSweepEvent 5 (1, 0) 0; SweepEvent.mkSweepEvent 4 (1, 0) 1;
   SweepEvent.mkSweepEvent 9 (3, 0) 1; SweepEvent.mkSweepEvent 8 (3, 0) 2].

(** The heap of [twoCrossing] after the upright segment has been given the
    flat one as its [prev]. *)
Definition stacked : Segment.Heap :=
  heapAfter (Segment.registerPrev 1 (Some 0%nat)) twoCrossing.

(** Three horizontal segments one above the other, the lowest and the
    highest of one ring, each with the one below it as its [prev]. *)
Definition threeStacked : Segment.Heap :=
  heapAfter
    (Segment.bind
       (Segment.constructor Examples.EPSILON (0, 0) (4, 0) Examples.ring1)
       (fun s0 =>
     Segment.bind
       (Segment.constructor Examples.EPSILON (0, 1) (4, 1) Examples.ring2)
       (fun s1 =>
     Segment.bind
       (Segment.constructor Examples.EPSILON (0, 2) (4, 2) Examples.ring1)
       (fun s2 =>
     Segment.bind (Segment.registerPrev s1 (Some s0)) (fun _ =>
     Segment.registerPrev s2 (Some s1))))))
    Segment.emptyHeap.

Definition middle : Segment.Segment :=
  Segment.set_prev (Some 0%nat)
    (Examples.built 1 Examples.ring2 (0, 1) (4, 1)).

Definition top : Segment.Segment :=
  Segment.set_prev (Some 1%nat)
    (Examples.built 2 Examples.ring1 (0, 2) (4, 2)).

(** The two segments of [twoCrossing] as the constructor has built them. *)
Definition flat : Segment.Segment :=
  Examples.built 0 Examples.ring1 (0, 0) (4, 0).

Definition upright : Segment.Segment :=
  Examples.built 1 Examples.ring2 (2, -2) (2, 2).

End MoreExamples.

(** ** Well-formed heaps *)

(** What holds of a segment [s] stored at [i] in a heap the segment code
    has built: it is stored under its own identity, its two events are
    distinct objects that refer back to it, its [prev], if any, is a
    segment of the heap, and its [coincidents] is an array of the heap that
    holds the segment itself. *)
Definition segmentOK (h : Segment.Heap) (i : nat) (s : Segment.Segment)
  : Prop :=
  Segment.sid s = i /\
  SweepEvent.segment (Segment.leftSE s) = i /\
  SweepEvent.segment (Segment.rightSE s) = i /\
  (SweepEvent.eid (Segment.leftSE s) < Segment.nextEvent h)%nat /\
  (SweepEvent.eid (Segment.rightSE s) < Segment.nextEvent h)%nat /\
  SweepEvent.eid (Segment.leftSE s) <> SweepEvent.eid (Segment.rightSE s) /\
  (forall p, Segment.prev s = Some p ->
             is_Some (Segment.segments h !! p)) /\
  exists arr,
    Segment.arrays h !! Segment.coincidents s = Some arr /\ i ∈ arr.

(** The events of two segments are four distinct objects. *)
Definition eventsApart (s t : Segment.Segment) : Prop :=
  SweepEvent.eid (Segment.leftSE s) <> SweepEvent.eid (Segment.leftSE t) /\
  SweepEvent.eid (Segment.leftSE s) <> SweepEvent.eid (Segment.rightSE t) /\
  SweepEvent.eid (Segment.rightSE s) <> SweepEvent.eid (Segment.leftSE t) /\
  SweepEvent.eid (Segment.rightSE s) <> SweepEvent.eid (Segment.rightSE t).

(** A well-formed heap: every segment is as [segmentOK] says and below the
    next free identity, every array is below the next free array and holds
    segments of the heap only, and no event is shared by two segments. *)
Definition heapWF (h : Segment.Heap) : Prop :=
  (forall i s, Segment.segments h !! i = Some s ->
     (i < Segment.nextSegment h)%nat /\ segmentOK h i s) /\
  (forall r arr, Segment.arrays h !! r = Some arr ->
     (r < Segment.nextArray h)%nat /\
     forall x, x ∈ arr -> is_Some (Segment.segments h !! x)) /\
  (forall i j s t,
     Segment.segments h !! i = Some s -> Segment.segments h !! j = Some t ->
     i <> j -> eventsApart s t).

(** The heap after one step of [split]: the receiver [s], stored at
    [this], is cut at [pt]; the new segment takes the receiver's right
    event and two new events stand at [pt]. *)
Definition splitOnce (h : Segment.Heap) (this : nat) (s : Segment.Segment)
    (pt : Point) : Segment.Heap :=
  let new := Segment.nextSegment h in
  let newLeft := SweepEvent.mkSweepEvent (S (S (Segment.nextEvent h))) pt new in
  let newRight :=
    SweepEvent.mkSweepEvent (S (S (S (Segment.nextEvent h)))) pt this in
  Segment.mkHeap
    (<[this := Segment.set_rightSE newRight s]>
       (<[new := Segment.mkSegment new (Segment.ringIn s) None newLeft
                   (SweepEvent.mkSweepEvent
                      (SweepEvent.eid (Segment.rightSE s))
                      (SweepEvent.point (Segment.rightSE s)) new)
                   None (Segment.nextArray h) Segment.emptyCache]>
          (Segment.segments h)))
    (<[Segment.nextArray h := [new]]> (Segment.arrays h))
    (S new) (S (Segment.nextArray h))
    (S (S (S (S (Segment.nextEvent h))))).

(** The segments [first], then those of [rest], join end to end in the
    heap: the right point of each is the left point of the next. *)
Fixpoint joined (h : Segment.Heap) (first : nat) (rest : list nat) : Prop :=
  match rest with
  | [] => True
  | next :: rest' =>
    (exists s t,
       Segment.segments h !! first = Some s /\
       Segment.segments h !! next = Some t /\
       SweepEvent.point (Segment.rightSE s)
         = SweepEvent.point (Segment.leftSE t)) /\
    joined h next rest'
  end.

(** What a returning [split] has done.  [s] is the receiver as it was, at
    [this]; [pt] is the first point of the sorted array; [k] new segments
    stand at the identities from the old [nextSegment] on. *)
Definition splitOutcome (h : Segment.Heap) (this : nat)
    (s : Segment.Segment) (pts : list Point) (pt : Point)
    (events : list SweepEvent.SweepEvent) (h' : Segment.Heap) : Prop :=
  let n := Segment.nextSegment h in
  exists k,
    (1 <= k <= length pts)%nat /\
    Segment.nextSegment h' = (n + k)%nat /\
    length events = (2 * k)%nat /\
    (forall e, In e events -> In (SweepEvent.point e) pts) /\
    (forall i, (n <= i < n + k)%nat ->
       exists t,
         Segment.segments h' !! i = Some t /\
         Segment.ringIn t = Segment.ringIn s /\
         Segment.prev t = None /\ Segment.ringOut t = None /\
         Segment._cache t = Segment.emptyCache /\
         Segment.arrays h' !! Segment.coincidents t = Some [i]) /\
    joined h' this (seq n k) /\
    (exists t,
       Segment.segments h' !! (n + k - 1)%nat = Some t /\
       Segment.rightSE t
         = SweepEvent.mkSweepEvent (SweepEvent.eid (Segment.rightSE s))
             (SweepEvent.point (Segment.rightSE s)) (n + k - 1)%nat) /\
    Segment.segments h' !! this
      = Some (Segment.set_rightSE
                (SweepEvent.mkSweepEvent (S (S (S (Segment.nextEvent h))))
                   pt this) s) /\
    (forall i, i <> this -> (i < n)%nat ->
               Segment.segments h' !! i = Segment.segments h !! i) /\
    (forall r, (r < Segment.nextArray h)%nat ->
               Segment.arrays h' !! r = Segment.arrays h !! r) /\
    (Segment.nextArray h <= Segment.nextArray h')%nat.


(** ** What the getters may change *)

(** Two heaps that differ in the caches of their segments at most. *)
Definition sameButCaches (h h' : Segment.Heap) : Prop :=
  Segment.arrays h' = Segment.arrays h /\
  Segment.nextSegment h' = Segment.nextSegment h /\
  Segment.nextArray h' = Segment.nextArray h /\
  Segment.nextEvent h' = Segment.nextEvent h /\
  forall i,
    match Segment.segments h !! i, Segment.segments h' !! i with
    | Some s, Some s' => s' = Segment.set_cache (Segment._cache s') s
    | None, None => True
    | _, _ => False
    end.

(** A computation that, when it returns, has changed caches at most. *)
Definition cacheOnly {A} (c : Segment.M A) : Prop :=
  forall h v h', c h = Return (v, h') -> sameButCaches h h'.

(** ** The segments below a segment *)

(** The segments on the chain of [prev] from [p] on, nearest first;
    nothing when the chain leaves the heap or is longer than [fuel]. *)
Fixpoint prevChain (fuel : nat) (h : Segment.Heap) (p : option nat)
  : option (list Segment.Segment) :=
  match p with
  | None => Some []
  | Some q =>
    match fuel with
    | O => None
    | S fuel' =>
      match Segment.segments h !! q with
      | None => None
      | Some sq =>
        match prevChain fuel' h (Segment.prev sq) with
        | None => None
        | Some chain => Some (sq :: chain)
        end
      end
    end
  end.

(** How many segments of a chain come from [ring]. *)
Definition sameRingCount (ring : Ring.Ring) (chain : list Segment.Segment)
  : nat :=
  length (List.filter (fun t => bool_decide (Segment.ringIn t = ring)) chain).

(** The segment has not had its [sweepLineEntersRing] read yet. *)
Definition entersRingUnset (t : Segment.Segment) : Prop :=
  Segment.c_sweepLineEntersRing (Segment._cache t) = None.

(** ** Arithmetic that rounds

    The numbers of the program are binary64 values, and each difference
    and each product it computes is rounded to such a value.  Here [rnd]
    is that rounding: an operation of the program is the exact operation
    followed by [rnd].  Comparisons, [Math.abs] and [Math.max] do not
    round.  The functions below are those that [Segment.compare] runs
    through, operation for operation as above, with every difference and
    every product rounded. *)

Module Rounded.

Section WithRounding.

Variable rnd : Q -> Q.

(** The tolerance. *)
Variable eps : Q.

(** The difference and the product of two numbers, as the program
    computes them. *)
Definition sub (a b : Q) : Q := rnd (a - b).

Definition mul (a b : Q) : Q := rnd (a * b).

(** Modelled from the spec: [flp.flpEQ] is missing from the sources;
    [flpEQ(a,b)] iff [|a-b| <= eps * max(1,|a|,|b|)]. *)
Definition flpEQ (a b : Q) : bool :=
  Qle_bool (Flp.absQ (sub a b))
    (mul eps (Flp.maxQ (Flp.maxQ 1 (Flp.absQ a)) (Flp.absQ b))).

(** Modelled from the spec: [flp.flpLT] is missing from the sources;
    [flpLT(a,b)] iff [a < b] and not [flpEQ(a,b)]. *)
Definition flpLT (a b : Q) : bool := Flp.Qlt_bool a b && negb (flpEQ a b).

(** Modelled from the spec: [flp.flpCompare] is missing from the sources;
    it returns -1, 0 or +1 according to [flpLT] and [flpEQ]. *)
Definition flpCompare (a b : Q) : Z :=
  if flpEQ a b then 0%Z else if Flp.Qlt_bool a b then (-1)%Z else 1%Z.

(** Modelled from the spec: [vector.crossProduct] is missing from the
    sources; [cross(u,v) = u.x*v.y - u.y*v.x]. *)
Definition crossProduct (u v : Point) : Q :=
  sub (mul (fst u) (snd v)) (mul (snd u) (fst v)).

(** Modelled from the spec: [vector.compareVectorAngles] is missing from
    the sources; [compareVectorAngles(p, a, b) = sign(cross(b-a, p-a))],
    the sign being taken through [flpCompare] against zero. *)
Definition compareVectorAngles (p a b : Point) : Z :=
  flpCompare
    (crossProduct (sub (fst b) (fst a), sub (snd b) (snd a))
                  (sub (fst p) (fst a), sub (snd p) (snd a)))
    0.

(** Modelled from the spec: [flp.arePointsEqual] is missing from the
    sources; [arePointsEqual(p,q)] iff [flpEQ(p.x,q.x)] and
    [flpEQ(p.y,q.y)]. *)
Definition arePointsEqual (p q : Point) : bool :=
  flpEQ (fst p) (fst q) && flpEQ (snd p) (snd q).

(** Modelled from the spec: [SweepEvent.comparePoints] is missing from the
    sources; lexicographic on [(x, y)] through [flpCompare]. *)
Definition comparePoints (a b : Point) : Z :=
  let cx := flpCompare (fst a) (fst b) in
  if (cx =? 0)%Z then flpCompare (snd a) (snd b) else cx.

(** [isAnEndpoint (point)] *)
Definition isAnEndpoint (s : Segment.Segment) (pt : Point) : bool :=
  existsb (fun p => arePointsEqual p pt) (Segment.points s).

(** [isPointColinear (point)] *)
Definition isPointColinear (s : Segment.Segment) (pt : Point) : bool :=
  isAnEndpoint s pt ||
  (compareVectorAngles pt (SweepEvent.point (Segment.leftSE s))
     (SweepEvent.point (Segment.rightSE s))
     =? 0)%Z.

(** [isColinearWith (other)] *)
Definition isColinearWith (s other : Segment.Segment) : bool :=
  forallb (fun pt => isPointColinear s pt) (Segment.points other).

(** [isPointBelow (point)] *)
Definition isPointBelow (s : Segment.Segment) (pt : Point) : bool :=
  negb (isAnEndpoint s pt) &&
  (0 <? compareVectorAngles pt (SweepEvent.point (Segment.leftSE s))
          (SweepEvent.point (Segment.rightSE s)))%Z.

(** [static compare (a, b)] *)
Definition compare (a b : Segment.Segment) : outcome Z :=
  if (Segment.sid a =? Segment.sid b)%nat then Return 0%Z else
  let alx := fst (SweepEvent.point (Segment.leftSE a)) in
  let aly := snd (SweepEvent.point (Segment.leftSE a)) in
  let blx := fst (SweepEvent.point (Segment.leftSE b)) in
  let bly := snd (SweepEvent.point (Segment.leftSE b)) in
  let arx := fst (SweepEvent.point (Segment.rightSE a)) in
  let brx := fst (SweepEvent.point (Segment.rightSE b)) in
  (* check if they're even in the same vertical plane *)
  if flpLT brx alx then Return 1%Z else
  if flpLT arx blx then Return (-1)%Z else
  let cmpLX := flpCompare alx blx in
  if isColinearWith a b then
    if negb (cmpLX =? 0)%Z then Return cmpLX
    else if negb (Ring.id (Segment.ringIn a) =? Ring.id (Segment.ringIn b))%Z
    then
      Return (if (Ring.id (Segment.ringIn a) <? Ring.id (Segment.ringIn b))%Z
              then (-1)%Z else 1%Z)
    else Throw ComparisonFailed
  else
    if arePointsEqual (SweepEvent.point (Segment.leftSE a))
         (SweepEvent.point (Segment.leftSE b)) then
      Return (if isPointBelow a (SweepEvent.point (Segment.rightSE b))
              then (-1)%Z else 1%Z)
    else if (cmpLX =? 0)%Z then Return (flpCompare aly bly)
    else if flpLT alx blx then
      Return (if isPointBelow a (SweepEvent.point (Segment.leftSE b))
              then (-1)%Z else 1%Z)
    else if flpLT blx alx then
      Return (if isPointBelow b (SweepEvent.point (Segment.leftSE a))
              then 1%Z else (-1)%Z)
    else Throw ComparisonFailed.

(** A segment is well formed when its left point strictly precedes its
    right point under [comparePoints], as the constructor leaves it. *)
Definition wellFormed (s : Segment.Segment) : Prop :=
  comparePoints (SweepEvent.point (Segment.leftSE s))
    (SweepEvent.point (Segment.rightSE s)) = (-1)%Z.

End WithRounding.

End Rounded.

(** What is used of the rounding of binary64 arithmetic: it respects the
    equality of numbers, it is monotone, and it leaves alone the integers
    of magnitude up to [2^53] and their halves, all of which are binary64
    values. *)
Definition faithfulRounding (rnd : Q -> Q) : Prop :=
  (forall x y, x == y -> rnd x == rnd y) /\
  (forall x y, x <= y -> rnd x <= rnd y) /\
  (forall z : Z, (Z.abs z <= 2 ^ 53)%Z -> rnd (inject_Z z) == inject_Z z) /\
  (forall z : Z, (Z.abs z <= 2 ^ 53)%Z ->
                 rnd (inject_Z z / 2) == inject_Z z / 2).

(** An integer of magnitude at most [bound]. *)
Definition intWithin (bound : Z) (q : Q) : Prop :=
  exists z : Z, q == inject_Z z /\ (Z.abs z <= bound)%Z.

(** A point of the small grid: both coordinates are integers of magnitude
    at most [2^25].  The differences of such coordinates are below [2^26],
    their products below [2^52] and the cross products below [2^53]: all
    of them are binary64 values, so that no operation on them rounds. *)
Definition smallGridPoint (p : Point) : Prop :=
  intWithin (2 ^ 25) (fst p) /\ intWithin (2 ^ 25) (snd p).

(** A segment with both endpoints on the small grid. *)
Definition onSmallGrid (s : Segment.Segment) : Prop :=
  smallGridPoint (SweepEvent.point (Segment.leftSE s)) /\
  smallGridPoint (SweepEvent.point (Segment.rightSE s)).

(** A rounding for the examples: to the nearest multiple of one half, a
    tie going up.  It leaves integers and their halves alone and rounds
    everything else. *)
Definition roundToHalves (q : Q) : Q :=
  inject_Z (Qfloor (2 * q + (1 # 2))) / 2.

(** Two segments of the small grid that cross. *)
Definition risingLong : Segment.Segment :=
  Examples.built 0 Examples.ring1 (0, 0) (4, 4).

Definition risingFlat : Segment.Segment :=
  Examples.built 1 Examples.ring2 (1, 0) (5, 1).

(** * Properties *)

(** ** Numbers *)

Lemma Qle_bool_false (a b : Q) : Qle_bool a b = false <-> b < a.
Proof.
  rewrite <- not_true_iff_false, Qle_bool_iff. split; intros H.
  - apply Qnot_le_lt; exact H.
  - apply Qlt_not_le; exact H.
Qed.

(** Case analysis on every comparison of numbers in sight, innermost
    first, leaving the facts as hypotheses for [lra]. *)
Ltac no_test t :=
  lazymatch t with
  | context [Qle_bool _ _] => fail
  | _ => idtac
  end.

Ltac split_test a b :=
  no_test a; no_test b;
  let E := fresh "E" in
  destruct (Qle_bool a b) eqn:E;
  [ apply Qle_bool_iff in E | apply Qle_bool_false in E ].

Ltac tests :=
  repeat match goal with
         | |- context [Qle_bool ?a ?b] => split_test a b
         | H : context [Qle_bool ?a ?b] |- _ => split_test a b
         end.

Ltac flp_unfold :=
  unfold Flp.flpCompare, Flp.flpLT, Flp.flpEQ, Flp.Qlt_bool, Flp.absQ,
    Flp.maxQ, Flp.minQ in *.

Lemma flpEQ_sym (eps a b : Q) : Flp.flpEQ eps a b = Flp.flpEQ eps b a.
Proof. flp_unfold. tests; try reflexivity; exfalso; nra. Qed.

Lemma flpEQ_refl (eps a : Q) : 0 <= eps -> Flp.flpEQ eps a a = true.
Proof. intros H. flp_unfold. tests; try reflexivity; exfalso; nra. Qed.

Lemma flpCompare_antisym (eps a b : Q) :
  0 <= eps -> Flp.flpCompare eps b a = (- Flp.flpCompare eps a b)%Z.
Proof.
  intros H. unfold Flp.flpCompare. rewrite (flpEQ_sym eps b a).
  destruct (Flp.flpEQ eps a b) eqn:EQ; [reflexivity|].
  assert (N : ~ a == b).
  { intros AB. revert EQ. flp_unfold. tests; try discriminate; exfalso; nra. }
  unfold Flp.Qlt_bool. tests; try reflexivity; exfalso; apply N; lra.
Qed.

Lemma flpCompare_range (eps a b : Q) :
  Flp.flpCompare eps a b = (-1)%Z \/ Flp.flpCompare eps a b = 0%Z \/
  Flp.flpCompare eps a b = 1%Z.
Proof.
  unfold Flp.flpCompare.
  destruct (Flp.flpEQ eps a b), (Flp.Qlt_bool a b); auto.
Qed.

Lemma flpCompare_zero (eps a b : Q) :
  Flp.flpCompare eps a b = 0%Z <-> Flp.flpEQ eps a b = true.
Proof.
  unfold Flp.flpCompare.
  destruct (Flp.flpEQ eps a b), (Flp.Qlt_bool a b); split; congruence.
Qed.

Lemma flpLT_compare (eps a b : Q) :
  Flp.flpLT eps a b = true <-> Flp.flpCompare eps a b = (-1)%Z.
Proof.
  unfold Flp.flpCompare, Flp.flpLT.
  destruct (Flp.flpEQ eps a b), (Flp.Qlt_bool a b); simpl; split; congruence.
Qed.

(** ** Points *)

Lemma comparePoints_antisym (eps : Q) (p q : Point) :
  0 <= eps ->
  SweepEvent.comparePoints eps q p = (- SweepEvent.comparePoints eps p q)%Z.
Proof.
  intros H. unfold SweepEvent.comparePoints.
  rewrite (flpCompare_antisym eps (fst p) (fst q) H).
  rewrite (flpCompare_antisym eps (snd p) (snd q) H).
  destruct (flpCompare_range eps (fst p) (fst q)) as [E|[E|E]];
    rewrite E; reflexivity.
Qed.

Lemma comparePoints_range (eps : Q) (p q : Point) :
  SweepEvent.comparePoints eps p q = (-1)%Z \/
  SweepEvent.comparePoints eps p q = 0%Z \/
  SweepEvent.comparePoints eps p q = 1%Z.
Proof.
  unfold SweepEvent.comparePoints.
  destruct (flpCompare_range eps (fst p) (fst q)) as [E|[E|E]]; rewrite E;
    simpl; auto using flpCompare_range.
Qed.

Lemma comparePoints_zero (eps : Q) (p q : Point) :
  SweepEvent.comparePoints eps p q = 0%Z <-> arePointsEqual eps p q = true.
Proof.
  unfold SweepEvent.comparePoints, arePointsEqual.
  rewrite andb_true_iff, <- !flpCompare_zero.
  destruct (flpCompare_range eps (fst p) (fst q)) as [E|[E|E]]; rewrite E;
    simpl; intuition congruence.
Qed.

Lemma arePointsEqual_sym (eps : Q) (p q : Point) :
  arePointsEqual eps p q = arePointsEqual eps q p.
Proof.
  unfold arePointsEqual.
  now rewrite (flpEQ_sym eps (fst p)), (flpEQ_sym eps (snd p)).
Qed.

(** Sorting two points: they are swapped exactly when the comparator puts
    the first after the second. *)
Lemma sort_two {A} (cmp : A -> A -> Z) (x y : A) :
  sort cmp [x; y] = if (0 <? cmp x y)%Z then [y; x] else [x; y].
Proof. reflexivity. Qed.

(** ** Construction *)

(** C9. The constructor throws exactly when the two given points are
    tolerantly equal ([arePointsEqual]); otherwise it returns a new segment
    whose left point strictly precedes its right point under
    [comparePoints], so that the two endpoints of a constructed segment are
    never tolerantly equal.  The tolerance is taken non-negative. *)
Theorem constructor_canonical (eps : Q) (point1 point2 : Point)
    (ring : Ring.Ring) (h : Segment.Heap) :
  0 <= eps ->
  match Segment.constructor eps point1 point2 ring h with
  | Throw e => e = EqualPoints /\ arePointsEqual eps point1 point2 = true
  | Return (this, h') =>
    arePointsEqual eps point1 point2 = false /\
    exists s, Segment.segments h' !! this = Some s /\
      Segment.sid s = this /\
      Segment.ringIn s = ring /\
      SweepEvent.comparePoints eps
        (SweepEvent.point (Segment.leftSE s))
        (SweepEvent.point (Segment.rightSE s)) = (-1)%Z /\
      arePointsEqual eps
        (SweepEvent.point (Segment.leftSE s))
        (SweepEvent.point (Segment.rightSE s)) = false /\
      (SweepEvent.point (Segment.leftSE s) = point1 /\
       SweepEvent.point (Segment.rightSE s) = point2 \/
       SweepEvent.point (Segment.leftSE s) = point2 /\
       SweepEvent.point (Segment.rightSE s) = point1)
  | Undefined => False
  end.
Proof.
  intros Heps. unfold Segment.constructor.
  destruct (arePointsEqual eps point1 point2) eqn:EQ.
  { simpl. auto. }
  assert (NZ : SweepEvent.comparePoints eps point1 point2 <> 0%Z).
  { rewrite comparePoints_zero. congruence. }
  rewrite sort_two.
  destruct (0 <? SweepEvent.comparePoints eps point1 point2)%Z eqn:GT.
  - split; [reflexivity|]. eexists. simpl. rewrite lookup_insert_eq.
    split; [reflexivity|]. simpl.
    split; [reflexivity|]. split; [reflexivity|]. split; [|split; [|tauto]].
    + rewrite comparePoints_antisym by assumption.
      apply Z.ltb_lt in GT.
      destruct (comparePoints_range eps point1 point2) as [E|[E|E]];
        rewrite E in *; lia.
    + rewrite arePointsEqual_sym. exact EQ.
  - split; [reflexivity|]. eexists. simpl. rewrite lookup_insert_eq.
    split; [reflexivity|]. simpl.
    split; [reflexivity|]. split; [reflexivity|]. split; [|split; [|tauto]].
    + apply Z.ltb_ge in GT.
      destruct (comparePoints_range eps point1 point2) as [E|[E|E]];
        rewrite E in *; lia.
    + exact EQ.
Qed.

Example built_by_constructor :
  Segment.bind (Segment.constructor Examples.EPSILON (3, 0) (2, 0)
                  Examples.ring1)
    (fun _ => Segment.constructor Examples.EPSILON (0, 0) (1, 0)
                Examples.ring2) Segment.emptyHeap
  = Return (1%nat,
            Segment.mkHeap
              (<[1%nat := Examples.leftOne]>
                 (<[0%nat := Examples.rightOne]> ∅))
              (<[1%nat := [1%nat]]> (<[0%nat := [0%nat]]> ∅)) 2 2 4).
Proof. vm_compute. reflexivity. Qed.

Example constructor_throws :
  Segment.constructor Examples.EPSILON (1, 1) (1, 1) Examples.ring1
    Segment.emptyHeap = Throw EqualPoints.
Proof. reflexivity. Qed.

Lemma constructor_canonical_witness :
  match Segment.constructor Examples.EPSILON (3, 0) (2, 0) Examples.ring1
          Segment.emptyHeap with
  | Throw e =>
    e = EqualPoints /\ arePointsEqual Examples.EPSILON (3, 0) (2, 0) = true
  | Return (this, h') =>
    arePointsEqual Examples.EPSILON (3, 0) (2, 0) = false /\
    exists s, Segment.segments h' !! this = Some s /\
      Segment.sid s = this /\
      Segment.ringIn s = Examples.ring1 /\
      SweepEvent.comparePoints Examples.EPSILON
        (SweepEvent.point (Segment.leftSE s))
        (SweepEvent.point (Segment.rightSE s)) = (-1)%Z /\
      arePointsEqual Examples.EPSILON
        (SweepEvent.point (Segment.leftSE s))
        (SweepEvent.point (Segment.rightSE s)) = false /\
      (SweepEvent.point (Segment.leftSE s) = (3, 0) /\
       SweepEvent.point (Segment.rightSE s) = (2, 0) \/
       SweepEvent.point (Segment.leftSE s) = (2, 0) /\
       SweepEvent.point (Segment.rightSE s) = (3, 0))
  | Undefined => False
  end.
Proof.
  apply (constructor_canonical Examples.EPSILON (3, 0) (2, 0) Examples.ring1
           Segment.emptyHeap).
  vm_compute. discriminate.
Defined.

(** ** The order of segments *)

(** C8, as the code has it.  When the right end of [b] is strictly left
    (under [flpLT]) of the left end of [a], then [compare a b] is 1: it is
    [a], the segment lying to the right, that is ordered greater, and the
    segment whose right x is strictly left is ordered before it.  Called the
    other way round, [compare b a] is -1, unless the right end of [a] is
    also strictly left of the left end of [b]. *)
Theorem compare_strictly_left (eps : Q) (a b : Segment.Segment) :
  Segment.sid a <> Segment.sid b ->
  Flp.flpLT eps (fst (SweepEvent.point (Segment.rightSE b)))
    (fst (SweepEvent.point (Segment.leftSE a))) = true ->
  Segment.compare eps a b = Return 1%Z /\
  (Flp.flpLT eps (fst (SweepEvent.point (Segment.rightSE a)))
     (fst (SweepEvent.point (Segment.leftSE b))) = false ->
   Segment.compare eps b a = Return (-1)%Z).
Proof.
  intros Hid Hlt. unfold Segment.compare.
  apply Nat.eqb_neq in Hid. rewrite Hid.
  rewrite Nat.eqb_sym in Hid. rewrite Hid.
  cbv zeta. rewrite Hlt. split; [reflexivity|].
  intros Hnot. rewrite Hnot. reflexivity.
Qed.

Lemma compare_strictly_left_witness :
  Segment.compare Examples.EPSILON Examples.rightOne Examples.leftOne
    = Return 1%Z /\
  (Flp.flpLT Examples.EPSILON
     (fst (SweepEvent.point (Segment.rightSE Examples.rightOne)))
     (fst (SweepEvent.point (Segment.leftSE Examples.leftOne))) = false ->
   Segment.compare Examples.EPSILON Examples.leftOne Examples.rightOne
    = Return (-1)%Z).
Proof.
  apply (compare_strictly_left Examples.EPSILON Examples.rightOne
           Examples.leftOne).
  - vm_compute. discriminate.
  - vm_compute. reflexivity.
Defined.

(** C8, as stated, fails: the right x of [leftOne] is strictly left of the
    left x of [rightOne], and yet [leftOne] is not ordered greater than
    [rightOne]; it is ordered less, whichever way [compare] is called. *)
Lemma compare_strictly_left_counterexample :
  Flp.flpLT Examples.EPSILON
    (fst (SweepEvent.point (Segment.rightSE Examples.leftOne)))
    (fst (SweepEvent.point (Segment.leftSE Examples.rightOne))) = true /\
  Segment.compare Examples.EPSILON Examples.leftOne Examples.rightOne
    = Return (-1)%Z /\
  Segment.compare Examples.EPSILON Examples.rightOne Examples.leftOne
    = Return 1%Z /\
  Segment.compare Examples.EPSILON Examples.leftOne Examples.rightOne
    <> Return 1%Z.
Proof. vm_compute. repeat split; discriminate. Qed.

(** *** Exact comparisons: the tolerance zero *)

Lemma flpEQ_exact (a b : Q) : reflect (a == b) (Flp.flpEQ 0 a b).
Proof.
  apply iff_reflect. flp_unfold.
  tests; split; intros H; try reflexivity; try discriminate; try lra;
    exfalso; lra.
Qed.

Lemma flpLT_exact (a b : Q) : reflect (a < b) (Flp.flpLT 0 a b).
Proof.
  unfold Flp.flpLT. destruct (flpEQ_exact a b) as [E|E];
    unfold Flp.Qlt_bool; simpl.
  - rewrite andb_false_r. constructor. lra.
  - rewrite andb_true_r. apply iff_reflect.
    rewrite negb_true_iff, Qle_bool_false. reflexivity.
Qed.

Lemma flpCompare_exact (a b : Q) : cmp_spec a b (Flp.flpCompare 0 a b).
Proof.
  unfold Flp.flpCompare. destruct (flpEQ_exact a b) as [E|E].
  - now constructor.
  - unfold Flp.Qlt_bool. destruct (Qle_bool b a) eqn:L; simpl.
    + apply Qle_bool_iff in L. constructor. lra.
    + apply Qle_bool_false in L. now constructor.
Qed.

Lemma arePointsEqual_exact (p q : Point) :
  reflect (fst p == fst q /\ snd p == snd q) (arePointsEqual 0 p q).
Proof.
  unfold arePointsEqual.
  destruct (flpEQ_exact (fst p) (fst q)), (flpEQ_exact (snd p) (snd q));
    simpl; constructor; tauto.
Qed.

Lemma compareVectorAngles_exact (s : Segment.Segment) (pt : Point) :
  cmp_spec (side s pt) 0
    (Vector.compareVectorAngles 0 pt (SweepEvent.point (Segment.leftSE s))
       (SweepEvent.point (Segment.rightSE s))).
Proof. apply flpCompare_exact. Qed.

Lemma isAnEndpoint_exact (s : Segment.Segment) (pt : Point) :
  reflect
    ((fst (SweepEvent.point (Segment.leftSE s)) == fst pt /\
      snd (SweepEvent.point (Segment.leftSE s)) == snd pt) \/
     (fst (SweepEvent.point (Segment.rightSE s)) == fst pt /\
      snd (SweepEvent.point (Segment.rightSE s)) == snd pt))
    (Segment.isAnEndpoint 0 s pt).
Proof.
  unfold Segment.isAnEndpoint, Segment.points. simpl.
  destruct (arePointsEqual_exact (SweepEvent.point (Segment.leftSE s)) pt),
           (arePointsEqual_exact (SweepEvent.point (Segment.rightSE s)) pt);
    simpl; constructor; tauto.
Qed.

Lemma side_endpoint (s : Segment.Segment) (pt : Point) :
  (fst (SweepEvent.point (Segment.leftSE s)) == fst pt /\
   snd (SweepEvent.point (Segment.leftSE s)) == snd pt) \/
  (fst (SweepEvent.point (Segment.rightSE s)) == fst pt /\
   snd (SweepEvent.point (Segment.rightSE s)) == snd pt) ->
  side s pt == 0.
Proof.
  unfold side, Vector.crossProduct. simpl.
  intros [[Hx Hy]|[Hx Hy]]; rewrite <- Hx, <- Hy; ring.
Qed.

Lemma isPointColinear_exact (s : Segment.Segment) (pt : Point) :
  reflect (side s pt == 0) (Segment.isPointColinear 0 s pt).
Proof.
  unfold Segment.isPointColinear.
  destruct (isAnEndpoint_exact s pt) as [E|E]; simpl.
  - constructor. now apply side_endpoint.
  - destruct (compareVectorAngles_exact s pt); simpl; constructor; lra.
Qed.

Lemma isPointBelow_exact (s : Segment.Segment) (pt : Point) :
  reflect (0 < side s pt) (Segment.isPointBelow 0 s pt).
Proof.
  unfold Segment.isPointBelow.
  destruct (isAnEndpoint_exact s pt) as [E|E]; simpl.
  - constructor. apply side_endpoint in E. lra.
  - destruct (compareVectorAngles_exact s pt); simpl; constructor; lra.
Qed.

Lemma isColinearWith_exact (a b : Segment.Segment) :
  reflect (side a (SweepEvent.point (Segment.leftSE b)) == 0 /\
           side a (SweepEvent.point (Segment.rightSE b)) == 0)
    (Segment.isColinearWith 0 a b).
Proof.
  unfold Segment.isColinearWith, Segment.points. simpl.
  destruct (isPointColinear_exact a (SweepEvent.point (Segment.leftSE b))),
           (isPointColinear_exact a (SweepEvent.point (Segment.rightSE b)));
    simpl; constructor; tauto.
Qed.

Lemma wellFormed_exact (s : Segment.Segment) :
  wellFormed 0 s <->
  fst (SweepEvent.point (Segment.leftSE s))
    < fst (SweepEvent.point (Segment.rightSE s)) \/
  (fst (SweepEvent.point (Segment.leftSE s))
     == fst (SweepEvent.point (Segment.rightSE s)) /\
   snd (SweepEvent.point (Segment.leftSE s))
     < snd (SweepEvent.point (Segment.rightSE s))).
Proof.
  unfold wellFormed, SweepEvent.comparePoints.
  destruct (flpCompare_exact (fst (SweepEvent.point (Segment.leftSE s)))
              (fst (SweepEvent.point (Segment.rightSE s)))); simpl.
  - split; auto.
  - destruct (flpCompare_exact (snd (SweepEvent.point (Segment.leftSE s)))
                (snd (SweepEvent.point (Segment.rightSE s))));
      split; intros H'; try discriminate; try reflexivity; try tauto;
      exfalso; lra.
  - split; intros H'; try discriminate. exfalso; lra.
Qed.

(** Two well-formed segments are colinear one way round exactly when they
    are the other way round. *)
Lemma colinear_sym_exact (a b : Segment.Segment) :
  wellFormed 0 a -> wellFormed 0 b ->
  side a (SweepEvent.point (Segment.leftSE b)) == 0 ->
  side a (SweepEvent.point (Segment.rightSE b)) == 0 ->
  side b (SweepEvent.point (Segment.leftSE a)) == 0 /\
  side b (SweepEvent.point (Segment.rightSE a)) == 0.
Proof.
  rewrite !wellFormed_exact. unfold side, Vector.crossProduct. simpl.
  destruct (SweepEvent.point (Segment.leftSE a)) as [alx aly].
  destruct (SweepEvent.point (Segment.rightSE a)) as [arx ary].
  destruct (SweepEvent.point (Segment.leftSE b)) as [blx bly].
  destruct (SweepEvent.point (Segment.rightSE b)) as [brx bry].
  simpl. intros Wa Wb H1 H2.
  set (vx := arx - alx) in *. set (vy := ary - aly) in *.
  set (wx := brx - blx) in *. set (wy := bry - bly) in *.
  set (dx := blx - alx) in *. set (dy := bly - aly) in *.
  assert (K : vx * wy - vy * wx == 0).
  { unfold vx, vy, wx, wy, dx, dy in *. lra. }
  assert (T1 : (wx * dy - wy * dx) * vx == 0).
  { assert (I : (wx * dy - wy * dx) * vx
                 == (vx * dy - vy * dx) * wx - (vx * wy - vy * wx) * dx)
      by ring.
    rewrite I, H1, K. ring. }
  assert (T2 : (wx * dy - wy * dx) * vy == 0).
  { assert (I : (wx * dy - wy * dx) * vy
                 == (vx * dy - vy * dx) * wy - (vx * wy - vy * wx) * dy)
      by ring.
    rewrite I, H1, K. ring. }
  assert (Z : wx * dy - wy * dx == 0).
  { destruct (Qeq_dec vx 0) as [V|V].
    - destruct (Qeq_dec vy 0) as [V'|V'].
      + exfalso. unfold vx, vy in *. lra.
      + apply Qmult_integral in T2. tauto.
    - apply Qmult_integral in T1. tauto. }
  unfold vx, vy, wx, wy, dx, dy in *. split; nra.
Qed.

Ltac case_head c :=
  lazymatch c with
  | negb ?c' => case_head c'
  | Flp.flpLT 0 ?x ?y => destruct (flpLT_exact x y)
  | (Flp.flpCompare 0 ?x ?y =? 0)%Z => destruct (flpCompare_exact x y)
  | Segment.isColinearWith 0 ?x ?y => destruct (isColinearWith_exact x y)
  | arePointsEqual 0 ?p ?q => destruct (arePointsEqual_exact p q)
  | Segment.isPointBelow 0 ?s ?p => destruct (isPointBelow_exact s p)
  | (?i =? ?j)%Z => destruct (Z.eqb_spec i j)
  | (?i <? ?j)%Z => destruct (Z.ltb_spec i j)
  end; simpl.

Ltac chain :=
  repeat (match goal with
          | |- (if ?c then _ else _) = _ -> _ => case_head c
          end; try (exfalso; lra)).

(** With exact comparisons, [compare] is antisymmetric on distinct
    well-formed segments whenever neither call throws. *)
Lemma compare_antisym_exact (a b : Segment.Segment) (r r' : Z) :
  Segment.sid a <> Segment.sid b ->
  wellFormed 0 a -> wellFormed 0 b ->
  Segment.compare 0 a b = Return r ->
  Segment.compare 0 b a = Return r' ->
  r = (- r')%Z.
Proof.
  intros Hid Wa Wb. unfold Segment.compare.
  apply Nat.eqb_neq in Hid. rewrite Hid.
  rewrite Nat.eqb_sym in Hid. rewrite Hid. cbv zeta.
  pose proof (colinear_sym_exact a b Wa Wb) as Sab.
  pose proof (colinear_sym_exact b a Wb Wa) as Sba.
  apply wellFormed_exact in Wa. apply wellFormed_exact in Wb.
  chain; intros H1; (discriminate H1 || injection H1 as <-);
    chain; intros H2; (discriminate H2 || injection H2 as <-);
    repeat match goal with
           | |- context [if ?c then _ else _] => case_head c
           end;
    try reflexivity; try lia; try (exfalso; lra); try (exfalso; tauto).
  all: repeat match goal with
       | n : ~ (?x == 0 /\ ?y == 0) |- _ =>
         assert (~ x == 0 \/ ~ y == 0)
           by (destruct (Qeq_dec x 0); [right; intro; apply n; tauto|tauto]);
         clear n
       end.
  all: clear Sab Sba.
  all: unfold side, Vector.crossProduct in *; simpl in *.
  all: try (exfalso; nra).
  apply flpCompare_antisym. lra.
Qed.

Example shortTilted_built :
  Segment.bind (Segment.constructor Examples.EPSILON (0, 0) (2, 0)
                  Examples.ring1)
    (fun _ => Segment.constructor Examples.EPSILON (1, 0)
                (3 # 2, 3 # 18014398509481984) Examples.ring2)
    Segment.emptyHeap
  = Return (1%nat,
            Segment.mkHeap
              (<[1%nat := Examples.shortTilted]>
                 (<[0%nat := Examples.longFlat]> ∅))
              (<[1%nat := [1%nat]]> (<[0%nat := [0%nat]]> ∅)) 2 2 4).
Proof. vm_compute. reflexivity. Qed.

(** C2, as stated, fails under a positive tolerance.  [shortTilted] is
    colinear with [longFlat] when asked from its own side, within the
    tolerance, and is not when asked from the side of [longFlat]; both
    segments are well formed and distinct, neither call throws, and both
    calls answer 1. *)
Lemma compare_antisym_counterexample :
  Segment.sid Examples.longFlat <> Segment.sid Examples.shortTilted /\
  wellFormed Examples.EPSILON Examples.longFlat /\
  wellFormed Examples.EPSILON Examples.shortTilted /\
  Segment.compare Examples.EPSILON Examples.longFlat Examples.shortTilted
    = Return 1%Z /\
  Segment.compare Examples.EPSILON Examples.shortTilted Examples.longFlat
    = Return 1%Z /\
  ~ (forall r r' : Z,
       Segment.compare Examples.EPSILON Examples.longFlat
         Examples.shortTilted = Return r ->
       Segment.compare Examples.EPSILON Examples.shortTilted
         Examples.longFlat = Return r' ->
       r = (- r')%Z).
Proof.
  assert (E1 : Segment.compare Examples.EPSILON Examples.longFlat
                 Examples.shortTilted = Return 1%Z) by (vm_compute; reflexivity).
  assert (E2 : Segment.compare Examples.EPSILON Examples.shortTilted
                 Examples.longFlat = Return 1%Z) by (vm_compute; reflexivity).
  repeat split; try assumption.
  - vm_compute. discriminate.
  - intros H. specialize (H 1%Z 1%Z E1 E2). discriminate H.
Qed.

(** *** Integer coordinates: the tolerant tests decide exactly *)

Lemma integral_minus (x y : Q) : integral x -> integral y -> integral (x - y).
Proof.
  intros [a Ha] [b Hb]. exists (a - b)%Z.
  rewrite Ha, Hb. unfold Zminus. rewrite inject_Z_plus, inject_Z_opp. ring.
Qed.

Lemma integral_mult (x y : Q) : integral x -> integral y -> integral (x * y).
Proof.
  intros [a Ha] [b Hb]. exists (a * b)%Z.
  rewrite Ha, Hb, inject_Z_mult. reflexivity.
Qed.

Lemma integral_zero : integral 0.
Proof. exists 0%Z. reflexivity. Qed.

Lemma integral_abs_ge1 (q : Q) :
  integral q -> ~ q == 0 -> 1 <= Flp.absQ q.
Proof.
  intros [z Hz] NZ. unfold Flp.absQ.
  assert (z <> 0)%Z as Z0.
  { intros ->. apply NZ. rewrite Hz. reflexivity. }
  destruct (Qle_bool 0 q) eqn:E.
  - apply Qle_bool_iff in E. rewrite Hz in *.
    change 0 with (inject_Z 0) in E. rewrite <- Zle_Qle in E.
    change 1 with (inject_Z 1). rewrite <- Zle_Qle. lia.
  - apply Qle_bool_false in E. rewrite Hz in *.
    change 0 with (inject_Z 0) in E. rewrite <- Zlt_Qlt in E.
    rewrite <- inject_Z_opp.
    change 1 with (inject_Z 1). rewrite <- Zle_Qle. lia.
Qed.

Lemma flpEQ_grid (eps x y : Q) :
  0 <= eps -> eps < 1 -> integral x -> integral y ->
  eps * Flp.absQ x < 1 -> eps * Flp.absQ y < 1 ->
  Flp.flpEQ eps x y = Flp.flpEQ 0 x y.
Proof.
  intros H0 H1 Ix Iy Bx By.
  destruct (flpEQ_exact x y) as [E|E].
  - revert Bx By. flp_unfold. tests; intros; try reflexivity; exfalso; nra.
  - pose proof (integral_abs_ge1 (x - y) (integral_minus x y Ix Iy)) as G.
    assert (N : ~ x - y == 0) by (intros D; apply E; lra).
    specialize (G N). revert G Bx By.
    flp_unfold. tests; intros; try reflexivity; exfalso; nra.
Qed.

Lemma flpEQ_grid_zero (eps c : Q) :
  0 <= eps -> eps < 1 -> integral c ->
  Flp.flpEQ eps c 0 = Flp.flpEQ 0 c 0.
Proof.
  intros H0 H1 Ic.
  destruct (flpEQ_exact c 0) as [E|E].
  - flp_unfold. tests; intros; try reflexivity; exfalso; nra.
  - pose proof (integral_abs_ge1 c Ic E) as G. revert G.
    flp_unfold. tests; intros; try reflexivity; exfalso; nra.
Qed.

Lemma flpCompare_grid (eps x y : Q) :
  0 <= eps -> eps < 1 -> integral x -> integral y ->
  eps * Flp.absQ x < 1 -> eps * Flp.absQ y < 1 ->
  Flp.flpCompare eps x y = Flp.flpCompare 0 x y.
Proof.
  intros. unfold Flp.flpCompare. now rewrite (flpEQ_grid eps x y).
Qed.

Lemma flpLT_grid (eps x y : Q) :
  0 <= eps -> eps < 1 -> integral x -> integral y ->
  eps * Flp.absQ x < 1 -> eps * Flp.absQ y < 1 ->
  Flp.flpLT eps x y = Flp.flpLT 0 x y.
Proof.
  intros. unfold Flp.flpLT. now rewrite (flpEQ_grid eps x y).
Qed.

Lemma arePointsEqual_grid (eps : Q) (p q : Point) :
  0 <= eps -> eps < 1 -> gridPoint eps p -> gridPoint eps q ->
  arePointsEqual eps p q = arePointsEqual 0 p q.
Proof.
  intros H0 H1 (Px & Py & Bx & By) (Qx & Qy & Cx & Cy).
  unfold arePointsEqual.
  now rewrite (flpEQ_grid eps (fst p)), (flpEQ_grid eps (snd p)).
Qed.

Lemma comparePoints_grid (eps : Q) (p q : Point) :
  0 <= eps -> eps < 1 -> gridPoint eps p -> gridPoint eps q ->
  SweepEvent.comparePoints eps p q = SweepEvent.comparePoints 0 p q.
Proof.
  intros H0 H1 (Px & Py & Bx & By) (Qx & Qy & Cx & Cy).
  unfold SweepEvent.comparePoints.
  now rewrite (flpCompare_grid eps (fst p)), (flpCompare_grid eps (snd p)).
Qed.

Lemma compareVectorAngles_grid (eps : Q) (p a b : Point) :
  0 <= eps -> eps < 1 ->
  gridPoint eps p -> gridPoint eps a -> gridPoint eps b ->
  Vector.compareVectorAngles eps p a b = Vector.compareVectorAngles 0 p a b.
Proof.
  intros H0 H1 (Px & Py & _) (Ax & Ay & _) (Bx & By & _).
  unfold Vector.compareVectorAngles, Flp.flpCompare.
  rewrite flpEQ_grid_zero; auto.
  unfold Vector.crossProduct. simpl.
  auto using integral_minus, integral_mult.
Qed.

Section OnGrid.

Variable eps : Q.
Hypothesis eps_nonneg : 0 <= eps.
Hypothesis eps_small : eps < 1.

Lemma isAnEndpoint_grid (s : Segment.Segment) (pt : Point) :
  onGrid eps s -> gridPoint eps pt ->
  Segment.isAnEndpoint eps s pt = Segment.isAnEndpoint 0 s pt.
Proof.
  intros [L R] P. unfold Segment.isAnEndpoint, Segment.points. simpl.
  now rewrite !(arePointsEqual_grid eps).
Qed.

Lemma isPointColinear_grid (s : Segment.Segment) (pt : Point) :
  onGrid eps s -> gridPoint eps pt ->
  Segment.isPointColinear eps s pt = Segment.isPointColinear 0 s pt.
Proof.
  intros G P. unfold Segment.isPointColinear.
  rewrite isAnEndpoint_grid by assumption. destruct G as [L R].
  now rewrite (compareVectorAngles_grid eps).
Qed.

Lemma isPointBelow_grid (s : Segment.Segment) (pt : Point) :
  onGrid eps s -> gridPoint eps pt ->
  Segment.isPointBelow eps s pt = Segment.isPointBelow 0 s pt.
Proof.
  intros G P. unfold Segment.isPointBelow.
  rewrite isAnEndpoint_grid by assumption. destruct G as [L R].
  now rewrite (compareVectorAngles_grid eps).
Qed.

Lemma isColinearWith_grid (a b : Segment.Segment) :
  onGrid eps a -> onGrid eps b ->
  Segment.isColinearWith eps a b = Segment.isColinearWith 0 a b.
Proof.
  intros Ga [L R]. unfold Segment.isColinearWith, Segment.points. simpl.
  now rewrite !isPointColinear_grid.
Qed.

Lemma wellFormed_grid (s : Segment.Segment) :
  onGrid eps s -> wellFormed eps s <-> wellFormed 0 s.
Proof.
  intros [L R]. unfold wellFormed.
  now rewrite (comparePoints_grid eps).
Qed.

Lemma compare_grid (a b : Segment.Segment) :
  onGrid eps a -> onGrid eps b ->
  Segment.compare eps a b = Segment.compare 0 a b.
Proof.
  intros Ga Gb. unfold Segment.compare. cbv zeta.
  pose proof Ga as [(Alx & Aly & Blx & Bly) (Arx & Ary & Brx & Bry)].
  pose proof Gb as [(Clx & Cly & Dlx & Dly) (Crx & Cry & Drx & Dry)].
  rewrite !(flpLT_grid eps), !(flpCompare_grid eps) by assumption.
  rewrite !isColinearWith_grid by assumption.
  rewrite !(arePointsEqual_grid eps) by (assumption || apply Ga || apply Gb).
  rewrite !isPointBelow_grid by (assumption || apply Ga || apply Gb).
  reflexivity.
Qed.

End OnGrid.

(** With exact arithmetic, on integer coordinates of magnitude below
    [1 / eps] every tolerant test decides as the exact one does, and
    [compare] is antisymmetric.  The cross products are exact here; what
    holds of the program, whose products round, is stated for
    [Rounded.compare] further down. *)
Lemma compare_antisym_on_grid (eps : Q) (a b : Segment.Segment)
    (r r' : Z) :
  0 <= eps -> eps < 1 ->
  onGrid eps a -> onGrid eps b ->
  Segment.sid a <> Segment.sid b ->
  wellFormed eps a -> wellFormed eps b ->
  Segment.compare eps a b = Return r ->
  Segment.compare eps b a = Return r' ->
  r = (- r')%Z.
Proof.
  intros H0 H1 Ga Gb Hid Wa Wb.
  rewrite (compare_grid eps H0 H1 a b Ga Gb).
  rewrite (compare_grid eps H0 H1 b a Gb Ga).
  apply (wellFormed_grid eps H0 H1 a Ga) in Wa.
  apply (wellFormed_grid eps H0 H1 b Gb) in Wb.
  now apply compare_antisym_exact.
Qed.

Lemma gridPoint_example (x y : Z) :
  (Z.abs x <= 1000)%Z -> (Z.abs y <= 1000)%Z ->
  gridPoint Examples.EPSILON (inject_Z x, inject_Z y).
Proof.
  intros Hx Hy. unfold gridPoint. simpl.
  split; [exists x; reflexivity|]. split; [exists y; reflexivity|].
  assert (B : forall z : Z, (Z.abs z <= 1000)%Z ->
                Examples.EPSILON * Flp.absQ (inject_Z z) < 1).
  { intros z Hz. unfold Flp.absQ.
    assert (inject_Z z <= 1000 /\ -(1000) <= inject_Z z) as [U L].
    { change 1000 with (inject_Z 1000).
      rewrite <- inject_Z_opp, <- !Zle_Qle. lia. }
    unfold Examples.EPSILON. tests; lra. }
  split; apply B; assumption.
Qed.

(** ** The equality of numbers *)

(** The tests respect the equality of numbers. *)
Lemma Qle_bool_wd (x x' y y' : Q) :
  x == x' -> y == y' -> Qle_bool x y = Qle_bool x' y'.
Proof. intros -> ->. reflexivity. Qed.

Lemma absQ_wd (x x' : Q) : x == x' -> Flp.absQ x == Flp.absQ x'.
Proof.
  intros H. unfold Flp.absQ. rewrite (Qle_bool_wd 0 0 x x') by (reflexivity || assumption).
  destruct (Qle_bool 0 x'); rewrite H; reflexivity.
Qed.

Lemma maxQ_wd (x x' y y' : Q) :
  x == x' -> y == y' -> Flp.maxQ x y == Flp.maxQ x' y'.
Proof.
  intros H H'. unfold Flp.maxQ. rewrite (Qle_bool_wd x x' y y') by assumption.
  destruct (Qle_bool x' y'); assumption.
Qed.

Lemma minQ_wd (x x' y y' : Q) :
  x == x' -> y == y' -> Flp.minQ x y == Flp.minQ x' y'.
Proof.
  intros H H'. unfold Flp.minQ. rewrite (Qle_bool_wd x x' y y') by assumption.
  destruct (Qle_bool x' y'); assumption.
Qed.

Lemma maxQ_comm (x y : Q) : Flp.maxQ x y == Flp.maxQ y x.
Proof. unfold Flp.maxQ. tests; lra. Qed.

Lemma minQ_comm (x y : Q) : Flp.minQ x y == Flp.minQ y x.
Proof. unfold Flp.minQ. tests; lra. Qed.

Lemma flpEQ_wd (eps x x' y y' : Q) :
  x == x' -> y == y' -> Flp.flpEQ eps x y = Flp.flpEQ eps x' y'.
Proof.
  intros H H'. unfold Flp.flpEQ. apply Qle_bool_wd.
  - apply absQ_wd. rewrite H, H'. reflexivity.
  - apply Qmult_comp; [reflexivity|].
    apply maxQ_wd; [apply maxQ_wd; [reflexivity|]|]; now apply absQ_wd.
Qed.

Lemma flpLT_wd (eps x x' y y' : Q) :
  x == x' -> y == y' -> Flp.flpLT eps x y = Flp.flpLT eps x' y'.
Proof.
  intros H H'. unfold Flp.flpLT, Flp.Qlt_bool.
  now rewrite (Qle_bool_wd y y' x x'), (flpEQ_wd eps x x' y y').
Qed.

Lemma flpCompare_wd (eps x x' y y' : Q) :
  x == x' -> y == y' -> Flp.flpCompare eps x y = Flp.flpCompare eps x' y'.
Proof.
  intros H H'. unfold Flp.flpCompare, Flp.Qlt_bool.
  now rewrite (Qle_bool_wd y y' x x'), (flpEQ_wd eps x x' y y').
Qed.

Lemma arePointsEqual_wd (eps : Q) (p p' q q' : Point) :
  pointEq p p' -> pointEq q q' ->
  arePointsEqual eps p q = arePointsEqual eps p' q'.
Proof.
  intros [Hx Hy] [Hx' Hy']. unfold arePointsEqual.
  now rewrite (flpEQ_wd eps (fst p) (fst p') (fst q) (fst q')),
              (flpEQ_wd eps (snd p) (snd p') (snd q) (snd q')).
Qed.

Lemma pointEq_refl (p : Point) : pointEq p p.
Proof. split; reflexivity. Qed.

Lemma pointEq_sym (p q : Point) : pointEq p q -> pointEq q p.
Proof. intros [H H']. split; symmetry; assumption. Qed.

Lemma isAnEndpoint_wd (eps : Q) (s : Segment.Segment) (p p' : Point) :
  pointEq p p' -> Segment.isAnEndpoint eps s p = Segment.isAnEndpoint eps s p'.
Proof.
  intros H. unfold Segment.isAnEndpoint, Segment.points. simpl.
  now rewrite !(arePointsEqual_wd eps _ _ p p' (pointEq_refl _) H).
Qed.

Lemma compareVectorAngles_wd (eps : Q) (p p' a b : Point) :
  pointEq p p' ->
  Vector.compareVectorAngles eps p a b = Vector.compareVectorAngles eps p' a b.
Proof.
  intros [Hx Hy]. unfold Vector.compareVectorAngles.
  apply flpCompare_wd; [|reflexivity].
  unfold Vector.crossProduct. simpl. rewrite Hx, Hy. reflexivity.
Qed.

Lemma isPointColinear_wd (eps : Q) (s : Segment.Segment) (p p' : Point) :
  pointEq p p' ->
  Segment.isPointColinear eps s p = Segment.isPointColinear eps s p'.
Proof.
  intros H. unfold Segment.isPointColinear.
  now rewrite (isAnEndpoint_wd eps s p p' H),
              (compareVectorAngles_wd eps p p' _ _ H).
Qed.

Lemma isInBbox_wd (eps : Q) (box : Bbox.Bbox) (p p' : Point) :
  pointEq p p' -> Bbox.isInBbox eps box p = Bbox.isInBbox eps box p'.
Proof.
  intros [Hx Hy]. destruct box as [[xmin ymin] [xmax ymax]]. simpl.
  rewrite (flpLT_wd eps (fst p) (fst p') xmin xmin),
          (flpLT_wd eps xmax xmax (fst p) (fst p')),
          (flpLT_wd eps (snd p) (snd p') ymin ymin),
          (flpLT_wd eps ymax ymax (snd p) (snd p'));
    (reflexivity || assumption).
Qed.

Lemma isPointOn_wd (eps : Q) (s : Segment.Segment) (p p' : Point) :
  pointEq p p' -> Segment.isPointOn eps s p = Segment.isPointOn eps s p'.
Proof.
  intros H. unfold Segment.isPointOn.
  now rewrite (isInBbox_wd eps _ p p' H), (isPointColinear_wd eps s p p' H).
Qed.

(** ** Arrays without repeats *)

Lemma uniq_aux_elem {A} `{EqDecision A} (seen l : list A) (x : A) :
  x ∈ uniq_aux seen l <-> x ∈ l /\ x ∉ seen.
Proof.
  revert seen. induction l as [|y l IH]; intros seen; simpl.
  - split; [intros H'; inversion H'|intros [H' _]; inversion H'].
  - destruct (bool_decide_reflect (y ∈ seen)) as [S|S].
    + rewrite IH, elem_of_cons. split; [tauto|].
      intros [[->|Hx] N]; tauto.
    + rewrite elem_of_cons, IH, !elem_of_cons. split.
      * intros [->|[Hx N]]; [tauto|]. split; [tauto|]. tauto.
      * intros [[->|Hx] N]; [tauto|].
        destruct (decide (x = y)) as [->|D]; [tauto|]. right. split; tauto.
Qed.

Lemma uniq_elem {A} `{EqDecision A} (l : list A) (x : A) :
  x ∈ uniq l <-> x ∈ l.
Proof.
  unfold uniq. rewrite uniq_aux_elem. split; [tauto|].
  intros Hx. split; [assumption|]. apply not_elem_of_nil.
Qed.

(** ** Registration of [prev] and of coincident segments *)

(** After [registerPrev] the receiver has the new [prev] and an empty
    cache. *)
Lemma registerPrev_spec (h : Segment.Heap) (this : nat)
    (other : option nat) (s : Segment.Segment) :
  Segment.segments h !! this = Some s ->
  exists h',
    Segment.registerPrev this other h = Return (tt, h') /\
    Segment.segments h' !! this
      = Some (Segment.set_cache Segment.emptyCache
                (Segment.set_prev other s)) /\
    (forall i, i <> this ->
               Segment.segments h' !! i = Segment.segments h !! i) /\
    Segment.arrays h' = Segment.arrays h.
Proof.
  intros Hs. unfold Segment.registerPrev, Segment._clearCache, Segment.bind,
    Segment.modifySegment.
  rewrite Hs. simpl. rewrite lookup_insert_eq. eexists. split; [reflexivity|].
  simpl. rewrite insert_insert_eq, lookup_insert_eq.
  split; [reflexivity|]. split; [|reflexivity].
  intros i Hi. now rewrite lookup_insert_ne.
Qed.

(** After [registerCoincidence] the receiver and its argument refer to one
    new array, which holds the union of their two arrays; the receiver's
    cache is empty, the argument's cache is as it was, and no other segment
    is touched: the array the receiver referred to before has grown in
    place, the one the argument referred to is unchanged. *)
Lemma registerCoincidence_spec (h : Segment.Heap) (this other : nat)
    (s o : Segment.Segment) (mine theirs : list nat) :
  this <> other ->
  Segment.segments h !! this = Some s ->
  Segment.segments h !! other = Some o ->
  Segment.arrays h !! Segment.coincidents s = Some mine ->
  Segment.arrays h !! Segment.coincidents o = Some theirs ->
  exists h',
    Segment.registerCoincidence this other h = Return (tt, h') /\
    Segment.segments h' !! this
      = Some (Segment.set_cache Segment.emptyCache
                (Segment.set_coincidents (Segment.nextArray h) s)) /\
    Segment.segments h' !! other
      = Some (Segment.set_coincidents (Segment.nextArray h) o) /\
    (forall i, i <> this -> i <> other ->
               Segment.segments h' !! i = Segment.segments h !! i) /\
    Segment.arrays h' !! Segment.nextArray h = Some (uniq (mine ++ theirs)) /\
    (forall x, x ∈ uniq (mine ++ theirs) <-> x ∈ mine \/ x ∈ theirs) /\
    (forall r, r <> Segment.nextArray h -> r <> Segment.coincidents s ->
               Segment.arrays h' !! r = Segment.arrays h !! r).
Proof.
  intros Hne Hs Ho Hm Ht.
  unfold Segment.registerCoincidence, Segment._clearCache, Segment.bind,
    Segment.getSegment, Segment.getArray, Segment.setArray, Segment.newArray,
    Segment.modifySegment.
  rewrite Hs, Ho, Hm, Ht. simpl. rewrite Hs. simpl.
  rewrite lookup_insert_ne, Ho by assumption. simpl.
  rewrite (lookup_insert_ne _ other this) by congruence.
  rewrite lookup_insert_eq. simpl.
  eexists. split; [reflexivity|]. simpl.
  split; [now rewrite lookup_insert_eq|].
  split; [rewrite lookup_insert_ne by congruence;
          now rewrite lookup_insert_eq|].
  split; [intros i H1 H2; now rewrite !lookup_insert_ne by congruence|].
  split; [now rewrite lookup_insert_eq|].
  split; [intros x; now rewrite uniq_elem, elem_of_app|].
  intros r H1 H2. now rewrite !lookup_insert_ne by congruence.
Qed.

(** C7 at the failing input.  Three segments on the same two points are
    registered as the sweep meets them, each with the one below it.  The
    first segment belongs to the coincidents of the third, and yet its own
    coincidents is another array, with other contents: the third segment is
    missing from it. *)
Theorem registerCoincidence_leaves_members_behind :
  exists h s0 s2,
    Examples.threeCoincident Segment.emptyHeap = Return (tt, h) /\
    Segment.segments h !! 0%nat = Some s0 /\
    Segment.segments h !! 2%nat = Some s2 /\
    Segment.getCoincidents 2 h = Return ([2; 1; 0]%nat, h) /\
    Segment.getCoincidents 0 h = Return ([1; 0]%nat, h) /\
    Segment.coincidents s0 <> Segment.coincidents s2.
Proof.
  do 3 eexists. split; [vm_compute; reflexivity|].
  split; [vm_compute; reflexivity|]. split; [vm_compute; reflexivity|].
  split; [vm_compute; reflexivity|]. split; [vm_compute; reflexivity|].
  vm_compute. discriminate.
Qed.

(** ** The cache *)

(** C6 at the failing inputs.  First: the argument of [registerCoincidence]
    gets a new [coincidents] and keeps its cache; its [ringsOnEdgeOf], read
    before, still answers the one ring it had, where the method computes
    two.  Second: [split] gives the receiver a new right end and leaves its
    cache as it was. *)
Theorem cache_kept_by_argument_and_by_split :
  (exists h s1,
     Examples.readThenRegister Segment.emptyHeap
       = Return ([Examples.ring2], h) /\
     Segment.segments h !! 1%nat = Some s1 /\
     Segment.c_ringsOnEdgeOf (Segment._cache s1) = Some [Examples.ring2] /\
     Segment._ringsOnEdgeOf 1 h
       = Return ([Examples.ring1; Examples.ring2], h)) /\
  (exists events h s0,
     Examples.readThenSplit Segment.emptyHeap = Return (events, h) /\
     Segment.segments h !! 0%nat = Some s0 /\
     SweepEvent.point (Segment.rightSE s0) = (1, 0) /\
     Segment.c_ringsOnEdgeOf (Segment._cache s0) = Some [Examples.ring1] /\
     Segment._cache s0 <> Segment.emptyCache).
Proof.
  split.
  - do 2 eexists. split; [vm_compute; reflexivity|].
    split; [vm_compute; reflexivity|]. split; vm_compute; reflexivity.
  - do 3 eexists. split; [vm_compute; reflexivity|].
    split; [vm_compute; reflexivity|]. split; [vm_compute; reflexivity|].
    split; [vm_compute; reflexivity|]. vm_compute. discriminate.
Qed.

(** ** Inclusion in the result *)

(** C4. Under INTERSECTION, a segment that is the winner of its coincidents
    is in the result exactly when the larger of the two arrays
    [multiPolysSLPEnters] and [multiPolysSLPExits] has as many multipolys as
    the operation has operands. *)
Theorem isInResult_intersection
    (operation : Operation.Operation)
    (ring_isValid :
       Ring.Ring -> list Ring.Ring -> list Ring.Ring -> list Ring.Ring -> bool)
    (poly_isInside : Poly.Poly -> list Ring.Ring -> list Ring.Ring -> bool)
    (fuel this : nat) (h h1 h2 h3 : Segment.Heap)
    (enters exits : list MultiPoly.MultiPoly) :
  Operation.type operation = Operation.INTERSECTION ->
  Segment.isCoincidenceWinner this h = Return (true, h1) ->
  Segment.multiPolysSLPEnters ring_isValid poly_isInside fuel this h1
    = Return (enters, h2) ->
  Segment.multiPolysSLPExits ring_isValid poly_isInside fuel this h2
    = Return (exits, h3) ->
  exists included,
    Segment._isInResult operation ring_isValid poly_isInside fuel this h
      = Return (included, h3) /\
    (included = true <->
     Nat.max (length enters) (length exits)
       = length (Operation.multiPolys operation)).
Proof.
  intros Hop Hw Hen Hex.
  unfold Segment._isInResult, Segment.bind at 1. rewrite Hw. simpl.
  rewrite Hop. unfold Segment.bind at 1. rewrite Hen.
  unfold Segment.bind at 1. rewrite Hex.
  eexists. split; [reflexivity|]. apply Nat.eqb_eq.
Qed.

Lemma isInResult_intersection_witness :
  exists h3 included,
    Segment._isInResult Examples.intersectionOp Examples.alwaysValid
      Examples.alwaysInside 2 0 Examples.twoCoincident
      = Return (included, h3) /\
    (included = true <->
     Nat.max (length [Examples.clippingMP; Examples.subjectMP])
       (length (@nil MultiPoly.MultiPoly))
       = length (Operation.multiPolys Examples.intersectionOp)).
Proof.
  eexists.
  eapply (isInResult_intersection Examples.intersectionOp
            Examples.alwaysValid Examples.alwaysInside 2 0
            Examples.twoCoincident).
  - reflexivity.
  - vm_compute. reflexivity.
  - vm_compute. reflexivity.
  - vm_compute. reflexivity.
Defined.

(** ** The winner of a coincidence class *)

Lemma bind_Return {A B} (c : Segment.M A) (k : A -> Segment.M B)
    (h h' : Segment.Heap) (a : A) :
  c h = Return (a, h') -> Segment.bind c k h = k a h'.
Proof. intros H. unfold Segment.bind. now rewrite H. Qed.

Lemma ringInOf_eval (h : Segment.Heap) (seg : nat) (s : Segment.Segment) :
  Segment.segments h !! seg = Some s ->
  Segment.ringInOf seg h = Return (Segment.ringIn s, h).
Proof.
  intros Hs. unfold Segment.ringInOf, Segment.bind, Segment.getSegment.
  now rewrite Hs.
Qed.

Lemma getCoincidents_eval (h : Segment.Heap) (seg : nat)
    (s : Segment.Segment) (arr : list nat) :
  Segment.segments h !! seg = Some s ->
  Segment.arrays h !! Segment.coincidents s = Some arr ->
  Segment.getCoincidents seg h = Return (arr, h).
Proof.
  intros Hs Ha.
  unfold Segment.getCoincidents, Segment.bind, Segment.getSegment,
    Segment.getArray.
  now rewrite Hs, Ha.
Qed.

Lemma mapM_ringIds (h : Segment.Heap) (arr : list nat) :
  (forall x, x ∈ arr -> is_Some (Segment.segments h !! x)) ->
  Segment.mapM
    (fun seg => Segment.bind (Segment.ringInOf seg)
                  (fun r => Segment.ret (Ring.id r))) arr h
  = Return (map (ringIdOf h) arr, h).
Proof.
  induction arr as [|x arr IH]; intros Hall; simpl; [reflexivity|].
  destruct (Hall x) as [s Hs]; [left|].
  erewrite bind_Return;
    [|erewrite bind_Return;
       [reflexivity|eapply ringInOf_eval; eassumption]].
  erewrite bind_Return;
    [|apply IH; intros y Hy; apply Hall; now right].
  unfold Segment.ret. f_equal. f_equal. f_equal.
  unfold ringIdOf. now rewrite Hs.
Qed.

Lemma fold_min_le (rest : list Z) (i : Z) :
  (fold_left Z.min rest i <= i)%Z /\
  (forall x, x ∈ rest -> (fold_left Z.min rest i <= x)%Z).
Proof.
  revert i. induction rest as [|y rest IH]; intros i; simpl.
  - split; [lia|]. intros x Hx. inversion Hx.
  - destruct (IH (Z.min i y)) as [H1 H2]. split; [lia|].
    intros x Hx. apply elem_of_cons in Hx as [->|Hx]; [lia|]. now apply H2.
Qed.

Lemma fold_min_elem (rest : list Z) (i : Z) :
  fold_left Z.min rest i ∈ i :: rest.
Proof.
  revert i. induction rest as [|y rest IH]; intros i; simpl; [left|].
  specialize (IH (Z.min i y)). apply elem_of_cons in IH as [E|E].
  - rewrite E. destruct (Z.min_spec i y) as [[_ ->]|[_ ->]];
      [left|right; left].
  - right. now right.
Qed.

Lemma minimizer (f : nat -> Z) (l : list nat) :
  l <> [] -> exists w, w ∈ l /\ forall c, c ∈ l -> (f w <= f c)%Z.
Proof.
  induction l as [|x l IH]; [congruence|]. intros _.
  destruct l as [|y l].
  - exists x. split; [left|]. intros c Hc.
    apply elem_of_cons in Hc as [->|Hc]; [lia|inversion Hc].
  - destruct IH as [w [Hw Hmin]]; [congruence|].
    destruct (Z_le_gt_dec (f x) (f w)) as [L|G].
    + exists x. split; [left|]. intros c Hc.
      apply elem_of_cons in Hc as [->|Hc]; [lia|].
      specialize (Hmin c Hc). lia.
    + exists w. split; [now right|]. intros c Hc.
      apply elem_of_cons in Hc as [->|Hc]; [lia|]. now apply Hmin.
Qed.

(** What [isCoincidenceWinner] answers for a member of a class: whether
    the id of its ring is the least of the class. *)
Lemma isCoincidenceWinner_in_class (h : Segment.Heap) (cls : list nat)
    (w c : nat) :
  coincidenceClass h cls ->
  w ∈ cls -> (forall x, x ∈ cls -> (ringIdOf h w <= ringIdOf h x)%Z) ->
  c ∈ cls ->
  Segment.isCoincidenceWinner c h
    = Return ((ringIdOf h c =? ringIdOf h w)%Z, h).
Proof.
  intros (Hne & Hshare & Hdist) Hw Hmin Hc.
  destruct (Hshare c Hc) as (s & arr & Hs & Harr & Hsame).
  assert (Hall : forall x, x ∈ arr -> is_Some (Segment.segments h !! x)).
  { intros x Hx. apply Hsame in Hx.
    destruct (Hshare x Hx) as (sx & _ & Hsx & _). now exists sx. }
  unfold Segment.isCoincidenceWinner.
  erewrite bind_Return; [|now apply (getCoincidents_eval h c s arr)].
  erewrite bind_Return; [|now apply mapM_ringIds].
  erewrite bind_Return; [|eapply ringInOf_eval; eassumption].
  unfold Segment.ret.
  assert (Hid : Ring.id (Segment.ringIn s) = ringIdOf h c).
  { unfold ringIdOf. now rewrite Hs. }
  rewrite Hid.
  destruct arr as [|i rest].
  { exfalso. apply Hsame in Hw. inversion Hw. }
  simpl map. cbv iota.
  set (m := fold_left Z.min (map (ringIdOf h) rest) (ringIdOf h i)).
  assert (Hm : m = ringIdOf h w).
  { pose proof (fold_min_elem (map (ringIdOf h) rest) (ringIdOf h i)) as E.
    pose proof (fold_min_le (map (ringIdOf h) rest) (ringIdOf h i)) as [L1 L2].
    fold m in E, L1, L2.
    change (ringIdOf h i :: map (ringIdOf h) rest)
      with (map (ringIdOf h) (i :: rest)) in E.
    apply list_elem_of_fmap in E as [y [Ey Hy]].
    assert (Hwm : (m <= ringIdOf h w)%Z).
    { apply Hsame in Hw. apply elem_of_cons in Hw as [->|Hw]; [exact L1|].
      apply L2. apply list_elem_of_fmap. now exists w. }
    apply Hsame in Hy. specialize (Hmin y Hy). lia. }
  rewrite Hm. reflexivity.
Qed.

(** Where every member of a set of segments holds exactly that set in its
    [coincidents], and the rings have pairwise distinct ids, exactly one
    member is the winner, the one whose ring id is the least; for every
    other member [_isInResult] answers false, whatever the operation, and
    so does the getter [isInResult] when its slot of the cache is not
    set. *)
Lemma one_winner_per_class (h : Segment.Heap) (cls : list nat) :
  coincidenceClass h cls ->
  exists w,
    w ∈ cls /\
    (forall c, c ∈ cls -> (ringIdOf h w <= ringIdOf h c)%Z) /\
    Segment.isCoincidenceWinner w h = Return (true, h) /\
    (forall c, c ∈ cls -> c <> w ->
       Segment.isCoincidenceWinner c h = Return (false, h) /\
       forall operation ring_isValid poly_isInside fuel,
         Segment._isInResult operation ring_isValid poly_isInside fuel c h
           = Return (false, h) /\
         forall s, Segment.segments h !! c = Some s ->
           Segment.c_isInResult (Segment._cache s) = None ->
           exists h',
             Segment.isInResult operation ring_isValid poly_isInside fuel c h
               = Return (false, h')).
Proof.
  intros Hcls. pose proof Hcls as (Hne & Hshare & Hdist).
  destruct (minimizer (ringIdOf h) cls Hne) as [w [Hw Hmin]].
  exists w. split; [assumption|]. split; [assumption|].
  split.
  - rewrite (isCoincidenceWinner_in_class h cls w w Hcls Hw Hmin Hw).
    now rewrite Z.eqb_refl.
  - intros c Hc Hcw.
    assert (E : Segment.isCoincidenceWinner c h = Return (false, h)).
    { rewrite (isCoincidenceWinner_in_class h cls w c Hcls Hw Hmin Hc).
      destruct (Z.eqb_spec (ringIdOf h c) (ringIdOf h w)) as [E|E];
        [|reflexivity].
      exfalso. apply Hcw. now apply Hdist. }
    split; [exact E|]. intros operation ring_isValid poly_isInside fuel.
    assert (R : Segment._isInResult operation ring_isValid poly_isInside
                  fuel c h = Return (false, h)).
    { unfold Segment._isInResult. erewrite bind_Return; [|exact E].
      reflexivity. }
    split; [exact R|]. intros s Hs Hslot.
    unfold Segment.isInResult, Segment._getCached.
    erewrite bind_Return;
      [|unfold Segment.getSegment; rewrite Hs; reflexivity].
    rewrite Hslot. erewrite bind_Return; [|exact R].
    unfold Segment.bind, Segment.modifySegment. rewrite Hs.
    eexists. reflexivity.
Qed.


(** ** Splitting *)

Lemma insert_sorted_length {A} (cmp : A -> A -> Z) (x : A) (l : list A) :
  length (insert_sorted cmp x l) = S (length l).
Proof.
  induction l as [|y l IH]; simpl; [reflexivity|].
  destruct (0 <? cmp y x)%Z; simpl; [reflexivity|]. now rewrite IH.
Qed.

Lemma sort_length {A} (cmp : A -> A -> Z) (l : list A) :
  length (sort cmp l) = length l.
Proof.
  unfold sort.
  assert (G : forall acc,
             length (fold_left (fun acc x => insert_sorted cmp x acc) l acc)
             = (length l + length acc)%nat).
  { induction l as [|x l IH]; intros acc; simpl; [reflexivity|].
    rewrite IH, insert_sorted_length. lia. }
  rewrite G. simpl. lia.
Qed.

Lemma dropRepeats_length (eps : Q) (before : Point) (pts : list Point) :
  (length (Segment.dropRepeats eps before pts) <= length pts)%nat.
Proof.
  revert before. induction pts as [|pt rest IH]; intros before; simpl;
    [lia|].
  destruct (SweepEvent.comparePoints eps before pt =? 0)%Z; simpl;
    specialize (IH pt); lia.
Qed.

Lemma sortedUnique_length (eps : Q) (pts : list Point) :
  (length (Segment.sortedUnique eps pts) <= length pts)%nat.
Proof.
  unfold Segment.sortedUnique.
  pose proof (sort_length (SweepEvent.comparePoints eps) pts) as L.
  destruct (sort (SweepEvent.comparePoints eps) pts) as [|pt rest];
    simpl in *; [lia|].
  pose proof (dropRepeats_length eps pt rest). lia.
Qed.

Lemma bind_ext {A B} (c : Segment.M A) (k k' : A -> Segment.M B)
    (h : Segment.Heap) :
  (forall a h', k a h' = k' a h') -> Segment.bind c k h = Segment.bind c k' h.
Proof.
  intros E. unfold Segment.bind. destruct (c h) as [[a h']| |]; auto.
Qed.

Lemma splitLoop_fuel_any (eps : Q) (fuel : nat) :
  forall (fuel' this : nat) (pts : list Point) (h : Segment.Heap),
    (length pts < fuel)%nat -> (length pts < fuel')%nat ->
    Segment.splitLoop eps fuel this pts h
    = Segment.splitLoop eps fuel' this pts h.
Proof.
  induction fuel as [|fuel IH]; intros fuel' this pts h Hlen Hlen'; [lia|].
  destruct fuel' as [|fuel']; [lia|]. simpl.
  apply bind_ext. intros s h1.
  destruct (existsb (Segment.isAnEndpoint eps s)
              (Segment.sortedUnique eps pts)); [reflexivity|].
  pose proof (sortedUnique_length eps pts) as L.
  destruct (Segment.sortedUnique eps pts) as [|pt rest]; [reflexivity|].
  simpl in L.
  repeat (apply bind_ext; intros).
  destruct (0 <? length rest)%nat; [|reflexivity].
  unfold Segment.bind. rewrite (IH fuel') by lia. reflexivity.
Qed.

(** The recursion of [split] never runs out of the fuel that [split] gives
    it: more fuel changes nothing. *)
Lemma splitLoop_fuel (eps : Q) (fuel this : nat) (pts : list Point)
    (h : Segment.Heap) :
  (length pts < fuel)%nat ->
  Segment.splitLoop eps fuel this pts h = Segment.split eps this pts h.
Proof.
  intros Hlen. unfold Segment.split. apply splitLoop_fuel_any; lia.
Qed.

(** What [split] does to the segments that were in the heap: the receiver
    keeps its cache, its [coincidents], its [prev] and its left end, and no
    other segment is touched. *)
Lemma splitLoop_frame (eps : Q) (fuel : nat) :
  forall (this : nat) (pts : list Point) (h h' : Segment.Heap)
         (events : list SweepEvent.SweepEvent) (s : Segment.Segment),
    Segment.splitLoop eps fuel this pts h = Return (events, h') ->
    Segment.segments h !! this = Some s ->
    (this < Segment.nextSegment h)%nat ->
    (exists s',
       Segment.segments h' !! this = Some s' /\
       Segment._cache s' = Segment._cache s /\
       Segment.coincidents s' = Segment.coincidents s /\
       Segment.prev s' = Segment.prev s /\
       Segment.leftSE s' = Segment.leftSE s) /\
    (forall i, i <> this -> (i < Segment.nextSegment h)%nat ->
               Segment.segments h' !! i = Segment.segments h !! i) /\
    (Segment.nextSegment h <= Segment.nextSegment h')%nat.
Proof.
  induction fuel as [|fuel IH]; intros this pts h h' events s Hrun Hs Hlt;
    [discriminate Hrun|].
  simpl in Hrun. unfold Segment.bind at 1 in Hrun.
  unfold Segment.getSegment at 1 in Hrun. rewrite Hs in Hrun.
  destruct (existsb (Segment.isAnEndpoint eps s)
              (Segment.sortedUnique eps pts)); [discriminate Hrun|].
  destruct (Segment.sortedUnique eps pts) as [|pt rest];
    [discriminate Hrun|].
  unfold Segment.bind at 1, Segment.clone, Segment.bind at 1,
    Segment.getSegment at 1 in Hrun.
  rewrite Hs in Hrun. unfold Segment.constructor in Hrun.
  destruct (arePointsEqual eps (SweepEvent.point (Segment.leftSE s))
              (SweepEvent.point (Segment.rightSE s)));
    [discriminate Hrun|].
  rewrite sort_two in Hrun.
  assert (Hne : this <> Segment.nextSegment h) by lia.
  destruct (0 <? SweepEvent.comparePoints eps
                   (SweepEvent.point (Segment.leftSE s))
                   (SweepEvent.point (Segment.rightSE s)))%Z;
    unfold Segment.bind, Segment.newSweepEvent, Segment.modifySegment,
      Segment.ret in Hrun;
    simpl in Hrun;
    rewrite ?lookup_insert_eq in Hrun; simpl in Hrun;
    rewrite ?lookup_insert_eq in Hrun; simpl in Hrun;
    rewrite ?insert_insert_eq in Hrun;
    rewrite (lookup_insert_ne _ (Segment.nextSegment h) this) in Hrun
      by congruence;
    rewrite Hs in Hrun; simpl in Hrun.
  all: destruct (0 <? length rest)%nat.
  all: lazymatch type of Hrun with
       | match Segment.splitLoop _ _ _ _ ?h1 with _ => _ end = _ =>
         destruct (Segment.splitLoop eps fuel (Segment.nextSegment h) rest h1)
           as [[more h2]| |] eqn:Hrec; [|discriminate Hrun..];
         injection Hrun as Hev Hh; subst events h';
         eapply IH in Hrec;
           [|simpl; rewrite lookup_insert_ne by congruence;
             apply lookup_insert_eq
            |simpl; lia];
         destruct Hrec as (_ & Hframe & Hnext);
         simpl in Hframe, Hnext;
         split; [|split; [|lia]];
         [ rewrite (Hframe this) by lia;
           rewrite lookup_insert_eq; eexists; split; [reflexivity|];
           simpl; auto
         | intros i Hi Hi'; rewrite (Hframe i) by lia;
           rewrite !lookup_insert_ne by lia; reflexivity ]
       | _ =>
         injection Hrun as Hev Hh; subst events h'; simpl;
         split; [|split; [|lia]];
         [ rewrite lookup_insert_eq; eexists; split; [reflexivity|];
           simpl; auto
         | intros i Hi Hi'; rewrite !lookup_insert_ne by lia; reflexivity ]
       end.
Qed.

(** [split] leaves the cache of its receiver as it was. *)
Lemma split_keeps_cache (eps : Q) (this : nat) (pts : list Point)
    (h h' : Segment.Heap) (events : list SweepEvent.SweepEvent)
    (s : Segment.Segment) :
  Segment.split eps this pts h = Return (events, h') ->
  Segment.segments h !! this = Some s ->
  (this < Segment.nextSegment h)%nat ->
  exists s',
    Segment.segments h' !! this = Some s' /\
    Segment._cache s' = Segment._cache s.
Proof.
  intros Hrun Hs Hlt.
  destruct (splitLoop_frame eps _ _ _ _ _ _ _ Hrun Hs Hlt)
    as [(s' & Hs' & Hc & _) _].
  now exists s'.
Qed.

(** * Further properties of the segment code *)

(** ** Points and segments *)

Lemma flpLT_lt (eps x y : Q) : Flp.flpLT eps x y = true -> x < y.
Proof.
  unfold Flp.flpLT, Flp.Qlt_bool. intros H.
  apply andb_true_iff in H as [H _]. apply negb_true_iff in H.
  now apply Qle_bool_false.
Qed.

Lemma flpLT_asym (eps x y : Q) :
  Flp.flpLT eps x y = true -> Flp.flpLT eps y x = false.
Proof.
  intros H. apply flpLT_lt in H.
  destruct (Flp.flpLT eps y x) eqn:E; [|reflexivity].
  apply flpLT_lt in E. lra.
Qed.

Lemma flpLT_ge (eps x y : Q) : y <= x -> Flp.flpLT eps x y = false.
Proof.
  intros H. destruct (Flp.flpLT eps x y) eqn:E; [|reflexivity].
  apply flpLT_lt in E. lra.
Qed.

Lemma arePointsEqual_refl (eps : Q) (p : Point) :
  0 <= eps -> arePointsEqual eps p p = true.
Proof.
  intros H. unfold arePointsEqual. now rewrite !flpEQ_refl.
Qed.

(** X1.  A point is below a segment, colinear with it or above it, and
    exactly one of the three: an endpoint counts as colinear, whatever the
    cross product says. *)
Theorem point_side_trichotomy (eps : Q) (s : Segment.Segment) (pt : Point) :
  (Segment.isPointBelow eps s pt = true /\
   Segment.isPointColinear eps s pt = false /\
   Segment.isPointAbove eps s pt = false) \/
  (Segment.isPointBelow eps s pt = false /\
   Segment.isPointColinear eps s pt = true /\
   Segment.isPointAbove eps s pt = false) \/
  (Segment.isPointBelow eps s pt = false /\
   Segment.isPointColinear eps s pt = false /\
   Segment.isPointAbove eps s pt = true).
Proof.
  unfold Segment.isPointBelow, Segment.isPointColinear, Segment.isPointAbove,
    Vector.compareVectorAngles.
  destruct (Segment.isAnEndpoint eps s pt); simpl; [tauto|].
  match goal with
  | |- context [Flp.flpCompare eps ?c 0] =>
    destruct (flpCompare_range eps c 0) as [E|[E|E]]; rewrite E
  end; simpl; tauto.
Qed.

(** A segment that is well formed has no tolerantly equal endpoints, and
    its right end is not strictly left of its left end. *)
Lemma wellFormed_ends (eps : Q) (s : Segment.Segment) :
  0 <= eps -> wellFormed eps s ->
  arePointsEqual eps (SweepEvent.point (Segment.leftSE s))
    (SweepEvent.point (Segment.rightSE s)) = false /\
  Flp.flpLT eps (fst (SweepEvent.point (Segment.rightSE s)))
    (fst (SweepEvent.point (Segment.leftSE s))) = false.
Proof.
  intros Heps W. unfold wellFormed in W. split.
  - destruct (arePointsEqual eps _ _) eqn:E; [|reflexivity].
    apply comparePoints_zero in E. rewrite E in W. discriminate.
  - destruct (Flp.flpLT eps _ _) eqn:E; [|reflexivity].
    apply flpLT_compare in E.
    rewrite flpCompare_antisym in E by assumption.
    unfold SweepEvent.comparePoints in W.
    destruct (flpCompare_range eps
                (fst (SweepEvent.point (Segment.leftSE s)))
                (fst (SweepEvent.point (Segment.rightSE s))))
      as [C|[C|C]]; rewrite C in *; simpl in *; lia || discriminate.
Qed.

(** X2.  Both ends of a well-formed segment are endpoints of it and lie on
    it, under any tolerance: they are inside its bounding box and count as
    colinear. *)
Theorem endpoints_are_on_segment (eps : Q) (s : Segment.Segment) :
  0 <= eps -> wellFormed eps s ->
  Segment.isAnEndpoint eps s (SweepEvent.point (Segment.leftSE s)) = true /\
  Segment.isAnEndpoint eps s (SweepEvent.point (Segment.rightSE s)) = true /\
  Segment.isPointOn eps s (SweepEvent.point (Segment.leftSE s)) = true /\
  Segment.isPointOn eps s (SweepEvent.point (Segment.rightSE s)) = true.
Proof.
  intros Heps W. destruct (wellFormed_ends eps s Heps W) as [_ NL].
  assert (EL : Segment.isAnEndpoint eps s
                 (SweepEvent.point (Segment.leftSE s)) = true).
  { unfold Segment.isAnEndpoint, Segment.points. simpl.
    now rewrite arePointsEqual_refl. }
  assert (ER : Segment.isAnEndpoint eps s
                 (SweepEvent.point (Segment.rightSE s)) = true).
  { unfold Segment.isAnEndpoint, Segment.points. simpl.
    rewrite (arePointsEqual_refl eps (SweepEvent.point (Segment.rightSE s)))
      by assumption.
    now rewrite !orb_true_r. }
  split; [exact EL|]. split; [exact ER|].
  unfold Segment.isPointOn, Segment.isPointColinear. rewrite EL, ER. simpl.
  rewrite !andb_true_r. unfold Segment.bbox. simpl.
  rewrite NL. unfold Flp.minQ, Flp.maxQ.
  split; repeat (apply andb_true_iff; split); apply negb_true_iff;
    try reflexivity; apply flpLT_ge; tests; lra.
Qed.

Lemma endpoints_are_on_segment_witness :
  Segment.isAnEndpoint Examples.EPSILON Examples.shortTilted
    (SweepEvent.point (Segment.leftSE Examples.shortTilted)) = true /\
  Segment.isAnEndpoint Examples.EPSILON Examples.shortTilted
    (SweepEvent.point (Segment.rightSE Examples.shortTilted)) = true /\
  Segment.isPointOn Examples.EPSILON Examples.shortTilted
    (SweepEvent.point (Segment.leftSE Examples.shortTilted)) = true /\
  Segment.isPointOn Examples.EPSILON Examples.shortTilted
    (SweepEvent.point (Segment.rightSE Examples.shortTilted)) = true.
Proof.
  apply (endpoints_are_on_segment Examples.EPSILON Examples.shortTilted).
  - vm_compute. discriminate.
  - vm_compute. reflexivity.
Defined.

(** X3.  Coincidence is reflexive and symmetric, and two coincident
    segments are colinear with each other, whichever of the two is asked. *)
Theorem coincident_segments (eps : Q) (a b : Segment.Segment) :
  0 <= eps ->
  Segment.isCoincidentWith eps a a = true /\
  Segment.isCoincidentWith eps a b = Segment.isCoincidentWith eps b a /\
  (Segment.isCoincidentWith eps a b = true ->
   Segment.isColinearWith eps a b = true /\
   Segment.isColinearWith eps b a = true).
Proof.
  intros Heps. unfold Segment.isCoincidentWith. split.
  { now rewrite !arePointsEqual_refl. }
  split.
  { now rewrite (arePointsEqual_sym eps (SweepEvent.point (Segment.leftSE a))),
      (arePointsEqual_sym eps (SweepEvent.point (Segment.rightSE a))). }
  intros H. apply andb_true_iff in H as [L R].
  unfold Segment.isColinearWith, Segment.isPointColinear,
    Segment.isAnEndpoint, Segment.points. simpl.
  rewrite L, R.
  rewrite (arePointsEqual_sym eps (SweepEvent.point (Segment.leftSE b))
             (SweepEvent.point (Segment.leftSE a))), L.
  rewrite (arePointsEqual_sym eps (SweepEvent.point (Segment.rightSE b))
             (SweepEvent.point (Segment.rightSE a))), R.
  simpl. now rewrite !orb_true_r.
Qed.

Lemma coincident_segments_witness :
  Segment.isCoincidentWith Examples.EPSILON Examples.longFlat
    Examples.longFlat = true /\
  Segment.isCoincidentWith Examples.EPSILON Examples.longFlat
    Examples.shortTilted
  = Segment.isCoincidentWith Examples.EPSILON Examples.shortTilted
      Examples.longFlat /\
  (Segment.isCoincidentWith Examples.EPSILON Examples.longFlat
     Examples.shortTilted = true ->
   Segment.isColinearWith Examples.EPSILON Examples.longFlat
     Examples.shortTilted = true /\
   Segment.isColinearWith Examples.EPSILON Examples.shortTilted
     Examples.longFlat = true).
Proof.
  apply (coincident_segments Examples.EPSILON Examples.longFlat
           Examples.shortTilted).
  vm_compute. discriminate.
Defined.

(** ** The order of segments, continued *)

(** X4.  [compare] answers 0 for a segment and itself only: on two distinct
    segments it answers 1 or -1 whenever it returns. *)
Theorem compare_zero_only_on_itself (eps : Q) (a b : Segment.Segment)
    (r : Z) :
  Segment.compare eps a b = Return r ->
  (r = 0%Z <-> Segment.sid a = Segment.sid b) /\
  (r = 0%Z \/ r = 1%Z \/ r = (-1)%Z).
Proof.
  unfold Segment.compare.
  destruct (Nat.eqb_spec (Segment.sid a) (Segment.sid b)) as [E|E].
  { intros [= <-]. tauto. }
  cbv zeta. intros H.
  assert (R : r = 1%Z \/ r = (-1)%Z).
  { revert H.
    destruct (Flp.flpLT eps _ _); [intros [= <-]; auto|].
    destruct (Flp.flpLT eps _ _); [intros [= <-]; auto|].
    destruct (Segment.isColinearWith eps a b).
    - destruct (flpCompare_range eps
                  (fst (SweepEvent.point (Segment.leftSE a)))
                  (fst (SweepEvent.point (Segment.leftSE b))))
        as [C|[C|C]]; rewrite C; simpl; try (intros [= <-]; auto).
      destruct (Ring.id (Segment.ringIn a) =? Ring.id (Segment.ringIn b))%Z;
        simpl; [discriminate|].
      destruct (Ring.id (Segment.ringIn a) <? Ring.id (Segment.ringIn b))%Z;
        intros [= <-]; auto.
    - unfold arePointsEqual.
      destruct (Flp.flpEQ eps (fst (SweepEvent.point (Segment.leftSE a)))
                  (fst (SweepEvent.point (Segment.leftSE b)))) eqn:EX.
      + destruct (Flp.flpEQ eps (snd (SweepEvent.point (Segment.leftSE a)))
                    (snd (SweepEvent.point (Segment.leftSE b)))) eqn:EY;
          simpl.
        * destruct (Segment.isPointBelow eps a _); intros [= <-]; auto.
        * apply flpCompare_zero in EX. rewrite EX. simpl.
          intros [= <-].
          destruct (flpCompare_range eps
                      (snd (SweepEvent.point (Segment.leftSE a)))
                      (snd (SweepEvent.point (Segment.leftSE b))))
            as [C|[C|C]]; auto.
          apply flpCompare_zero in C. congruence.
      + simpl.
        destruct (Flp.flpCompare eps _ _ =? 0)%Z eqn:CZ.
        * apply Z.eqb_eq, flpCompare_zero in CZ. congruence.
        * destruct (Flp.flpLT eps _ _);
            [destruct (Segment.isPointBelow eps a _); intros [= <-]; auto|].
          destruct (Flp.flpLT eps _ _);
            [destruct (Segment.isPointBelow eps b _); intros [= <-]; auto|].
          discriminate. }
  split; [|tauto]. split; [lia|]. intros; contradiction.
Qed.

Lemma compare_zero_only_on_itself_witness :
  (1%Z = 0%Z <->
   Segment.sid Examples.rightOne = Segment.sid Examples.leftOne) /\
  (1%Z = 0%Z \/ 1%Z = 1%Z \/ 1%Z = (-1)%Z).
Proof.
  apply (compare_zero_only_on_itself Examples.EPSILON Examples.rightOne
           Examples.leftOne 1).
  vm_compute. reflexivity.
Defined.

(** X5.  [compare] throws in one situation only: two distinct segments that
    are not apart in x, are colinear, have tolerantly equal left x and come
    from rings of the same id. *)
Theorem compare_throws_iff (eps : Q) (a b : Segment.Segment) :
  0 <= eps ->
  (exists e, Segment.compare eps a b = Throw e) <->
  Segment.sid a <> Segment.sid b /\
  Flp.flpLT eps (fst (SweepEvent.point (Segment.rightSE b)))
    (fst (SweepEvent.point (Segment.leftSE a))) = false /\
  Flp.flpLT eps (fst (SweepEvent.point (Segment.rightSE a)))
    (fst (SweepEvent.point (Segment.leftSE b))) = false /\
  Segment.isColinearWith eps a b = true /\
  Flp.flpEQ eps (fst (SweepEvent.point (Segment.leftSE a)))
    (fst (SweepEvent.point (Segment.leftSE b))) = true /\
  Ring.id (Segment.ringIn a) = Ring.id (Segment.ringIn b).
Proof.
  intros Heps. unfold Segment.compare.
  destruct (Nat.eqb_spec (Segment.sid a) (Segment.sid b)) as [E|E].
  { split; [intros [e H]; discriminate|tauto]. }
  cbv zeta.
  destruct (Flp.flpLT eps (fst (SweepEvent.point (Segment.rightSE b))) _).
  { split; [intros [e H]; discriminate|intros (_ & H & _); discriminate]. }
  destruct (Flp.flpLT eps (fst (SweepEvent.point (Segment.rightSE a))) _).
  { split; [intros [e H]; discriminate|intros (_ & _ & H & _); discriminate]. }
  destruct (Segment.isColinearWith eps a b).
  - destruct (Flp.flpEQ eps _ _) eqn:EX.
    + apply flpCompare_zero in EX. rewrite EX. simpl.
      destruct (Z.eqb_spec (Ring.id (Segment.ringIn a))
                  (Ring.id (Segment.ringIn b))) as [I|I]; simpl.
      * split; [tauto|]. intros _. now exists ComparisonFailed.
      * split; [intros [e H]; discriminate|tauto].
    + destruct (Flp.flpCompare eps _ _ =? 0)%Z eqn:CZ.
      { apply Z.eqb_eq, flpCompare_zero in CZ. congruence. }
      simpl. split; [intros [e H]; discriminate|].
      intros (_ & _ & _ & _ & H & _). discriminate.
  - split; [|intros (_ & _ & _ & H & _); discriminate].
    intros [e H]. exfalso. revert H.
    destruct (arePointsEqual eps _ _); [discriminate|].
    destruct (Flp.flpCompare eps _ _ =? 0)%Z eqn:CZ; [discriminate|].
    apply Z.eqb_neq in CZ.
    destruct (Flp.flpLT eps (fst (SweepEvent.point (Segment.leftSE a))) _)
      eqn:L1; [discriminate|].
    destruct (Flp.flpLT eps (fst (SweepEvent.point (Segment.leftSE b))) _)
      eqn:L2; [discriminate|].
    exfalso. apply CZ.
    destruct (flpCompare_range eps
                (fst (SweepEvent.point (Segment.leftSE a)))
                (fst (SweepEvent.point (Segment.leftSE b))))
      as [C|[C|C]]; [|assumption|].
    + apply flpLT_compare in C. congruence.
    + pose proof (flpCompare_antisym eps
                    (fst (SweepEvent.point (Segment.leftSE a)))
                    (fst (SweepEvent.point (Segment.leftSE b))) Heps) as C'.
      rewrite C in C'. apply flpLT_compare in C'. congruence.
Qed.

Lemma compare_throws_iff_witness :
  (exists e, Segment.compare Examples.EPSILON Examples.longFlat
               MoreExamples.shortFlat = Throw e) <->
  Segment.sid Examples.longFlat <> Segment.sid MoreExamples.shortFlat /\
  Flp.flpLT Examples.EPSILON
    (fst (SweepEvent.point (Segment.rightSE MoreExamples.shortFlat)))
    (fst (SweepEvent.point (Segment.leftSE Examples.longFlat))) = false /\
  Flp.flpLT Examples.EPSILON
    (fst (SweepEvent.point (Segment.rightSE Examples.longFlat)))
    (fst (SweepEvent.point (Segment.leftSE MoreExamples.shortFlat))) = false /\
  Segment.isColinearWith Examples.EPSILON Examples.longFlat
    MoreExamples.shortFlat = true /\
  Flp.flpEQ Examples.EPSILON
    (fst (SweepEvent.point (Segment.leftSE Examples.longFlat)))
    (fst (SweepEvent.point (Segment.leftSE MoreExamples.shortFlat))) = true /\
  Ring.id (Segment.ringIn Examples.longFlat)
    = Ring.id (Segment.ringIn MoreExamples.shortFlat).
Proof.
  apply (compare_throws_iff Examples.EPSILON Examples.longFlat
           MoreExamples.shortFlat).
  vm_compute. discriminate.
Defined.

Example compare_throws_on_same_ring :
  Segment.compare Examples.EPSILON Examples.longFlat MoreExamples.shortFlat
    = Throw ComparisonFailed.
Proof. vm_compute. reflexivity. Qed.

(** ** Construction, continued *)

(** X6.  The constructor does not depend on the order in which the two
    points are given: the same segment is built, or the same error thrown. *)
Theorem constructor_order_irrelevant (eps : Q) (point1 point2 : Point)
    (ring : Ring.Ring) (h : Segment.Heap) :
  0 <= eps ->
  Segment.constructor eps point1 point2 ring h
  = Segment.constructor eps point2 point1 ring h.
Proof.
  intros Heps. unfold Segment.constructor.
  rewrite (arePointsEqual_sym eps point2 point1).
  destruct (arePointsEqual eps point1 point2) eqn:EQ; [reflexivity|].
  rewrite !sort_two.
  rewrite (comparePoints_antisym eps point1 point2 Heps).
  assert (NZ : SweepEvent.comparePoints eps point1 point2 <> 0%Z).
  { rewrite comparePoints_zero. congruence. }
  destruct (comparePoints_range eps point1 point2) as [E|[E|E]];
    rewrite E in *; simpl; congruence.
Qed.

Lemma constructor_order_irrelevant_witness :
  Segment.constructor Examples.EPSILON (3, 0) (2, 0) Examples.ring1
    Segment.emptyHeap
  = Segment.constructor Examples.EPSILON (2, 0) (3, 0) Examples.ring1
      Segment.emptyHeap.
Proof.
  apply (constructor_order_irrelevant Examples.EPSILON (3, 0) (2, 0)
           Examples.ring1 Segment.emptyHeap).
  vm_compute. discriminate.
Defined.

(** X7.  [clone] of a well-formed segment builds a new segment on the same
    two points and of the same ring, and copies nothing else: the clone has
    no [prev], no [ringOut], an empty cache, events of its own and a
    [coincidents] that holds the clone alone; the segments and arrays that
    were in the heap are as they were. *)
Theorem clone_copies_geometry_only (eps : Q) (this : nat)
    (s : Segment.Segment) (h : Segment.Heap) :
  0 <= eps -> wellFormed eps s ->
  Segment.segments h !! this = Some s ->
  exists h',
    Segment.clone eps this h = Return (Segment.nextSegment h, h') /\
    Segment.segments h' !! Segment.nextSegment h
      = Some (Segment.mkSegment (Segment.nextSegment h) (Segment.ringIn s)
                None
                (SweepEvent.mkSweepEvent (Segment.nextEvent h)
                   (SweepEvent.point (Segment.leftSE s))
                   (Segment.nextSegment h))
                (SweepEvent.mkSweepEvent (S (Segment.nextEvent h))
                   (SweepEvent.point (Segment.rightSE s))
                   (Segment.nextSegment h))
                None (Segment.nextArray h) Segment.emptyCache) /\
    Segment.arrays h' !! Segment.nextArray h = Some [Segment.nextSegment h] /\
    (forall i, i <> Segment.nextSegment h ->
               Segment.segments h' !! i = Segment.segments h !! i) /\
    (forall r, r <> Segment.nextArray h ->
               Segment.arrays h' !! r = Segment.arrays h !! r).
Proof.
  intros Heps W Hs. destruct (wellFormed_ends eps s Heps W) as [NE _].
  unfold Segment.clone, Segment.bind, Segment.getSegment. rewrite Hs.
  unfold Segment.constructor. rewrite NE, sort_two.
  unfold wellFormed in W. rewrite W. simpl.
  eexists. split; [reflexivity|]. simpl.
  split; [now rewrite lookup_insert_eq|].
  split; [now rewrite lookup_insert_eq|].
  split; intros i Hi; now rewrite lookup_insert_ne by congruence.
Qed.

Lemma clone_copies_geometry_only_witness :
  exists h',
    Segment.clone Examples.EPSILON 0 MoreExamples.oneSegment
      = Return (Segment.nextSegment MoreExamples.oneSegment, h') /\
    Segment.segments h' !! Segment.nextSegment MoreExamples.oneSegment
      = Some (Segment.mkSegment (Segment.nextSegment MoreExamples.oneSegment)
                (Segment.ringIn MoreExamples.flat) None
                (SweepEvent.mkSweepEvent
                   (Segment.nextEvent MoreExamples.oneSegment)
                   (SweepEvent.point (Segment.leftSE MoreExamples.flat))
                   (Segment.nextSegment MoreExamples.oneSegment))
                (SweepEvent.mkSweepEvent
                   (S (Segment.nextEvent MoreExamples.oneSegment))
                   (SweepEvent.point (Segment.rightSE MoreExamples.flat))
                   (Segment.nextSegment MoreExamples.oneSegment))
                None (Segment.nextArray MoreExamples.oneSegment)
                Segment.emptyCache) /\
    Segment.arrays h' !! Segment.nextArray MoreExamples.oneSegment
      = Some [Segment.nextSegment MoreExamples.oneSegment] /\
    (forall i, i <> Segment.nextSegment MoreExamples.oneSegment ->
               Segment.segments h' !! i
               = Segment.segments MoreExamples.oneSegment !! i) /\
    (forall r, r <> Segment.nextArray MoreExamples.oneSegment ->
               Segment.arrays h' !! r
               = Segment.arrays MoreExamples.oneSegment !! r).
Proof.
  apply (clone_copies_geometry_only Examples.EPSILON 0 MoreExamples.flat
           MoreExamples.oneSegment).
  - vm_compute. discriminate.
  - vm_compute. reflexivity.
  - vm_compute. reflexivity.
Defined.

(** ** Splitting, continued *)

(** One step of [split] on a receiver [s] with distinct ends, none of the
    points being an endpoint: the heap becomes [splitOnce], and the two new
    events are returned before those of the further steps. *)
Lemma splitLoop_step (eps : Q) (fuel this : nat) (pts : list Point)
    (h : Segment.Heap) (s : Segment.Segment) (pt : Point)
    (rest : list Point) :
  Segment.segments h !! this = Some s ->
  this <> Segment.nextSegment h ->
  arePointsEqual eps (SweepEvent.point (Segment.leftSE s))
    (SweepEvent.point (Segment.rightSE s)) = false ->
  Segment.sortedUnique eps pts = pt :: rest ->
  existsb (Segment.isAnEndpoint eps s) (pt :: rest) = false ->
  Segment.splitLoop eps (S fuel) this pts h
  = let newRight :=
      SweepEvent.mkSweepEvent (S (S (S (Segment.nextEvent h)))) pt this in
    let newLeft :=
      SweepEvent.mkSweepEvent (S (S (Segment.nextEvent h))) pt
        (Segment.nextSegment h) in
    if (0 <? length rest)%nat then
      Segment.bind (Segment.splitLoop eps fuel (Segment.nextSegment h) rest)
        (fun more => Segment.ret ([newRight; newLeft] ++ more))
        (splitOnce h this s pt)
    else Return ([newRight; newLeft], splitOnce h this s pt).
Proof.
  intros Hs Hne NE SU EX. simpl.
  unfold Segment.bind at 1, Segment.getSegment at 1. rewrite Hs, SU, EX.
  unfold Segment.bind at 1, Segment.clone, Segment.bind at 1,
    Segment.getSegment at 1.
  rewrite Hs. unfold Segment.constructor. rewrite NE, sort_two.
  destruct (0 <? SweepEvent.comparePoints eps _ _)%Z;
    unfold Segment.bind, Segment.newSweepEvent, Segment.modifySegment,
      Segment.ret;
    simpl;
    rewrite ?lookup_insert_eq; simpl;
    rewrite ?lookup_insert_eq; simpl;
    rewrite ?insert_insert_eq;
    rewrite (lookup_insert_ne _ (Segment.nextSegment h) this) by congruence;
    rewrite Hs; simpl;
    unfold splitOnce; destruct (0 <? length rest)%nat; reflexivity.
Qed.

(** ** The heap stays well formed *)

Lemma emptyHeap_wf : heapWF Segment.emptyHeap.
Proof.
  split; [|split]; simpl.
  - intros i s H. rewrite lookup_empty in H. discriminate.
  - intros r arr H. rewrite lookup_empty in H. discriminate.
  - intros i j s t H. rewrite lookup_empty in H. discriminate.
Qed.

(** A segment that was in order stays in order when the heap grows: more
    events, the segments it knew still there, its array still there with at
    least what it held. *)
Lemma segmentOK_grow (h h' : Segment.Heap) (i : nat) (s : Segment.Segment) :
  segmentOK h i s ->
  (Segment.nextEvent h <= Segment.nextEvent h')%nat ->
  (forall p, is_Some (Segment.segments h !! p) ->
             is_Some (Segment.segments h' !! p)) ->
  (forall arr, Segment.arrays h !! Segment.coincidents s = Some arr ->
     exists arr', Segment.arrays h' !! Segment.coincidents s = Some arr' /\
                  forall x, x ∈ arr -> x ∈ arr') ->
  segmentOK h' i s.
Proof.
  intros (S1 & S2 & S3 & S4 & S5 & S6 & S7 & arr & S8 & S9) Hev Hseg Harr.
  repeat split; auto; try lia.
  destruct (Harr arr S8) as (arr' & A1 & A2). exists arr'. auto.
Qed.

Lemma constructor_wf (eps : Q) (point1 point2 : Point) (ring : Ring.Ring)
    (h h' : Segment.Heap) (this : nat) :
  heapWF h ->
  Segment.constructor eps point1 point2 ring h = Return (this, h') ->
  heapWF h'.
Proof.
  intros (W1 & W2 & W3). unfold Segment.constructor.
  destruct (arePointsEqual eps point1 point2); [discriminate|].
  rewrite sort_two.
  assert (G : forall lp rp,
    heapWF
      (Segment.mkHeap
         (<[Segment.nextSegment h :=
              Segment.mkSegment (Segment.nextSegment h) ring None
                (SweepEvent.mkSweepEvent (Segment.nextEvent h) lp
                   (Segment.nextSegment h))
                (SweepEvent.mkSweepEvent (S (Segment.nextEvent h)) rp
                   (Segment.nextSegment h))
                None (Segment.nextArray h) Segment.emptyCache]>
            (Segment.segments h))
         (<[Segment.nextArray h := [Segment.nextSegment h]]>
            (Segment.arrays h))
         (S (Segment.nextSegment h)) (S (Segment.nextArray h))
         (S (S (Segment.nextEvent h))))).
  { intros lp rp.
    assert (Old : forall p, is_Some (Segment.segments h !! p) ->
                            p <> Segment.nextSegment h).
    { intros p [sp Hp]. destruct (W1 p sp Hp). lia. }
    split; [|split]; simpl.
    - intros i s Hi.
      destruct (decide (i = Segment.nextSegment h)) as [->|Hne].
      + rewrite lookup_insert_eq in Hi. injection Hi as <-.
        split; [lia|]. repeat split; simpl; try lia; try discriminate.
        exists [Segment.nextSegment h]. rewrite lookup_insert_eq.
        split; [reflexivity|left].
      + rewrite lookup_insert_ne in Hi by congruence.
        destruct (W1 i s Hi) as [Hlt OK]. split; [lia|].
        apply (segmentOK_grow h); simpl; auto.
        * intros p Hp. rewrite lookup_insert_ne; auto.
          intros E. symmetry in E. now apply Old in E.
        * intros arr Ha. exists arr. split; [|auto].
          rewrite lookup_insert_ne; auto.
          destruct (W2 _ _ Ha). lia.
    - intros r arr Hr.
      destruct (decide (r = Segment.nextArray h)) as [->|Hne].
      + rewrite lookup_insert_eq in Hr. injection Hr as <-.
        split; [lia|]. intros x Hx. apply list_elem_of_singleton in Hx.
        subst x. rewrite lookup_insert_eq. eauto.
      + rewrite lookup_insert_ne in Hr by congruence.
        destruct (W2 r arr Hr) as [Hlt Hall]. split; [lia|].
        intros x Hx. specialize (Hall x Hx).
        rewrite lookup_insert_ne; auto.
        intros E. symmetry in E. now apply Old in E.
    - intros i j s t Hi Hj Hij.
      destruct (decide (i = Segment.nextSegment h)) as [->|Hi'];
        destruct (decide (j = Segment.nextSegment h)) as [->|Hj'];
        [congruence| | |].
      + rewrite lookup_insert_eq in Hi. injection Hi as <-.
        rewrite lookup_insert_ne in Hj by congruence.
        destruct (W1 j t Hj) as [_ (_ & _ & _ & E1 & E2 & _)].
        repeat split; simpl; lia.
      + rewrite lookup_insert_eq in Hj. injection Hj as <-.
        rewrite lookup_insert_ne in Hi by congruence.
        destruct (W1 i s Hi) as [_ (_ & _ & _ & E1 & E2 & _)].
        repeat split; simpl; lia.
      + rewrite lookup_insert_ne in Hi, Hj by congruence.
        now apply (W3 i j). }
  destruct (0 <? SweepEvent.comparePoints eps point1 point2)%Z;
    intros [= <- <-]; apply G.
Qed.

(** A heap that differs from a well-formed one in bookkeeping only (the
    same segments with the same identities and events) is well formed as
    soon as its references are in order. *)
Lemma heapWF_same_events (h h' : Segment.Heap) :
  heapWF h ->
  Segment.nextSegment h = Segment.nextSegment h' ->
  (Segment.nextEvent h <= Segment.nextEvent h')%nat ->
  (forall i s', Segment.segments h' !! i = Some s' ->
     exists s,
       Segment.segments h !! i = Some s /\
       Segment.sid s' = Segment.sid s /\
       Segment.leftSE s' = Segment.leftSE s /\
       Segment.rightSE s' = Segment.rightSE s /\
       (forall p, Segment.prev s' = Some p ->
                  is_Some (Segment.segments h' !! p)) /\
       exists arr', Segment.arrays h' !! Segment.coincidents s' = Some arr' /\
                    i ∈ arr') ->
  (forall r arr, Segment.arrays h' !! r = Some arr ->
     (r < Segment.nextArray h')%nat /\
     forall x, x ∈ arr -> is_Some (Segment.segments h' !! x)) ->
  heapWF h'.
Proof.
  intros (W1 & W2 & W3) Hns Hne Hseg Harr.
  split; [|split]; auto.
  - intros i s' Hi.
    destruct (Hseg i s' Hi) as (s & Hs & E1 & E2 & E3 & P & A).
    destruct (W1 i s Hs) as [Hlt (S1 & S2 & S3 & S4 & S5 & S6 & _)].
    split; [lia|]. unfold segmentOK. rewrite E1, E2, E3.
    repeat split; auto; lia.
  - intros i j s' t' Hi Hj Hij.
    destruct (Hseg i s' Hi) as (s & Hs & _ & E2 & E3 & _).
    destruct (Hseg j t' Hj) as (t & Ht & _ & F2 & F3 & _).
    unfold eventsApart. rewrite E2, E3, F2, F3. now apply (W3 i j).
Qed.

Lemma registerPrev_wf (this : nat) (other : option nat)
    (h h' : Segment.Heap) :
  heapWF h ->
  (forall p, other = Some p -> is_Some (Segment.segments h !! p)) ->
  Segment.registerPrev this other h = Return (tt, h') ->
  heapWF h'.
Proof.
  intros W Hother Hrun. pose proof W as (W1 & W2 & W3).
  unfold Segment.registerPrev, Segment._clearCache, Segment.bind,
    Segment.modifySegment in Hrun.
  destruct (Segment.segments h !! this) as [s|] eqn:Hs; [|discriminate].
  simpl in Hrun. rewrite lookup_insert_eq in Hrun.
  injection Hrun as <-. rewrite insert_insert_eq.
  assert (Dom : forall p, is_Some (Segment.segments h !! p) ->
                  is_Some (<[this := Segment.set_cache Segment.emptyCache
                                       (Segment.set_prev other s)]>
                             (Segment.segments h) !! p)).
  { intros p Hp. destruct (decide (p = this)) as [->|Hn].
    - rewrite lookup_insert_eq. eauto.
    - now rewrite lookup_insert_ne by congruence. }
  apply (heapWF_same_events h); simpl; auto.
  - intros i s' Hi. destruct (decide (i = this)) as [->|Hn].
    + rewrite lookup_insert_eq in Hi. injection Hi as <-.
      exists s. destruct (W1 this s Hs) as [_ (_&_&_&_&_&_&_&arr&A1&A2)].
      simpl. repeat split; auto. exists arr. auto.
    + rewrite lookup_insert_ne in Hi by congruence.
      exists s'. destruct (W1 i s' Hi) as [_ (_&_&_&_&_&_&P&arr&A1&A2)].
      repeat split; auto. exists arr. auto.
  - intros r arr Hr. destruct (W2 r arr Hr) as [Hlt Hall]. split; auto.
Qed.

Lemma registerRingOut_wf (this : nat) (ring : Ring.Ring)
    (h h' : Segment.Heap) :
  heapWF h ->
  Segment.registerRingOut this ring h = Return (tt, h') ->
  heapWF h'.
Proof.
  intros W Hrun. pose proof W as (W1 & W2 & W3).
  unfold Segment.registerRingOut, Segment.modifySegment in Hrun.
  destruct (Segment.segments h !! this) as [s|] eqn:Hs; [|discriminate].
  injection Hrun as <-.
  assert (Dom : forall p, is_Some (Segment.segments h !! p) ->
                  is_Some (<[this := Segment.set_ringOut (Some ring) s]>
                             (Segment.segments h) !! p)).
  { intros p Hp. destruct (decide (p = this)) as [->|Hn].
    - rewrite lookup_insert_eq. eauto.
    - now rewrite lookup_insert_ne by congruence. }
  apply (heapWF_same_events h); simpl; auto.
  - intros i s' Hi. destruct (decide (i = this)) as [->|Hn].
    + rewrite lookup_insert_eq in Hi. injection Hi as <-.
      exists s. destruct (W1 this s Hs) as [_ (_&_&_&_&_&_&P&arr&A1&A2)].
      simpl. repeat split; auto. exists arr. auto.
    + rewrite lookup_insert_ne in Hi by congruence.
      exists s'. destruct (W1 i s' Hi) as [_ (_&_&_&_&_&_&P&arr&A1&A2)].
      repeat split; auto. exists arr. auto.
  - intros r arr Hr. destruct (W2 r arr Hr) as [Hlt Hall]. split; auto.
Qed.

Lemma is_Some_insert {A} (m : gmap nat A) (k p : nat) (v : A) :
  is_Some (m !! p) -> is_Some (<[k := v]> m !! p).
Proof.
  intros Hp. destruct (decide (k = p)) as [->|Hn].
  - rewrite lookup_insert_eq. eauto.
  - now rewrite lookup_insert_ne.
Qed.

Lemma registerCoincidence_wf (this other : nat) (h h' : Segment.Heap) :
  heapWF h ->
  Segment.registerCoincidence this other h = Return (tt, h') ->
  heapWF h'.
Proof.
  intros W Hrun. pose proof W as (W1 & W2 & W3).
  unfold Segment.registerCoincidence, Segment._clearCache, Segment.bind,
    Segment.getSegment, Segment.getArray, Segment.setArray, Segment.newArray,
    Segment.modifySegment in Hrun.
  destruct (Segment.segments h !! this) as [s|] eqn:Hs; [|discriminate].
  destruct (Segment.segments h !! other) as [o|] eqn:Ho; [|discriminate].
  destruct (Segment.arrays h !! Segment.coincidents s) as [mine|] eqn:Hm;
    [|discriminate].
  destruct (Segment.arrays h !! Segment.coincidents o) as [theirs|] eqn:Ht;
    [|discriminate].
  simpl in Hrun. rewrite Hs in Hrun. simpl in Hrun.
  destruct (W1 this s Hs) as [_ (_&_&_&_&_&_&Ps&arrs&As1&As2)].
  destruct (W1 other o Ho) as [_ (_&_&_&_&_&_&Po&arro&Ao1&Ao2)].
  rewrite Hm in As1. injection As1 as <-.
  rewrite Ht in Ao1. injection Ao1 as <-.
  destruct (W2 _ _ Hm) as [Lm Em]. destruct (W2 _ _ Ht) as [Lt Et].
  assert (Arr : forall r arr,
            <[Segment.nextArray h := uniq (mine ++ theirs)]>
              (<[Segment.coincidents s := mine ++ theirs]>
                 (Segment.arrays h)) !! r = Some arr ->
            (r < S (Segment.nextArray h))%nat /\
            forall x, x ∈ arr -> is_Some (Segment.segments h !! x)).
  { intros r arr Hr.
    destruct (decide (r = Segment.nextArray h)) as [->|N1].
    - rewrite lookup_insert_eq in Hr. injection Hr as <-. split; [lia|].
      intros x Hx. apply uniq_elem, elem_of_app in Hx as [Hx|Hx]; auto.
    - rewrite lookup_insert_ne in Hr by congruence.
      destruct (decide (r = Segment.coincidents s)) as [->|N2].
      + rewrite lookup_insert_eq in Hr. injection Hr as <-. split; [lia|].
        intros x Hx. apply elem_of_app in Hx as [Hx|Hx]; auto.
      + rewrite lookup_insert_ne in Hr by congruence.
        destruct (W2 r arr Hr). split; [lia|auto]. }
  assert (Keep : forall i t, i <> this -> i <> other ->
            Segment.segments h !! i = Some t ->
            (forall p, Segment.prev t = Some p ->
                       is_Some (Segment.segments h !! p)) /\
            exists arr',
              <[Segment.nextArray h := uniq (mine ++ theirs)]>
                (<[Segment.coincidents s := mine ++ theirs]>
                   (Segment.arrays h)) !! Segment.coincidents t = Some arr' /\
              i ∈ arr').
  { intros i t N1 N2 Hi.
    destruct (W1 i t Hi) as [_ (_&_&_&_&_&_&P&arr&A1&A2)]. split; [exact P|].
    destruct (W2 _ _ A1) as [Lc _].
    rewrite lookup_insert_ne by lia.
    destruct (decide (Segment.coincidents t = Segment.coincidents s))
      as [E|N3].
    - rewrite E, lookup_insert_eq. eexists. split; [reflexivity|].
      rewrite E, Hm in A1. injection A1 as <-. apply elem_of_app. now left.
    - rewrite lookup_insert_ne by congruence. eauto. }
  assert (New : <[Segment.nextArray h := uniq (mine ++ theirs)]>
                  (<[Segment.coincidents s := mine ++ theirs]>
                     (Segment.arrays h)) !! Segment.nextArray h
                = Some (uniq (mine ++ theirs)))
    by apply lookup_insert_eq.
  destruct (decide (this = other)) as [<-|Hne].
  - rewrite lookup_insert_eq in Hrun. simpl in Hrun.
    rewrite lookup_insert_eq in Hrun. injection Hrun as <-.
    apply (heapWF_same_events h); simpl; auto.
    + intros i s' Hi. rewrite !insert_insert_eq in Hi.
      destruct (decide (i = this)) as [->|Hn].
      * rewrite lookup_insert_eq in Hi. injection Hi as <-.
        exists s. simpl. repeat split; auto.
        -- intros p Hp. repeat apply is_Some_insert. auto.
        -- eexists. split; [exact New|]. apply uniq_elem, elem_of_app. auto.
      * rewrite lookup_insert_ne in Hi by congruence.
        exists s'. destruct (Keep i s' Hn Hn Hi) as [P A].
        repeat split; auto.
        intros p Hp. repeat apply is_Some_insert. auto.
    + intros r arr Hr. destruct (Arr r arr Hr) as [L E]. split; [exact L|].
      intros x Hx. repeat apply is_Some_insert. auto.
  - rewrite lookup_insert_ne in Hrun by congruence. rewrite Ho in Hrun.
    simpl in Hrun. rewrite lookup_insert_ne in Hrun by congruence.
    rewrite lookup_insert_eq in Hrun. injection Hrun as <-.
    apply (heapWF_same_events h); simpl; auto.
    + intros i s' Hi.
      destruct (decide (i = this)) as [->|Hn].
      * rewrite lookup_insert_eq in Hi. injection Hi as <-.
        exists s. simpl. repeat split; auto.
        -- intros p Hp. repeat apply is_Some_insert. auto.
        -- eexists. split; [exact New|]. apply uniq_elem, elem_of_app. auto.
      * rewrite lookup_insert_ne in Hi by congruence.
        destruct (decide (i = other)) as [->|Hn'].
        -- rewrite lookup_insert_eq in Hi. injection Hi as <-.
           exists o. simpl. repeat split; auto.
           ++ intros p Hp. repeat apply is_Some_insert. auto.
           ++ eexists. split; [exact New|].
              apply uniq_elem, elem_of_app. auto.
        -- rewrite !lookup_insert_ne in Hi by congruence.
           exists s'. destruct (Keep i s' Hn Hn' Hi) as [P A].
           repeat split; auto.
           intros p Hp. repeat apply is_Some_insert. auto.
    + intros r arr Hr. destruct (Arr r arr Hr) as [L E]. split; [exact L|].
      intros x Hx. repeat apply is_Some_insert. auto.
Qed.

Lemma eventsApart_sym (s t : Segment.Segment) :
  eventsApart s t -> eventsApart t s.
Proof. intros (A & B & C & D). repeat split; congruence. Qed.

Lemma splitOnce_wf (h : Segment.Heap) (this : nat) (s : Segment.Segment)
    (pt : Point) :
  heapWF h -> Segment.segments h !! this = Some s ->
  heapWF (splitOnce h this s pt).
Proof.
  intros (W1 & W2 & W3) Hs.
  destruct (W1 this s Hs) as [Hlt (S1&S2&S3&S4&S5&S6&S7&arrs&S8&S9)].
  assert (Hne : this <> Segment.nextSegment h) by lia.
  assert (Old : forall p, is_Some (Segment.segments h !! p) ->
                          p <> Segment.nextSegment h).
  { intros p [sp Hp]. destruct (W1 p sp Hp). lia. }
  assert (OldArr : forall t i, Segment.segments h !! i = Some t ->
            Segment.nextArray h <> Segment.coincidents t).
  { intros t i Hi. destruct (W1 i t Hi) as [_ (_&_&_&_&_&_&_&arr&A1&_)].
    destruct (W2 _ _ A1). lia. }
  unfold splitOnce. split; [|split]; simpl.
  - intros i s' Hi. destruct (decide (i = this)) as [->|N1].
    + rewrite lookup_insert_eq in Hi. injection Hi as <-.
      split; [lia|]. repeat split; simpl; auto; try lia.
      * intros p Hp. repeat apply is_Some_insert. auto.
      * exists arrs. rewrite lookup_insert_ne by (eapply OldArr; eauto).
        auto.
    + rewrite lookup_insert_ne in Hi by congruence.
      destruct (decide (i = Segment.nextSegment h)) as [->|N2].
      * rewrite lookup_insert_eq in Hi. injection Hi as <-.
        split; [lia|]. repeat split; simpl; auto; try lia; try discriminate.
        exists [Segment.nextSegment h]. rewrite lookup_insert_eq.
        split; [reflexivity|left].
      * rewrite lookup_insert_ne in Hi by congruence.
        destruct (W1 i s' Hi) as [Hlt' OK]. split; [lia|].
        apply (segmentOK_grow h); simpl; auto.
        -- intros p Hp. repeat apply is_Some_insert. auto.
        -- intros arr Ha. exists arr.
           rewrite lookup_insert_ne by (eapply OldArr; eauto). auto.
  - intros r arr Hr.
    destruct (decide (r = Segment.nextArray h)) as [->|N].
    + rewrite lookup_insert_eq in Hr. injection Hr as <-. split; [lia|].
      intros x Hx. apply list_elem_of_singleton in Hx. subst x.
      rewrite lookup_insert_ne by congruence. rewrite lookup_insert_eq.
      eauto.
    + rewrite lookup_insert_ne in Hr by congruence.
      destruct (W2 r arr Hr) as [L E]. split; [lia|].
      intros x Hx. repeat apply is_Some_insert. auto.
  - assert (TN : forall t j, j <> this -> j <> Segment.nextSegment h ->
              Segment.segments h !! j = Some t ->
              eventsApart
                (Segment.set_rightSE
                   (SweepEvent.mkSweepEvent
                      (S (S (S (Segment.nextEvent h)))) pt this) s) t /\
              eventsApart
                (Segment.mkSegment (Segment.nextSegment h) (Segment.ringIn s)
                   None
                   (SweepEvent.mkSweepEvent (S (S (Segment.nextEvent h))) pt
                      (Segment.nextSegment h))
                   (SweepEvent.mkSweepEvent
                      (SweepEvent.eid (Segment.rightSE s))
                      (SweepEvent.point (Segment.rightSE s))
                      (Segment.nextSegment h))
                   None (Segment.nextArray h) Segment.emptyCache) t).
    { intros t j N1 N2 Hj.
      destruct (W1 j t Hj) as [_ (_&_&_&T4&T5&_)].
      destruct (W3 this j s t Hs Hj) as (A&B&C&D); [congruence|].
      split; repeat split; simpl; auto; lia. }
    assert (TW : eventsApart
                (Segment.set_rightSE
                   (SweepEvent.mkSweepEvent
                      (S (S (S (Segment.nextEvent h)))) pt this) s)
                (Segment.mkSegment (Segment.nextSegment h) (Segment.ringIn s)
                   None
                   (SweepEvent.mkSweepEvent (S (S (Segment.nextEvent h))) pt
                      (Segment.nextSegment h))
                   (SweepEvent.mkSweepEvent
                      (SweepEvent.eid (Segment.rightSE s))
                      (SweepEvent.point (Segment.rightSE s))
                      (Segment.nextSegment h))
                   None (Segment.nextArray h) Segment.emptyCache)).
    { repeat split; simpl; auto; lia. }
    intros i j s' t' Hi Hj Hij.
    destruct (decide (i = this)) as [->|I1];
      [rewrite lookup_insert_eq in Hi; injection Hi as <-
      |rewrite lookup_insert_ne in Hi by congruence;
       destruct (decide (i = Segment.nextSegment h)) as [->|I2];
       [rewrite lookup_insert_eq in Hi; injection Hi as <-
       |rewrite lookup_insert_ne in Hi by congruence]];
    (destruct (decide (j = this)) as [->|J1];
      [rewrite lookup_insert_eq in Hj; injection Hj as <-
      |rewrite lookup_insert_ne in Hj by congruence;
       destruct (decide (j = Segment.nextSegment h)) as [->|J2];
       [rewrite lookup_insert_eq in Hj; injection Hj as <-
       |rewrite lookup_insert_ne in Hj by congruence]]);
    try congruence;
    first
      [ exact TW
      | apply eventsApart_sym; exact TW
      | now destruct (TN t' j J1 J2 Hj) as [A B]
      | apply eventsApart_sym; now destruct (TN s' i I1 I2 Hi) as [A B]
      | now apply (W3 i j) ].
Qed.

Lemma insert_sorted_In {A} (cmp : A -> A -> Z) (x p : A) (l : list A) :
  In p (insert_sorted cmp x l) <-> p = x \/ In p l.
Proof.
  induction l as [|y l IH]; simpl; [intuition|].
  destruct (0 <? cmp y x)%Z; simpl; [intuition|]. rewrite IH. intuition.
Qed.

Lemma sort_In {A} (cmp : A -> A -> Z) (p : A) (l : list A) :
  In p (sort cmp l) <-> In p l.
Proof.
  unfold sort.
  assert (G : forall acc,
             In p (fold_left (fun acc x => insert_sorted cmp x acc) l acc)
             <-> In p l \/ In p acc).
  { induction l as [|x l IH]; intros acc; simpl; [intuition|].
    rewrite IH, insert_sorted_In. intuition. }
  rewrite G. simpl. intuition.
Qed.

Lemma dropRepeats_In (eps : Q) (before p : Point) (pts : list Point) :
  In p (Segment.dropRepeats eps before pts) -> In p pts.
Proof.
  revert before. induction pts as [|pt rest IH]; intros before; simpl;
    [auto|].
  destruct (SweepEvent.comparePoints eps before pt =? 0)%Z; simpl.
  - intros H. right. eapply IH; eauto.
  - intros [->|H]; [now left|]. right. eapply IH; eauto.
Qed.

Lemma sortedUnique_In (eps : Q) (p : Point) (pts : list Point) :
  In p (Segment.sortedUnique eps pts) -> In p pts.
Proof.
  unfold Segment.sortedUnique. intros H.
  apply (sort_In (SweepEvent.comparePoints eps)).
  destruct (sort (SweepEvent.comparePoints eps) pts) as [|pt rest];
    [destruct H|].
  destruct H as [->|H]; [now left|]. right. eapply dropRepeats_In; eauto.
Qed.

(** What a run of [split] that returns went through at its first step. *)
Lemma splitLoop_inv (eps : Q) (fuel this : nat) (pts : list Point)
    (h h' : Segment.Heap) (events : list SweepEvent.SweepEvent) :
  Segment.splitLoop eps fuel this pts h = Return (events, h') ->
  exists fuel' s pt rest,
    fuel = S fuel' /\
    Segment.segments h !! this = Some s /\
    arePointsEqual eps (SweepEvent.point (Segment.leftSE s))
      (SweepEvent.point (Segment.rightSE s)) = false /\
    Segment.sortedUnique eps pts = pt :: rest /\
    existsb (Segment.isAnEndpoint eps s) (pt :: rest) = false.
Proof.
  destruct fuel as [|fuel']; [discriminate|]. simpl.
  unfold Segment.bind at 1, Segment.getSegment at 1.
  destruct (Segment.segments h !! this) as [s|] eqn:Hs; [|discriminate].
  destruct (existsb (Segment.isAnEndpoint eps s)
              (Segment.sortedUnique eps pts)) eqn:EX; [discriminate|].
  destruct (Segment.sortedUnique eps pts) as [|pt rest]; [discriminate|].
  unfold Segment.bind at 1, Segment.clone, Segment.bind at 1,
    Segment.getSegment at 1.
  rewrite Hs. unfold Segment.constructor.
  destruct (arePointsEqual eps (SweepEvent.point (Segment.leftSE s))
              (SweepEvent.point (Segment.rightSE s))) eqn:NE;
    [discriminate|].
  intros _. exists fuel', s, pt, rest. auto.
Qed.

Lemma splitLoop_outcome (eps : Q) (fuel : nat) :
  forall (this : nat) (pts : list Point) (h h' : Segment.Heap)
         (events : list SweepEvent.SweepEvent) (s : Segment.Segment),
    Segment.splitLoop eps fuel this pts h = Return (events, h') ->
    Segment.segments h !! this = Some s ->
    (this < Segment.nextSegment h)%nat ->
    exists pt rest,
      Segment.sortedUnique eps pts = pt :: rest /\
      splitOutcome h this s pts pt events h'.
Proof.
  induction fuel as [|fuel IH]; intros this pts h h' events s Hrun Hs Hlt;
    [discriminate Hrun|].
  destruct (splitLoop_inv eps _ _ _ _ _ _ Hrun)
    as (fuel' & s0 & pt & rest & [= <-] & Hs0 & NE & SU & EX).
  rewrite Hs in Hs0. injection Hs0 as <-.
  assert (Hne : this <> Segment.nextSegment h) by lia.
  rewrite (splitLoop_step eps fuel this pts h s pt rest Hs Hne NE SU EX)
    in Hrun.
  cbv zeta in Hrun.
  exists pt, rest. split; [exact SU|].
  pose proof (sortedUnique_length eps pts) as LEN. rewrite SU in LEN.
  simpl in LEN.
  assert (PT : In pt pts).
  { apply (sortedUnique_In eps). rewrite SU. now left. }
  set (n := Segment.nextSegment h) in *.
  assert (L1this : Segment.segments (splitOnce h this s pt) !! this
                   = Some (Segment.set_rightSE
                             (SweepEvent.mkSweepEvent
                                (S (S (S (Segment.nextEvent h)))) pt this) s)).
  { unfold splitOnce. simpl. apply lookup_insert_eq. }
  assert (L1new : Segment.segments (splitOnce h this s pt) !! n
                  = Some (Segment.mkSegment n (Segment.ringIn s) None
                            (SweepEvent.mkSweepEvent
                               (S (S (Segment.nextEvent h))) pt n)
                            (SweepEvent.mkSweepEvent
                               (SweepEvent.eid (Segment.rightSE s))
                               (SweepEvent.point (Segment.rightSE s)) n)
                            None (Segment.nextArray h) Segment.emptyCache)).
  { unfold splitOnce. simpl. rewrite lookup_insert_ne by congruence.
    apply lookup_insert_eq. }
  assert (L1old : forall i, i <> this -> (i < n)%nat ->
            Segment.segments (splitOnce h this s pt) !! i
            = Segment.segments h !! i).
  { intros i Hi Hi'. unfold splitOnce. simpl.
    rewrite !lookup_insert_ne by (congruence || (unfold n in *; lia)).
    reflexivity. }
  assert (A1new : Segment.arrays (splitOnce h this s pt)
                    !! Segment.nextArray h = Some [n]).
  { unfold splitOnce. simpl. apply lookup_insert_eq. }
  assert (A1old : forall r, (r < Segment.nextArray h)%nat ->
            Segment.arrays (splitOnce h this s pt) !! r
            = Segment.arrays h !! r).
  { intros r Hr. unfold splitOnce. simpl.
    rewrite lookup_insert_ne by lia. reflexivity. }
  destruct (0 <? length rest)%nat eqn:Hrest.
  - (* further points *)
    unfold Segment.bind in Hrun.
    destruct (Segment.splitLoop eps fuel n rest (splitOnce h this s pt))
      as [[more h2]| |] eqn:Hrec; [|discriminate..].
    injection Hrun as <- <-.
    destruct (IH n rest _ _ _ _ Hrec L1new) as (pt' & rest' & SU' & OUT).
    { unfold splitOnce. simpl. fold n. lia. }
    unfold splitOutcome in OUT. cbv zeta in OUT.
    destruct OUT as (k & Hk & Nx & Len & Pts & New & Join & Last & Rcv
                     & Oth & Arr & ArrN).
    assert (N1 : Segment.nextSegment (splitOnce h this s pt) = S n)
      by reflexivity.
    assert (NA1 : Segment.nextArray (splitOnce h this s pt)
                  = S (Segment.nextArray h)) by reflexivity.
    rewrite N1 in Nx, New, Join, Last, Oth. rewrite NA1 in Arr, ArrN.
    simpl Segment.ringIn in New.
    unfold splitOutcome. cbv zeta. fold n. exists (S k). split_and!.
    + lia.
    + lia.
    + rewrite Nx. lia.
    + simpl. rewrite Len. lia.
    + intros e [<-|[<-|He]]; simpl; auto.
      apply (sortedUnique_In eps). rewrite SU. right. now apply Pts.
    + intros i Hi. destruct (decide (i = n)) as [->|Hn].
      * eexists. split; [exact Rcv|]. simpl. repeat split; auto.
        rewrite Arr; [exact A1new|lia].
      * destruct (New i) as (t & T1 & T2 & T3 & T4 & T5 & T6); [lia|].
        exists t. repeat split; auto.
    + change (seq n (S k)) with (n :: seq (S n) k). simpl. split; [|exact Join].
      eexists. eexists.
      split; [rewrite Oth by lia; exact L1this|].
      split; [exact Rcv|reflexivity].
    + destruct Last as (t & T1 & T2). exists t.
      replace (n + S k - 1)%nat with (S n + k - 1)%nat by lia.
      simpl in T2. auto.
    + rewrite Oth by lia. exact L1this.
    + intros i Hi Hi'. rewrite Oth by lia. now apply L1old.
    + intros r Hr. rewrite Arr by lia. now apply A1old.
    + lia.
  - (* the last point *)
    injection Hrun as <- <-.
    unfold splitOutcome. cbv zeta. fold n. exists 1%nat. split_and!.
    + lia.
    + lia.
    + unfold splitOnce. simpl. fold n. lia.
    + reflexivity.
    + intros e [<-|[<-|[]]]; simpl; auto.
    + intros i Hi. assert (i = n) as -> by lia.
      eexists. split; [exact L1new|]. simpl. repeat split; auto.
    + simpl. split; [|exact I]. eexists. eexists.
      split; [exact L1this|]. split; [exact L1new|reflexivity].
    + eexists. replace (n + 1 - 1)%nat with n by lia.
      split; [exact L1new|reflexivity].
    + exact L1this.
    + exact L1old.
    + exact A1old.
    + unfold splitOnce. simpl. lia.
Qed.

Lemma splitLoop_wf (eps : Q) (fuel : nat) :
  forall (this : nat) (pts : list Point) (h h' : Segment.Heap)
         (events : list SweepEvent.SweepEvent),
    heapWF h ->
    Segment.splitLoop eps fuel this pts h = Return (events, h') ->
    heapWF h'.
Proof.
  induction fuel as [|fuel IH]; intros this pts h h' events W Hrun;
    [discriminate Hrun|].
  destruct (splitLoop_inv eps _ _ _ _ _ _ Hrun)
    as (fuel' & s & pt & rest & [= <-] & Hs & NE & SU & EX).
  assert (Hne : this <> Segment.nextSegment h).
  { destruct W as (W1 & _). destruct (W1 this s Hs). lia. }
  rewrite (splitLoop_step eps fuel this pts h s pt rest Hs Hne NE SU EX)
    in Hrun.
  cbv zeta in Hrun.
  pose proof (splitOnce_wf h this s pt W Hs) as W'.
  destruct (0 <? length rest)%nat.
  - unfold Segment.bind in Hrun.
    destruct (Segment.splitLoop eps fuel (Segment.nextSegment h) rest
                (splitOnce h this s pt)) as [[more h2]| |] eqn:Hrec;
      [|discriminate..].
    injection Hrun as <- <-. eapply IH; eassumption.
  - injection Hrun as <- <-. exact W'.
Qed.

(** *** The sorted array of [split] on the grid *)

Lemma comparePoints_exact_le (a b : Point) :
  (SweepEvent.comparePoints 0 a b <= 0)%Z <->
  (fst a < fst b \/ (fst a == fst b /\ snd a <= snd b)).
Proof.
  unfold SweepEvent.comparePoints.
  destruct (flpCompare_exact (fst a) (fst b)),
           (flpCompare_exact (snd a) (snd b)); simpl;
    split; intros H; try lia; try lra; auto;
    try (right; split; [assumption|lra]).
Qed.

Lemma comparePoints_exact_lt (a b : Point) :
  (SweepEvent.comparePoints 0 a b < 0)%Z <->
  (fst a < fst b \/ (fst a == fst b /\ snd a < snd b)).
Proof.
  unfold SweepEvent.comparePoints.
  destruct (flpCompare_exact (fst a) (fst b)),
           (flpCompare_exact (snd a) (snd b)); simpl;
    split; intros H; try lia; try lra; auto.
Qed.

Lemma comparePoints_exact_eq (a b : Point) :
  SweepEvent.comparePoints 0 a b = 0%Z <-> pointEq a b.
Proof.
  rewrite comparePoints_zero. unfold pointEq.
  destruct (arePointsEqual_exact a b); intuition discriminate.
Qed.

Section SortedOnGrid.

Variable eps : Q.
Hypothesis eps_nonneg : 0 <= eps.
Hypothesis eps_small : eps < 1.

Let grid := gridPoint eps.
Let cmp := SweepEvent.comparePoints eps.


Lemma cmp_lt_le_trans (a b c : Point) :
  grid a -> grid b -> grid c ->
  (cmp a b < 0)%Z -> (cmp b c <= 0)%Z -> (cmp a c < 0)%Z.
Proof.
  unfold cmp, grid. intros A B C.
  rewrite !(comparePoints_grid eps) by assumption.
  rewrite !comparePoints_exact_lt, comparePoints_exact_le.
  intros [H|[H H']] [K|[K K']]; lra.
Qed.







End SortedOnGrid.





Lemma arePointsEqual_grid_trans (eps : Q) (a b c : Point) :
  0 <= eps -> eps < 1 ->
  gridPoint eps a -> gridPoint eps b -> gridPoint eps c ->
  arePointsEqual eps a b = true -> arePointsEqual eps b c = true ->
  arePointsEqual eps a c = true.
Proof.
  intros E0 E1 A B C.
  rewrite !(arePointsEqual_grid eps) by assumption.
  destruct (arePointsEqual_exact a b) as [[H1 H2]|]; [|discriminate].
  destruct (arePointsEqual_exact b c) as [[K1 K2]|]; [|discriminate].
  destruct (arePointsEqual_exact a c) as [|N]; [reflexivity|].
  exfalso. apply N. split; lra.
Qed.

(** On the grid each point given to [split] is, or equals, a point of the
    array that [split] works on. *)
Lemma dropRepeats_repr (eps : Q) (l : list Point) :
  0 <= eps -> eps < 1 ->
  forall before p,
    Forall (gridPoint eps) (before :: l) -> In p (before :: l) ->
    exists q, In q (before :: Segment.dropRepeats eps before l) /\
              arePointsEqual eps q p = true.
Proof.
  intros E0 E1. induction l as [|x l IH]; intros before p G Hp.
  - destruct Hp as [<-|[]]. exists before. split; [now left|].
    now apply arePointsEqual_refl.
  - inversion G as [|? ? Gb Gl]; subst.
    destruct Hp as [<-|Hp].
    { exists before. split; [now left|]. now apply arePointsEqual_refl. }
    destruct (IH x p Gl Hp) as (q & Hq & Eq).
    simpl Segment.dropRepeats.
    destruct (SweepEvent.comparePoints eps before x =? 0)%Z eqn:T.
    + apply Z.eqb_eq, comparePoints_zero in T.
      destruct Hq as [<-|Hq].
      * exists before. split; [now left|].
        rewrite List.Forall_forall in Gl.
        apply (arePointsEqual_grid_trans eps before x p); auto;
          apply Gl; simpl; auto.
      * exists q. split; [now right|exact Eq].
    + exists q. split; [now right|exact Eq].
Qed.

Lemma sortedUnique_repr (eps : Q) (pts : list Point) (p : Point) :
  0 <= eps -> eps < 1 ->
  Forall (gridPoint eps) pts -> In p pts ->
  exists q, In q (Segment.sortedUnique eps pts) /\
            arePointsEqual eps q p = true.
Proof.
  intros E0 E1 G Hp. unfold Segment.sortedUnique.
  assert (Gs : Forall (gridPoint eps)
                 (sort (SweepEvent.comparePoints eps) pts)).
  { rewrite List.Forall_forall in *. intros q Hq. apply G.
    now apply (sort_In (SweepEvent.comparePoints eps)). }
  apply (sort_In (SweepEvent.comparePoints eps)) in Hp.
  destruct (sort (SweepEvent.comparePoints eps) pts) as [|x r];
    [destruct Hp|].
  now apply dropRepeats_repr.
Qed.

Lemma splitLoop_throws (eps : Q) (fuel this : nat) (pts : list Point)
    (h : Segment.Heap) (s : Segment.Segment) (p : Point) :
  0 <= eps -> eps < 1 ->
  Segment.segments h !! this = Some s ->
  onGrid eps s -> Forall (gridPoint eps) pts ->
  In p pts -> Segment.isAnEndpoint eps s p = true ->
  Segment.splitLoop eps (S fuel) this pts h = Throw SplitOnEndpoint.
Proof.
  intros E0 E1 Hs [GL GR] G Hp EP.
  destruct (sortedUnique_repr eps pts p E0 E1 G Hp) as (q & Hq & Eq).
  assert (Gq : gridPoint eps q).
  { rewrite List.Forall_forall in G. apply G.
    now apply (sortedUnique_In eps). }
  assert (Gp : gridPoint eps p).
  { rewrite List.Forall_forall in G. now apply G. }
  assert (EQ : Segment.isAnEndpoint eps s q = true).
  { unfold Segment.isAnEndpoint, Segment.points in *. simpl in *.
    rewrite orb_false_r in *. apply orb_true_iff in EP as [EP|EP];
      apply orb_true_iff; [left|right];
      (eapply arePointsEqual_grid_trans;
       [exact E0|exact E1| | |exact Gq|exact EP|]);
      try assumption; now rewrite arePointsEqual_sym. }
  simpl. unfold Segment.bind at 1, Segment.getSegment at 1. rewrite Hs.
  assert (EX : existsb (Segment.isAnEndpoint eps s)
                 (Segment.sortedUnique eps pts) = true).
  { apply existsb_exists. eauto. }
  rewrite EX. reflexivity.
Qed.

(** ** Heaps of the examples *)

Lemma heapAfter_constructor_wf (eps : Q) (point1 point2 : Point)
    (ring : Ring.Ring) (h : Segment.Heap) :
  heapWF h ->
  heapWF (MoreExamples.heapAfter (Segment.constructor eps point1 point2 ring)
            h).
Proof.
  intros W. unfold MoreExamples.heapAfter.
  destruct (Segment.constructor eps point1 point2 ring h)
    as [[this h']| |] eqn:E; [|exact W..].
  eapply constructor_wf; eassumption.
Qed.

Lemma oneSegment_wf : heapWF MoreExamples.oneSegment.
Proof. apply heapAfter_constructor_wf, emptyHeap_wf. Qed.

Lemma twoCrossing_wf : heapWF MoreExamples.twoCrossing.
Proof. apply heapAfter_constructor_wf, oneSegment_wf. Qed.

Example twoCrossing_segments :
  Segment.segments MoreExamples.twoCrossing !! 0%nat
    = Some MoreExamples.flat /\
  Segment.segments MoreExamples.twoCrossing !! 1%nat
    = Some MoreExamples.upright.
Proof. split; reflexivity. Qed.

(** ** Events of a segment *)

(** X10.  In a well-formed heap [getOtherSE] takes each event of a segment
    to the other one, and throws on the events of every other segment. *)
Theorem getOtherSE_on_heap (h : Segment.Heap) (i j : nat)
    (s t : Segment.Segment) :
  heapWF h ->
  Segment.segments h !! i = Some s ->
  Segment.segments h !! j = Some t ->
  i <> j ->
  Segment.getOtherSE s (Segment.leftSE s) = Return (Segment.rightSE s) /\
  Segment.getOtherSE s (Segment.rightSE s) = Return (Segment.leftSE s) /\
  Segment.getOtherSE s (Segment.leftSE t) = Throw ForeignSweepEvent /\
  Segment.getOtherSE s (Segment.rightSE t) = Throw ForeignSweepEvent.
Proof.
  intros (W1 & _ & W3) Hs Ht Hij.
  destruct (W1 i s Hs) as [_ (_ & _ & _ & _ & _ & D & _)].
  destruct (W3 i j s t Hs Ht Hij) as (A1 & A2 & A3 & A4).
  unfold Segment.getOtherSE.
  rewrite !Nat.eqb_refl.
  repeat match goal with
  | |- context [(?a =? ?b)%nat] =>
    destruct (Nat.eqb_spec a b); [congruence|]
  end.
  auto.
Qed.

Lemma getOtherSE_on_heap_witness :
  Segment.getOtherSE MoreExamples.flat (Segment.leftSE MoreExamples.flat)
    = Return (Segment.rightSE MoreExamples.flat) /\
  Segment.getOtherSE MoreExamples.flat (Segment.rightSE MoreExamples.flat)
    = Return (Segment.leftSE MoreExamples.flat) /\
  Segment.getOtherSE MoreExamples.flat (Segment.leftSE MoreExamples.upright)
    = Throw ForeignSweepEvent /\
  Segment.getOtherSE MoreExamples.flat (Segment.rightSE MoreExamples.upright)
    = Throw ForeignSweepEvent.
Proof.
  apply (getOtherSE_on_heap MoreExamples.twoCrossing 0 1).
  - exact twoCrossing_wf.
  - reflexivity.
  - reflexivity.
  - lia.
Defined.

(** ** Well-formed heaps *)

(** X11.  The constructor keeps a heap well formed, and what it has built
    can be cloned: [clone] returns, and keeps the heap well formed as well.
    Each new segment takes the next free identity. *)
Theorem constructor_keeps_heap_well_formed (eps : Q) (point1 point2 : Point)
    (ring : Ring.Ring) (h h1 : Segment.Heap) (this : nat) :
  heapWF h ->
  Segment.constructor eps point1 point2 ring h = Return (this, h1) ->
  heapWF h1 /\
  this = Segment.nextSegment h /\
  exists h2,
    Segment.clone eps this h1 = Return (S this, h2) /\ heapWF h2.
Proof.
  intros W C1.
  assert (W1 : heapWF h1) by (eapply constructor_wf; eassumption).
  split; [exact W1|].
  unfold Segment.constructor in C1.
  destruct (arePointsEqual eps point1 point2) eqn:NE; [discriminate|].
  rewrite sort_two in C1.
  assert (G : forall lp rp,
    arePointsEqual eps lp rp = false ->
    Return (Segment.nextSegment h,
            Segment.mkHeap
              (<[Segment.nextSegment h :=
                   Segment.mkSegment (Segment.nextSegment h) ring None
                     (SweepEvent.mkSweepEvent (Segment.nextEvent h) lp
                        (Segment.nextSegment h))
                     (SweepEvent.mkSweepEvent (S (Segment.nextEvent h)) rp
                        (Segment.nextSegment h))
                     None (Segment.nextArray h) Segment.emptyCache]>
                 (Segment.segments h))
              (<[Segment.nextArray h := [Segment.nextSegment h]]>
                 (Segment.arrays h))
              (S (Segment.nextSegment h)) (S (Segment.nextArray h))
              (S (S (Segment.nextEvent h))))
    = Return (this, h1) ->
    this = Segment.nextSegment h /\
    exists h2,
      Segment.clone eps this h1 = Return (S this, h2) /\ heapWF h2).
  { intros lp rp NE' [= <- <-]. split; [reflexivity|].
    destruct (Segment.clone eps (Segment.nextSegment h) _)
      as [[new h2]| |] eqn:C2.
    - exists h2. split.
      + unfold Segment.clone, Segment.bind, Segment.getSegment in C2.
        simpl in C2. rewrite lookup_insert_eq in C2.
        unfold Segment.constructor in C2. simpl in C2.
        rewrite NE', sort_two in C2.
        destruct (0 <? SweepEvent.comparePoints eps lp rp)%Z;
          injection C2 as <- <-; reflexivity.
      + unfold Segment.clone, Segment.bind, Segment.getSegment in C2.
        simpl in C2. rewrite lookup_insert_eq in C2.
        eapply constructor_wf; [|exact C2].
        eapply constructor_wf; [exact W|].
        unfold Segment.constructor. rewrite NE, sort_two. exact C1.
    - exfalso.
      unfold Segment.clone, Segment.bind, Segment.getSegment in C2.
      simpl in C2. rewrite lookup_insert_eq in C2.
      unfold Segment.constructor in C2. simpl in C2.
      rewrite NE', sort_two in C2.
      destruct (0 <? SweepEvent.comparePoints eps lp rp)%Z; discriminate.
    - exfalso.
      unfold Segment.clone, Segment.bind, Segment.getSegment in C2.
      simpl in C2. rewrite lookup_insert_eq in C2.
      unfold Segment.constructor in C2. simpl in C2.
      rewrite NE', sort_two in C2.
      destruct (0 <? SweepEvent.comparePoints eps lp rp)%Z; discriminate. }
  destruct (0 <? SweepEvent.comparePoints eps point1 point2)%Z.
  - apply (G point2 point1); [now rewrite arePointsEqual_sym|exact C1].
  - apply (G point1 point2); [exact NE|exact C1].
Qed.

Lemma constructor_keeps_heap_well_formed_witness :
  heapWF MoreExamples.oneSegment /\
  0%nat = Segment.nextSegment Segment.emptyHeap /\
  exists h2,
    Segment.clone Examples.EPSILON 0 MoreExamples.oneSegment
      = Return (1%nat, h2) /\ heapWF h2.
Proof.
  apply (constructor_keeps_heap_well_formed Examples.EPSILON (0, 0) (4, 0)
           Examples.ring1 Segment.emptyHeap MoreExamples.oneSegment 0).
  - exact emptyHeap_wf.
  - reflexivity.
Defined.

(** X12.  [registerPrev] on a segment of a well-formed heap returns, sets
    [prev], empties the cache of the receiver and touches nothing else; the
    heap stays well formed, as it does under [registerRingOut]. *)
Theorem registerPrev_on_heap (h : Segment.Heap) (this : nat)
    (other : option nat) (ring : Ring.Ring) (s : Segment.Segment) :
  heapWF h ->
  Segment.segments h !! this = Some s ->
  (forall p, other = Some p -> is_Some (Segment.segments h !! p)) ->
  (exists h',
     Segment.registerPrev this other h = Return (tt, h') /\
     heapWF h' /\
     Segment.segments h' !! this
       = Some (Segment.set_cache Segment.emptyCache
                 (Segment.set_prev other s)) /\
     (forall i, i <> this ->
                Segment.segments h' !! i = Segment.segments h !! i) /\
     Segment.arrays h' = Segment.arrays h) /\
  (exists h',
     Segment.registerRingOut this ring h = Return (tt, h') /\
     heapWF h' /\
     Segment.segments h' !! this = Some (Segment.set_ringOut (Some ring) s) /\
     (forall i, i <> this ->
                Segment.segments h' !! i = Segment.segments h !! i) /\
     Segment.arrays h' = Segment.arrays h).
Proof.
  intros W Hs Hother. split.
  - destruct (registerPrev_spec h this other s Hs) as (h' & R & A & B & C).
    exists h'. split; [exact R|]. split; [|auto].
    eapply registerPrev_wf; eassumption.
  - destruct (Segment.registerRingOut this ring h) as [[[] h']| |] eqn:R;
      unfold Segment.registerRingOut, Segment.modifySegment in R;
      rewrite Hs in R; try discriminate.
    exists h'. split; [reflexivity|]. split.
    + eapply registerRingOut_wf; [exact W|].
      unfold Segment.registerRingOut, Segment.modifySegment.
      rewrite Hs. exact R.
    + injection R as <-. simpl. split; [apply lookup_insert_eq|].
      split; [|reflexivity].
      intros i Hi. now rewrite lookup_insert_ne.
Qed.

Lemma registerPrev_on_heap_witness :
  (exists h',
     Segment.registerPrev 1 (Some 0%nat) MoreExamples.twoCrossing
       = Return (tt, h') /\
     heapWF h' /\
     Segment.segments h' !! 1%nat
       = Some (Segment.set_cache Segment.emptyCache
                 (Segment.set_prev (Some 0%nat) MoreExamples.upright)) /\
     (forall i, i <> 1%nat ->
                Segment.segments h' !! i
                = Segment.segments MoreExamples.twoCrossing !! i) /\
     Segment.arrays h' = Segment.arrays MoreExamples.twoCrossing) /\
  (exists h',
     Segment.registerRingOut 1 Examples.ring3 MoreExamples.twoCrossing
       = Return (tt, h') /\
     heapWF h' /\
     Segment.segments h' !! 1%nat
       = Some (Segment.set_ringOut (Some Examples.ring3)
                 MoreExamples.upright) /\
     (forall i, i <> 1%nat ->
                Segment.segments h' !! i
                = Segment.segments MoreExamples.twoCrossing !! i) /\
     Segment.arrays h' = Segment.arrays MoreExamples.twoCrossing).
Proof.
  apply (registerPrev_on_heap MoreExamples.twoCrossing 1 (Some 0%nat)
           Examples.ring3 MoreExamples.upright).
  - exact twoCrossing_wf.
  - reflexivity.
  - intros p [= <-]. vm_compute. eauto.
Defined.

Lemma uniq_aux_NoDup {A} `{EqDecision A} (seen l : list A) :
  NoDup (uniq_aux seen l).
Proof.
  revert seen. induction l as [|x l IH]; intros seen; simpl.
  - constructor.
  - destruct (bool_decide (x ∈ seen)); [apply IH|].
    constructor; [|apply IH].
    rewrite uniq_aux_elem, elem_of_cons. tauto.
Qed.

(** X13.  [registerCoincidence] between two segments of a well-formed heap
    returns and keeps the heap well formed. Afterwards the two segments
    refer to one and the same array, which holds both of them, holds no
    segment twice, and holds exactly the segments of the two arrays they
    referred to before. *)
Theorem registerCoincidence_joins (h : Segment.Heap) (this other : nat)
    (s o : Segment.Segment) :
  heapWF h -> this <> other ->
  Segment.segments h !! this = Some s ->
  Segment.segments h !! other = Some o ->
  exists h' s' o' arr mine theirs,
    Segment.registerCoincidence this other h = Return (tt, h') /\
    heapWF h' /\
    Segment.segments h' !! this = Some s' /\
    Segment.segments h' !! other = Some o' /\
    Segment.coincidents s' = Segment.coincidents o' /\
    Segment.arrays h' !! Segment.coincidents s' = Some arr /\
    Segment.arrays h !! Segment.coincidents s = Some mine /\
    Segment.arrays h !! Segment.coincidents o = Some theirs /\
    this ∈ arr /\ other ∈ arr /\ NoDup arr /\
    (forall x, x ∈ arr <-> x ∈ mine \/ x ∈ theirs).
Proof.
  intros W Hne Hs Ho. pose proof W as (W1 & _ & _).
  destruct (W1 this s Hs) as [_ (_&_&_&_&_&_&_& mine & Hm & Im)].
  destruct (W1 other o Ho) as [_ (_&_&_&_&_&_&_& theirs & Ht & It)].
  destruct (registerCoincidence_spec h this other s o mine theirs
              Hne Hs Ho Hm Ht) as (h' & R & A & B & C & D & E & F).
  exists h', (Segment.set_cache Segment.emptyCache
                (Segment.set_coincidents (Segment.nextArray h) s)),
    (Segment.set_coincidents (Segment.nextArray h) o),
    (uniq (mine ++ theirs)), mine, theirs.
  split; [exact R|].
  split; [eapply registerCoincidence_wf; eassumption|].
  split; [exact A|]. split; [exact B|]. split; [reflexivity|].
  split; [exact D|]. split; [exact Hm|]. split; [exact Ht|].
  split; [apply E; tauto|]. split; [apply E; tauto|].
  split; [apply uniq_aux_NoDup|exact E].
Qed.

Lemma registerCoincidence_joins_witness :
  exists h' s' o' arr mine theirs,
    Segment.registerCoincidence 1 0 MoreExamples.twoCrossing
      = Return (tt, h') /\
    heapWF h' /\
    Segment.segments h' !! 1%nat = Some s' /\
    Segment.segments h' !! 0%nat = Some o' /\
    Segment.coincidents s' = Segment.coincidents o' /\
    Segment.arrays h' !! Segment.coincidents s' = Some arr /\
    Segment.arrays MoreExamples.twoCrossing
      !! Segment.coincidents MoreExamples.upright = Some mine /\
    Segment.arrays MoreExamples.twoCrossing
      !! Segment.coincidents MoreExamples.flat = Some theirs /\
    1%nat ∈ arr /\ 0%nat ∈ arr /\ NoDup arr /\
    (forall x, x ∈ arr <-> x ∈ mine \/ x ∈ theirs).
Proof.
  apply (registerCoincidence_joins MoreExamples.twoCrossing 1 0
           MoreExamples.upright MoreExamples.flat).
  - exact twoCrossing_wf.
  - lia.
  - reflexivity.
  - reflexivity.
Defined.

(** ** Cached properties, continued *)

(** X14.  A cached property is computed once. When a read has returned a
    value that the slot can hold, every later read returns that value and
    leaves the heap as it is, without running the computation: whatever the
    computation would give by then is not looked at. *)
Theorem getCached_computes_once {A} (slot : Segment.Cache -> option A)
    (store : A -> Segment.Cache -> Segment.Cache)
    (calc calc' : Segment.M A) (this : nat) (h h' : Segment.Heap) (v : A) :
  (forall c, slot (store v c) = Some v) ->
  Segment._getCached slot store calc this h = Return (v, h') ->
  Segment._getCached slot store calc' this h' = Return (v, h').
Proof.
  intros LAW. unfold Segment._getCached, Segment.bind, Segment.getSegment.
  destruct (Segment.segments h !! this) as [s|] eqn:Hs; [|discriminate].
  destruct (slot (Segment._cache s)) as [v0|] eqn:SL.
  - intros [= <- <-]. rewrite Hs, SL. reflexivity.
  - destruct (calc h) as [[v1 h1]| |]; [|discriminate..].
    unfold Segment.modifySegment.
    destruct (Segment.segments h1 !! this) as [s1|] eqn:Hs1; [|discriminate].
    unfold Segment.ret. intros [= <- <-]. simpl.
    rewrite lookup_insert_eq. simpl. rewrite LAW. reflexivity.
Qed.

Lemma getCached_computes_once_witness :
  Segment._getCached Segment.c_ringsOnEdgeOf Segment.store_ringsOnEdgeOf
    (Segment.throw ComparisonFailed) 0
    (MoreExamples.heapAfter (Segment.ringsOnEdgeOf 0) MoreExamples.oneSegment)
  = Return ([Examples.ring1],
            MoreExamples.heapAfter (Segment.ringsOnEdgeOf 0)
              MoreExamples.oneSegment).
Proof.
  apply (getCached_computes_once Segment.c_ringsOnEdgeOf
           Segment.store_ringsOnEdgeOf (Segment._ringsOnEdgeOf 0)
           (Segment.throw ComparisonFailed) 0 MoreExamples.oneSegment).
  - reflexivity.
  - reflexivity.
Defined.

(** ** Splitting *)

Ltac grid x y := apply (gridPoint_example x y); vm_compute; discriminate.

Example cutInThree_run :
  Segment.split Examples.EPSILON 0 [(3, 0); (1, 0)] MoreExamples.oneSegment
  = Return (MoreExamples.cutEvents, MoreExamples.cutInThree).
Proof. vm_compute. reflexivity. Qed.

(** X15.  [split] keeps a heap well formed: the pieces get identities,
    events and arrays of their own, and the right event that moves to the
    last piece refers to that piece. *)
Theorem split_keeps_heap_well_formed (eps : Q) (this : nat)
    (pts : list Point) (h h' : Segment.Heap)
    (events : list SweepEvent.SweepEvent) :
  heapWF h ->
  Segment.split eps this pts h = Return (events, h') ->
  heapWF h'.
Proof.
  intros W Hrun. unfold Segment.split in Hrun.
  eapply splitLoop_wf; eassumption.
Qed.

Lemma split_keeps_heap_well_formed_witness : heapWF MoreExamples.cutInThree.
Proof.
  apply (split_keeps_heap_well_formed Examples.EPSILON 0 [(3, 0); (1, 0)]
           MoreExamples.oneSegment MoreExamples.cutInThree
           MoreExamples.cutEvents).
  - exact oneSegment_wf.
  - vm_compute. reflexivity.
Defined.

(** X16.  A [split] that returns has cut the segment into a chain. With [k]
    the number of cuts made, at least one and at most the number of points
    given, [k] new segments stand at the next [k] identities and [2 k]
    events are returned, each at one of the points given. The receiver
    keeps its left event and ends at the first point; each piece starts
    where the one before it ends; the last piece ends with the receiver's
    old right event, which refers to that piece from now on. No other
    segment of the heap is touched. *)
Theorem split_chain (eps : Q) (this : nat) (pts : list Point)
    (h h' : Segment.Heap) (events : list SweepEvent.SweepEvent)
    (s : Segment.Segment) :
  heapWF h ->
  Segment.segments h !! this = Some s ->
  Segment.split eps this pts h = Return (events, h') ->
  exists k pt,
    (1 <= k <= length pts)%nat /\ In pt pts /\
    Segment.nextSegment h' = (Segment.nextSegment h + k)%nat /\
    length events = (2 * k)%nat /\
    (forall e, In e events -> In (SweepEvent.point e) pts) /\
    Segment.segments h' !! this
      = Some (Segment.set_rightSE
                (SweepEvent.mkSweepEvent (S (S (S (Segment.nextEvent h))))
                   pt this) s) /\
    joined h' this (seq (Segment.nextSegment h) k) /\
    (exists t,
       Segment.segments h' !! (Segment.nextSegment h + k - 1)%nat = Some t /\
       Segment.rightSE t
         = SweepEvent.mkSweepEvent (SweepEvent.eid (Segment.rightSE s))
             (SweepEvent.point (Segment.rightSE s))
             (Segment.nextSegment h + k - 1)%nat) /\
    (forall i, i <> this -> (i < Segment.nextSegment h)%nat ->
               Segment.segments h' !! i = Segment.segments h !! i).
Proof.
  intros (W1 & _) Hs Hrun. unfold Segment.split in Hrun.
  destruct (W1 this s Hs) as [Hlt _].
  destruct (splitLoop_outcome eps _ _ _ _ _ _ s Hrun Hs Hlt)
    as (pt & rest & SU & k & Hk & Nx & Len & Pts & _ & Join & Last & Rcv
        & Oth & _).
  exists k, pt. split; [exact Hk|]. split.
  { apply (sortedUnique_In eps). rewrite SU. now left. }
  auto 10.
Qed.

Lemma split_chain_witness :
  exists k pt,
    (1 <= k <= length [(3, 0); (1, 0)])%nat /\ In pt [(3, 0); (1, 0)] /\
    Segment.nextSegment MoreExamples.cutInThree
      = (Segment.nextSegment MoreExamples.oneSegment + k)%nat /\
    length MoreExamples.cutEvents = (2 * k)%nat /\
    (forall e, In e MoreExamples.cutEvents ->
               In (SweepEvent.point e) [(3, 0); (1, 0)]) /\
    Segment.segments MoreExamples.cutInThree !! 0%nat
      = Some (Segment.set_rightSE
                (SweepEvent.mkSweepEvent
                   (S (S (S (Segment.nextEvent MoreExamples.oneSegment))))
                   pt 0) MoreExamples.flat) /\
    joined MoreExamples.cutInThree 0
      (seq (Segment.nextSegment MoreExamples.oneSegment) k) /\
    (exists t,
       Segment.segments MoreExamples.cutInThree
         !! (Segment.nextSegment MoreExamples.oneSegment + k - 1)%nat
         = Some t /\
       Segment.rightSE t
         = SweepEvent.mkSweepEvent
             (SweepEvent.eid (Segment.rightSE MoreExamples.flat))
             (SweepEvent.point (Segment.rightSE MoreExamples.flat))
             (Segment.nextSegment MoreExamples.oneSegment + k - 1)%nat) /\
    (forall i, i <> 0%nat ->
               (i < Segment.nextSegment MoreExamples.oneSegment)%nat ->
               Segment.segments MoreExamples.cutInThree !! i
               = Segment.segments MoreExamples.oneSegment !! i).
Proof.
  apply (split_chain Examples.EPSILON 0 [(3, 0); (1, 0)]
           MoreExamples.oneSegment MoreExamples.cutInThree
           MoreExamples.cutEvents MoreExamples.flat).
  - exact oneSegment_wf.
  - vm_compute. reflexivity.
  - vm_compute. reflexivity.
Defined.

(** X17.  The segments that [split] makes are new in everything but their
    ring and their points: each has the ring of the receiver, no [prev], no
    [ringOut], an empty cache and a [coincidents] array of its own that
    holds the piece alone. The arrays that were in the heap, the one of the
    receiver among them, are as they were: the pieces of a segment that had
    coincident partners have none. *)
Theorem split_new_segments (eps : Q) (this : nat) (pts : list Point)
    (h h' : Segment.Heap) (events : list SweepEvent.SweepEvent)
    (s : Segment.Segment) :
  heapWF h ->
  Segment.segments h !! this = Some s ->
  Segment.split eps this pts h = Return (events, h') ->
  (forall i,
     (Segment.nextSegment h <= i < Segment.nextSegment h')%nat ->
     exists t,
       Segment.segments h' !! i = Some t /\
       Segment.ringIn t = Segment.ringIn s /\
       Segment.prev t = None /\ Segment.ringOut t = None /\
       Segment._cache t = Segment.emptyCache /\
       Segment.arrays h' !! Segment.coincidents t = Some [i]) /\
  (forall r arr, Segment.arrays h !! r = Some arr ->
                 Segment.arrays h' !! r = Some arr).
Proof.
  intros (W1 & W2 & _) Hs Hrun. unfold Segment.split in Hrun.
  destruct (W1 this s Hs) as [Hlt _].
  destruct (splitLoop_outcome eps _ _ _ _ _ _ s Hrun Hs Hlt)
    as (pt & rest & SU & k & Hk & Nx & _ & _ & New & _ & _ & _ & _ & Arr & _).
  split.
  - intros i Hi. apply New. lia.
  - intros r arr Hr. destruct (W2 r arr Hr) as [Hlt' _].
    rewrite Arr by exact Hlt'. exact Hr.
Qed.

Lemma split_new_segments_witness :
  (forall i,
     (Segment.nextSegment MoreExamples.oneSegment <= i
      < Segment.nextSegment MoreExamples.cutInThree)%nat ->
     exists t,
       Segment.segments MoreExamples.cutInThree !! i = Some t /\
       Segment.ringIn t = Segment.ringIn MoreExamples.flat /\
       Segment.prev t = None /\ Segment.ringOut t = None /\
       Segment._cache t = Segment.emptyCache /\
       Segment.arrays MoreExamples.cutInThree !! Segment.coincidents t
         = Some [i]) /\
  (forall r arr, Segment.arrays MoreExamples.oneSegment !! r = Some arr ->
                 Segment.arrays MoreExamples.cutInThree !! r = Some arr).
Proof.
  apply (split_new_segments Examples.EPSILON 0 [(3, 0); (1, 0)]
           MoreExamples.oneSegment MoreExamples.cutInThree
           MoreExamples.cutEvents MoreExamples.flat).
  - exact oneSegment_wf.
  - vm_compute. reflexivity.
  - vm_compute. reflexivity.
Defined.



(** X19.  On the grid [split] throws as soon as one of the points given is
    an endpoint of the segment, wherever it stands in the array and
    whatever the other points are. *)
Theorem split_throws_on_endpoint (eps : Q) (this : nat) (pts : list Point)
    (h : Segment.Heap) (s : Segment.Segment) (p : Point) :
  0 <= eps -> eps < 1 ->
  Segment.segments h !! this = Some s ->
  onGrid eps s -> Forall (gridPoint eps) pts ->
  In p pts -> Segment.isAnEndpoint eps s p = true ->
  Segment.split eps this pts h = Throw SplitOnEndpoint.
Proof.
  intros E0 E1 Hs OG G Hp EP. unfold Segment.split.
  eapply splitLoop_throws; eassumption.
Qed.

Lemma split_throws_on_endpoint_witness :
  Segment.split Examples.EPSILON 0 [(3, 0); (4, 0); (1, 0)]
    MoreExamples.oneSegment = Throw SplitOnEndpoint.
Proof.
  apply (split_throws_on_endpoint Examples.EPSILON 0
           [(3, 0); (4, 0); (1, 0)] MoreExamples.oneSegment
           MoreExamples.flat (4, 0)).
  - vm_compute. discriminate.
  - reflexivity.
  - reflexivity.
  - split; [grid 0%Z 0%Z|grid 4%Z 0%Z].
  - constructor; [grid 3%Z 0%Z|].
    constructor; [grid 4%Z 0%Z|].
    constructor; [grid 1%Z 0%Z|]. constructor.
  - simpl. auto.
  - reflexivity.
Defined.

(** ** What the getters change *)

Lemma sameButCaches_refl (h : Segment.Heap) : sameButCaches h h.
Proof.
  repeat split. intros i.
  destruct (Segment.segments h !! i) as [[]|]; [reflexivity|exact I].
Qed.

Lemma sameButCaches_trans (h1 h2 h3 : Segment.Heap) :
  sameButCaches h1 h2 -> sameButCaches h2 h3 -> sameButCaches h1 h3.
Proof.
  intros (A1 & B1 & C1 & D1 & E1) (A2 & B2 & C2 & D2 & E2).
  repeat split; try congruence.
  intros i. specialize (E1 i). specialize (E2 i).
  destruct (Segment.segments h1 !! i) as [s1|],
           (Segment.segments h2 !! i) as [s2|],
           (Segment.segments h3 !! i) as [s3|]; try tauto.
  rewrite E2, E1. reflexivity.
Qed.

Lemma cacheOnly_ret {A} (a : A) : cacheOnly (Segment.ret a).
Proof. intros h v h' [= <- <-]. apply sameButCaches_refl. Qed.

Lemma cacheOnly_throw {A} (e : error) : cacheOnly (@Segment.throw A e).
Proof. intros h v h' [=]. Qed.

Lemma cacheOnly_undefined {A} : cacheOnly (@Segment.undefined A).
Proof. intros h v h' [=]. Qed.

Lemma cacheOnly_bind {A B} (c : Segment.M A) (k : A -> Segment.M B) :
  cacheOnly c -> (forall a, cacheOnly (k a)) -> cacheOnly (Segment.bind c k).
Proof.
  intros Hc Hk h v h' Hrun. unfold Segment.bind in Hrun.
  destruct (c h) as [[a h1]| |] eqn:E; [|discriminate..].
  eapply sameButCaches_trans; [eapply Hc|eapply Hk]; eassumption.
Qed.

Lemma cacheOnly_getSegment (i : nat) : cacheOnly (Segment.getSegment i).
Proof.
  intros h v h' Hrun. unfold Segment.getSegment in Hrun.
  destruct (Segment.segments h !! i); [|discriminate].
  injection Hrun as <- <-. apply sameButCaches_refl.
Qed.

Lemma cacheOnly_getArray (r : nat) : cacheOnly (Segment.getArray r).
Proof.
  intros h v h' Hrun. unfold Segment.getArray in Hrun.
  destruct (Segment.arrays h !! r); [|discriminate].
  injection Hrun as <- <-. apply sameButCaches_refl.
Qed.

Lemma cacheOnly_store (this : nat)
    (f : Segment.Cache -> Segment.Cache) :
  cacheOnly (Segment.modifySegment this
               (fun s' => Segment.set_cache (f (Segment._cache s')) s')).
Proof.
  intros h v h' Hrun. unfold Segment.modifySegment in Hrun.
  destruct (Segment.segments h !! this) as [s|] eqn:Hs; [|discriminate].
  injection Hrun as <- <-. repeat split. intros i. simpl.
  destruct (decide (i = this)) as [->|Hi].
  - rewrite lookup_insert_eq, Hs. destruct s; reflexivity.
  - rewrite lookup_insert_ne by congruence.
    destruct (Segment.segments h !! i) as [[]|]; [reflexivity|exact I].
Qed.

Lemma cacheOnly_mapM {A B} (f : A -> Segment.M B) (l : list A) :
  (forall x, cacheOnly (f x)) -> cacheOnly (Segment.mapM f l).
Proof.
  intros Hf. induction l as [|x l IH]; simpl.
  - apply cacheOnly_ret.
  - apply cacheOnly_bind; [apply Hf|]. intros y.
    apply cacheOnly_bind; [exact IH|]. intros ys. apply cacheOnly_ret.
Qed.

Lemma cacheOnly_filterM {A} (f : A -> Segment.M bool) (l : list A) :
  (forall x, cacheOnly (f x)) -> cacheOnly (Segment.filterM f l).
Proof.
  intros Hf. induction l as [|x l IH]; simpl.
  - apply cacheOnly_ret.
  - apply cacheOnly_bind; [apply Hf|]. intros y.
    apply cacheOnly_bind; [exact IH|]. intros ys. apply cacheOnly_ret.
Qed.

Lemma cacheOnly_getCached {A} (slot : Segment.Cache -> option A)
    (store : A -> Segment.Cache -> Segment.Cache) (calc : Segment.M A)
    (this : nat) :
  cacheOnly calc -> cacheOnly (Segment._getCached slot store calc this).
Proof.
  intros Hc. unfold Segment._getCached.
  apply cacheOnly_bind; [apply cacheOnly_getSegment|]. intros s.
  destruct (slot (Segment._cache s)); [apply cacheOnly_ret|].
  apply cacheOnly_bind; [exact Hc|]. intros v.
  apply cacheOnly_bind; [apply (cacheOnly_store this (store v))|].
  intros _. apply cacheOnly_ret.
Qed.

(** One step of a proof that a getter changes caches only. *)
Ltac cache_step :=
  first
    [ solve [auto 1]
    | apply cacheOnly_ret
    | apply cacheOnly_throw
    | apply cacheOnly_undefined
    | apply cacheOnly_getSegment
    | apply cacheOnly_getArray
    | apply cacheOnly_getCached
    | apply cacheOnly_mapM; intros ?
    | apply cacheOnly_filterM; intros ?
    | apply cacheOnly_bind; [|intros ?]
    | match goal with
      | |- cacheOnly (if ?b then _ else _) => destruct b
      | |- cacheOnly (match ?o with Some _ => _ | None => _ end) =>
        destruct o
      end ].

Ltac cache_only := repeat cache_step.

Lemma cacheOnly_getCoincidents (this : nat) :
  cacheOnly (Segment.getCoincidents this).
Proof. unfold Segment.getCoincidents. cache_only. Qed.

Lemma cacheOnly_ringInOf (seg : nat) : cacheOnly (Segment.ringInOf seg).
Proof. unfold Segment.ringInOf. cache_only. Qed.

Lemma cacheOnly_isCoincidenceWinner (this : nat) :
  cacheOnly (Segment.isCoincidenceWinner this).
Proof.
  unfold Segment.isCoincidenceWinner.
  pose proof cacheOnly_getCoincidents. pose proof cacheOnly_ringInOf.
  cache_only; auto.
Qed.

Lemma cacheOnly_ringsOnEdgeOf (this : nat) :
  cacheOnly (Segment.ringsOnEdgeOf this).
Proof.
  unfold Segment.ringsOnEdgeOf, Segment._ringsOnEdgeOf.
  pose proof cacheOnly_getCoincidents. pose proof cacheOnly_ringInOf.
  cache_only; auto.
Qed.

Lemma cacheOnly_skipOtherRings (fuel : nat) (ring : Ring.Ring) :
  forall p, cacheOnly (Segment.skipOtherRings fuel ring p).
Proof.
  induction fuel as [|fuel IH]; intros [q|]; simpl; cache_only; auto.
Qed.

Lemma cacheOnly_sweepLineEntersRing (fuel : nat) :
  forall this, cacheOnly (Segment.sweepLineEntersRing fuel this).
Proof.
  induction fuel as [|fuel IH]; intros this; simpl; [cache_only|].
  pose proof (cacheOnly_skipOtherRings fuel).
  cache_only; auto.
Qed.

Lemma cacheOnly_ringsEntering (fuel this : nat) :
  cacheOnly (Segment.ringsEntering fuel this).
Proof.
  unfold Segment.ringsEntering, Segment._ringsEntering.
  pose proof cacheOnly_getCoincidents. pose proof cacheOnly_ringInOf.
  pose proof (cacheOnly_sweepLineEntersRing fuel).
  cache_only; auto.
Qed.

Lemma cacheOnly_ringsExiting (fuel this : nat) :
  cacheOnly (Segment.ringsExiting fuel this).
Proof.
  unfold Segment.ringsExiting, Segment._ringsExiting.
  pose proof cacheOnly_getCoincidents. pose proof cacheOnly_ringInOf.
  pose proof (cacheOnly_sweepLineEntersRing fuel).
  cache_only; auto.
Qed.

Lemma cacheOnly_ringsInsideOf (fuel : nat) :
  forall this, cacheOnly (Segment.ringsInsideOf fuel this).
Proof.
  induction fuel as [|fuel IH]; intros this; simpl; [cache_only|].
  pose proof cacheOnly_getCoincidents.
  pose proof cacheOnly_ringsOnEdgeOf.
  pose proof (cacheOnly_ringsEntering fuel).
  pose proof (cacheOnly_ringsExiting fuel).
  cache_only; auto.
Qed.

Section GettersChangeCachesOnly.

Variable operation : Operation.Operation.
Variable ring_isValid :
  Ring.Ring -> list Ring.Ring -> list Ring.Ring -> list Ring.Ring -> bool.
Variable poly_isInside :
  Poly.Poly -> list Ring.Ring -> list Ring.Ring -> bool.

Lemma cacheOnly_isValidEdgeForPoly (fuel this : nat) :
  cacheOnly (Segment.isValidEdgeForPoly ring_isValid fuel this).
Proof.
  unfold Segment.isValidEdgeForPoly, Segment._isValidEdgeForPoly.
  pose proof cacheOnly_ringInOf.
  pose proof (cacheOnly_sweepLineEntersRing fuel).
  pose proof (cacheOnly_ringsInsideOf fuel).
  pose proof (cacheOnly_ringsEntering fuel).
  pose proof (cacheOnly_ringsExiting fuel).
  cache_only.
Qed.

Lemma cacheOnly_sweepLineEntersPoly (fuel this : nat) :
  cacheOnly (Segment.sweepLineEntersPoly ring_isValid fuel this).
Proof.
  unfold Segment.sweepLineEntersPoly.
  pose proof cacheOnly_ringInOf.
  pose proof (cacheOnly_sweepLineEntersRing fuel).
  pose proof (cacheOnly_isValidEdgeForPoly fuel).
  cache_only.
Qed.

Lemma cacheOnly_sweepLineExitsPoly (fuel this : nat) :
  cacheOnly (Segment.sweepLineExitsPoly ring_isValid fuel this).
Proof.
  unfold Segment.sweepLineExitsPoly.
  pose proof cacheOnly_ringInOf.
  pose proof (cacheOnly_sweepLineEntersRing fuel).
  pose proof (cacheOnly_isValidEdgeForPoly fuel).
  cache_only.
Qed.

Lemma cacheOnly_multiPolysInsideOf (fuel this : nat) :
  cacheOnly (Segment.multiPolysInsideOf poly_isInside fuel this).
Proof.
  unfold Segment.multiPolysInsideOf, Segment.polysInsideOf.
  pose proof cacheOnly_ringsOnEdgeOf.
  pose proof (cacheOnly_ringsInsideOf fuel).
  cache_only.
Qed.

Lemma cacheOnly_multiPolysSLPEnters (fuel this : nat) :
  cacheOnly (Segment.multiPolysSLPEnters ring_isValid poly_isInside fuel
               this).
Proof.
  unfold Segment.multiPolysSLPEnters, Segment.multiPolyOf.
  pose proof cacheOnly_getCoincidents. pose proof cacheOnly_ringInOf.
  pose proof (cacheOnly_sweepLineEntersPoly fuel).
  pose proof (cacheOnly_multiPolysInsideOf fuel).
  cache_only.
Qed.

Lemma cacheOnly_multiPolysSLPExits (fuel this : nat) :
  cacheOnly (Segment.multiPolysSLPExits ring_isValid poly_isInside fuel
               this).
Proof.
  unfold Segment.multiPolysSLPExits, Segment.multiPolyOf.
  pose proof cacheOnly_getCoincidents. pose proof cacheOnly_ringInOf.
  pose proof (cacheOnly_sweepLineExitsPoly fuel).
  pose proof (cacheOnly_multiPolysInsideOf fuel).
  cache_only.
Qed.

Lemma cacheOnly_isInResult (fuel this : nat) :
  cacheOnly (Segment.isInResult operation ring_isValid poly_isInside fuel
               this).
Proof.
  unfold Segment.isInResult, Segment._isInResult.
  pose proof cacheOnly_isCoincidenceWinner.
  pose proof (cacheOnly_multiPolysSLPEnters fuel).
  pose proof (cacheOnly_multiPolysSLPExits fuel).
  apply cacheOnly_getCached.
  apply cacheOnly_bind; [auto|]. intros winner.
  destruct (negb winner); [apply cacheOnly_ret|].
  destruct (Operation.type operation); cache_only.
Qed.

Lemma cacheOnly_skipNotInResult (fuel : nat) :
  forall p,
    cacheOnly (Segment.skipNotInResult operation ring_isValid poly_isInside
                 fuel p).
Proof.
  induction fuel as [|fuel IH]; intros [q|]; simpl;
    try pose proof (cacheOnly_isInResult (S fuel)); cache_only.
Qed.

Lemma cacheOnly_prevInResult (fuel this : nat) :
  cacheOnly (Segment.prevInResult operation ring_isValid poly_isInside fuel
               this).
Proof.
  unfold Segment.prevInResult, Segment._prevInResult.
  pose proof (cacheOnly_skipNotInResult fuel).
  cache_only.
Qed.

End GettersChangeCachesOnly.

Lemma sameButCaches_wf (h h' : Segment.Heap) :
  sameButCaches h h' -> heapWF h -> heapWF h'.
Proof.
  intros (A & B & C & D & E) (W1 & W2 & W3).
  assert (Back : forall i s', Segment.segments h' !! i = Some s' ->
            exists s, Segment.segments h !! i = Some s /\
                      s' = Segment.set_cache (Segment._cache s') s).
  { intros i s' Hs'. specialize (E i). rewrite Hs' in E.
    destruct (Segment.segments h !! i) as [s|]; [eauto|destruct E]. }
  assert (Dom : forall p, is_Some (Segment.segments h !! p) ->
                          is_Some (Segment.segments h' !! p)).
  { intros p [sp Hp]. specialize (E p). rewrite Hp in E.
    destruct (Segment.segments h' !! p); [eauto|destruct E]. }
  split; [|split].
  - intros i s' Hs'. destruct (Back i s' Hs') as (s & Hs & ->).
    destruct (W1 i s Hs) as [Hlt (S1&S2&S3&S4&S5&S6&S7&arr&S8&S9)].
    split; [lia|]. unfold segmentOK. simpl. rewrite A, D.
    repeat (split; [assumption|]). split; [|eauto].
    intros p Hp. apply Dom. auto.
  - intros r arr Hr. rewrite A in Hr. destruct (W2 r arr Hr) as [Hlt Hin].
    split; [lia|]. intros x Hx. apply Dom. auto.
  - intros i j s' t' Hs' Ht' Hij.
    destruct (Back i s' Hs') as (s & Hs & ->).
    destruct (Back j t' Ht') as (t & Ht & ->).
    exact (W3 i j s t Hs Ht Hij).
Qed.

(** X20.  Reading [isInResult] changes caches only, whatever the operation
    and the input model: every segment keeps its ring, its events, its
    [prev] and its [coincidents], no segment or array is made or dropped,
    and a well-formed heap stays well formed. The same holds of all the
    getters [isInResult] reads on its way. *)
Theorem isInResult_changes_caches_only (operation : Operation.Operation)
    (ring_isValid :
       Ring.Ring -> list Ring.Ring -> list Ring.Ring -> list Ring.Ring
       -> bool)
    (poly_isInside : Poly.Poly -> list Ring.Ring -> list Ring.Ring -> bool)
    (fuel this : nat) (h h' : Segment.Heap) (b : bool) :
  Segment.isInResult operation ring_isValid poly_isInside fuel this h
    = Return (b, h') ->
  sameButCaches h h' /\ (heapWF h -> heapWF h').
Proof.
  intros Hrun.
  assert (S : sameButCaches h h')
    by (eapply cacheOnly_isInResult; eassumption).
  split; [exact S|]. now apply sameButCaches_wf.
Qed.

(** X21.  Reading [prevInResult] changes caches only as well, although it
    reads [isInResult] of every segment it passes on the chain of [prev]. *)
Theorem prevInResult_changes_caches_only (operation : Operation.Operation)
    (ring_isValid :
       Ring.Ring -> list Ring.Ring -> list Ring.Ring -> list Ring.Ring
       -> bool)
    (poly_isInside : Poly.Poly -> list Ring.Ring -> list Ring.Ring -> bool)
    (fuel this : nat) (h h' : Segment.Heap) (p : option nat) :
  Segment.prevInResult operation ring_isValid poly_isInside fuel this h
    = Return (p, h') ->
  sameButCaches h h' /\ (heapWF h -> heapWF h').
Proof.
  intros Hrun.
  assert (S : sameButCaches h h')
    by (eapply cacheOnly_prevInResult; eassumption).
  split; [exact S|]. now apply sameButCaches_wf.
Qed.

Lemma isInResult_changes_caches_only_witness :
  sameButCaches Examples.twoCoincident
    (MoreExamples.heapAfter
       (Segment.isInResult Examples.intersectionOp Examples.alwaysValid
          Examples.alwaysInside 2 0) Examples.twoCoincident) /\
  (heapWF Examples.twoCoincident ->
   heapWF
     (MoreExamples.heapAfter
        (Segment.isInResult Examples.intersectionOp Examples.alwaysValid
           Examples.alwaysInside 2 0) Examples.twoCoincident)).
Proof.
  apply (isInResult_changes_caches_only Examples.intersectionOp
           Examples.alwaysValid Examples.alwaysInside 2 0
           Examples.twoCoincident _ true).
  vm_compute. reflexivity.
Defined.

Lemma prevInResult_changes_caches_only_witness :
  sameButCaches MoreExamples.stacked
    (MoreExamples.heapAfter
       (Segment.prevInResult Examples.unionOp Examples.alwaysValid
          Examples.alwaysInside 3 1) MoreExamples.stacked) /\
  (heapWF MoreExamples.stacked ->
   heapWF
     (MoreExamples.heapAfter
        (Segment.prevInResult Examples.unionOp Examples.alwaysValid
           Examples.alwaysInside 3 1) MoreExamples.stacked)).
Proof.
  apply (prevInResult_changes_caches_only Examples.unionOp
           Examples.alwaysValid Examples.alwaysInside 3 1
           MoreExamples.stacked _ (Some 0%nat)).
  vm_compute. reflexivity.
Defined.

(** ** Entering and leaving a ring *)

Lemma prevChain_more (fuel : nat) (h : Segment.Heap) :
  forall p chain,
    prevChain fuel h p = Some chain -> prevChain (S fuel) h p = Some chain.
Proof.
  induction fuel as [|fuel IH]; intros [q|] chain H; try exact H.
  - discriminate H.
  - simpl in H. change (prevChain (S (S fuel)) h (Some q)) with
      (match Segment.segments h !! q with
       | None => None
       | Some sq =>
         match prevChain (S fuel) h (Segment.prev sq) with
         | None => None
         | Some chain => Some (sq :: chain)
         end
       end).
    destruct (Segment.segments h !! q) as [sq|]; [|discriminate].
    destruct (prevChain fuel h (Segment.prev sq)) as [c|] eqn:E;
      [|discriminate].
    now rewrite (IH _ _ E).
Qed.

(** The loop of [_sweepLineEntersRing] reads the heap only; it stops at
    the nearest segment of the ring on the chain, if there is one. *)
Lemma skipOtherRings_chain (fuel : nat) (h : Segment.Heap)
    (ring : Ring.Ring) :
  forall p chain,
    prevChain fuel h p = Some chain ->
    (Segment.skipOtherRings fuel ring p h = Return (None, h) /\
     sameRingCount ring chain = 0%nat) \/
    (exists q sq chain' fuel',
       Segment.skipOtherRings fuel ring p h = Return (Some q, h) /\
       Segment.segments h !! q = Some sq /\
       Segment.ringIn sq = ring /\
       fuel = S fuel' /\
       prevChain fuel' h (Segment.prev sq) = Some chain' /\
       sameRingCount ring chain = S (sameRingCount ring chain') /\
       In sq chain /\ (forall t, In t chain' -> In t chain)).
Proof.
  induction fuel as [|fuel IH]; intros [q|] chain H; simpl in H.
  - discriminate.
  - injection H as <-. left. split; reflexivity.
  - destruct (Segment.segments h !! q) as [sq|] eqn:Hq; [|discriminate].
    destruct (prevChain fuel h (Segment.prev sq)) as [c|] eqn:E;
      [|discriminate].
    injection H as <-.
    assert (Step : Segment.skipOtherRings (S fuel) ring (Some q) h
                   = if bool_decide (Segment.ringIn sq = ring)
                     then Return (Some q, h)
                     else Segment.skipOtherRings fuel ring
                            (Segment.prev sq) h).
    { simpl. unfold Segment.bind, Segment.getSegment. rewrite Hq.
      destruct (bool_decide (Segment.ringIn sq = ring)); reflexivity. }
    rewrite Step. unfold sameRingCount. simpl.
    destruct (bool_decide_reflect (Segment.ringIn sq = ring)) as [R|R].
    + right. exists q, sq, c, fuel. simpl. auto 10.
    + destruct (IH _ _ E) as [[S0 C0]|(q' & sq' & c' & f' & S1 & L1 & R1 & F1
                                       & P1 & C1 & I1 & J1)].
      * left. split; [exact S0|exact C0].
      * right. exists q', sq', c', fuel. subst fuel.
        split; [exact S1|]. split; [exact L1|]. split; [exact R1|].
        split; [reflexivity|]. split; [now apply prevChain_more|].
        split; [exact C1|]. split; [now right|]. intros t Ht. right. auto.
  - injection H as <-. left. split; reflexivity.
Qed.

Lemma sameButCaches_dom (h h' : Segment.Heap) (i : nat) :
  sameButCaches h h' ->
  is_Some (Segment.segments h !! i) -> is_Some (Segment.segments h' !! i).
Proof.
  intros (_ & _ & _ & _ & E) [s Hs]. specialize (E i). rewrite Hs in E.
  destruct (Segment.segments h' !! i); [eauto|destruct E].
Qed.

Lemma sweepLineEntersRing_unfold (fuel this : nat) :
  Segment.sweepLineEntersRing (S fuel) this
  = Segment._getCached Segment.c_sweepLineEntersRing
      Segment.store_sweepLineEntersRing
      (Segment.bind (Segment.getSegment this) (fun s =>
       Segment.bind
         (Segment.skipOtherRings fuel (Segment.ringIn s) (Segment.prev s))
         (fun p =>
            match p with
            | None => Segment.ret true
            | Some q =>
              Segment.bind (Segment.sweepLineEntersRing fuel q)
                (fun b => Segment.ret (negb b))
            end))) this.
Proof. reflexivity. Qed.

Lemma sweepLineEntersRing_chain (fuel : nat) :
  forall (this : nat) (h : Segment.Heap) (s : Segment.Segment)
         (chain : list Segment.Segment),
    Segment.segments h !! this = Some s ->
    prevChain fuel h (Segment.prev s) = Some chain ->
    entersRingUnset s -> Forall entersRingUnset chain ->
    exists h',
      Segment.sweepLineEntersRing (S fuel) this h
      = Return (Nat.even (sameRingCount (Segment.ringIn s) chain), h').
Proof.
  induction fuel as [|fuel IH]; intros this h s chain Hs Hc U UC.
  - destruct (skipOtherRings_chain 0 h (Segment.ringIn s) _ _ Hc)
      as [[S0 C0]|(q & sq & c' & f' & _ & _ & _ & F & _)]; [|discriminate].
    rewrite sweepLineEntersRing_unfold.
    unfold Segment._getCached, Segment.bind, Segment.getSegment.
    rewrite Hs. unfold entersRingUnset in U. rewrite U, Hs, S0, C0. simpl.
    unfold Segment.modifySegment. rewrite Hs. eauto.
  - destruct (skipOtherRings_chain (S fuel) h (Segment.ringIn s) _ _ Hc)
      as [[S0 C0]|(q & sq & c' & f' & S1 & L1 & R1 & [= <-] & P1 & C1 & I1
                   & J1)].
    + rewrite sweepLineEntersRing_unfold.
      unfold Segment._getCached, Segment.bind, Segment.getSegment.
      rewrite Hs. unfold entersRingUnset in U. rewrite U, Hs, S0, C0. simpl.
      unfold Segment.modifySegment. rewrite Hs. eauto.
    + rewrite List.Forall_forall in UC.
      destruct (IH q h sq c' L1 P1 (UC sq I1)) as (h1 & Hrec).
      { apply List.Forall_forall. auto. }
      assert (D : is_Some (Segment.segments h1 !! this)).
      { eapply sameButCaches_dom; [|rewrite Hs; eauto].
        eapply cacheOnly_sweepLineEntersRing. exact Hrec. }
      destruct D as [s1 Hs1].
      rewrite sweepLineEntersRing_unfold.
      unfold Segment._getCached, Segment.bind, Segment.getSegment.
      rewrite Hs. unfold entersRingUnset in U. rewrite U, Hs, S1, Hrec.
      unfold Segment.ret, Segment.modifySegment. rewrite Hs1.
      rewrite C1, R1, Nat.even_succ, <- Nat.negb_even. eauto.
Qed.

(** X22.  [sweepLineEntersRing] follows the even-odd rule. On a segment
    whose chain of [prev] ends in the heap, and whose cached answers on
    that chain have not been filled in yet, it returns true exactly when an
    even number of segments of the same ring lie below the segment; it
    changes caches only. *)
Theorem sweepLineEntersRing_even_odd (fuel this : nat) (h : Segment.Heap)
    (s : Segment.Segment) (chain : list Segment.Segment) :
  Segment.segments h !! this = Some s ->
  prevChain fuel h (Segment.prev s) = Some chain ->
  entersRingUnset s -> Forall entersRingUnset chain ->
  exists h',
    Segment.sweepLineEntersRing (S fuel) this h
    = Return (Nat.even (sameRingCount (Segment.ringIn s) chain), h') /\
    sameButCaches h h'.
Proof.
  intros Hs Hc U UC.
  destruct (sweepLineEntersRing_chain fuel this h s chain Hs Hc U UC)
    as (h' & Hrun).
  exists h'. split; [exact Hrun|].
  eapply cacheOnly_sweepLineEntersRing. exact Hrun.
Qed.

Lemma sweepLineEntersRing_even_odd_witness :
  exists h',
    Segment.sweepLineEntersRing 3 2 MoreExamples.threeStacked
    = Return (Nat.even
                (sameRingCount (Segment.ringIn MoreExamples.top)
                   [MoreExamples.middle; MoreExamples.flat]), h') /\
    sameButCaches MoreExamples.threeStacked h'.
Proof.
  apply (sweepLineEntersRing_even_odd 2 2 MoreExamples.threeStacked
           MoreExamples.top [MoreExamples.middle; MoreExamples.flat]).
  - vm_compute. reflexivity.
  - vm_compute. reflexivity.
  - reflexivity.
  - repeat constructor.
Defined.

Example top_leaves_its_ring :
  exists h',
    Segment.sweepLineEntersRing 3 2 MoreExamples.threeStacked
    = Return (false, h').
Proof. eexists. vm_compute. reflexivity. Qed.

(** ** The order of segments under rounding *)

(** Without rounding, the rounded functions are the exact ones. *)
Lemma compare_unrounded (eps : Q) (a b : Segment.Segment) :
  Rounded.compare (fun x => x) eps a b = Segment.compare eps a b.
Proof. reflexivity. Qed.

Lemma intWithin_integral (B : Z) (q : Q) : intWithin B q -> integral q.
Proof. intros (z & Hz & _). now exists z. Qed.

Lemma intWithin_weaken (A B : Z) (q : Q) :
  (A <= B)%Z -> intWithin A q -> intWithin B q.
Proof. intros H (z & Hz & Hb). exists z. split; [exact Hz|lia]. Qed.

Lemma intWithin_wd (B : Z) (q q' : Q) :
  q == q' -> intWithin B q -> intWithin B q'.
Proof.
  intros E (z & Hz & Hb). exists z. split; [now rewrite <- E|exact Hb].
Qed.

Lemma absQ_inject_Z (z : Z) : Flp.absQ (inject_Z z) == inject_Z (Z.abs z).
Proof.
  unfold Flp.absQ. destruct (Qle_bool 0 (inject_Z z)) eqn:E.
  - apply Qle_bool_iff in E. change 0 with (inject_Z 0) in E.
    rewrite <- Zle_Qle in E. now rewrite Z.abs_eq.
  - apply Qle_bool_false in E. change 0 with (inject_Z 0) in E.
    rewrite <- Zlt_Qlt in E. rewrite <- inject_Z_opp.
    now rewrite Z.abs_neq by lia.
Qed.

Lemma intWithin_abs (B : Z) (q : Q) :
  intWithin B q -> Flp.absQ q <= inject_Z B.
Proof.
  intros (z & Hz & Hb). rewrite (absQ_wd q (inject_Z z) Hz), absQ_inject_Z.
  now rewrite <- Zle_Qle.
Qed.

Lemma absQ_nonneg (q : Q) : 0 <= Flp.absQ q.
Proof. unfold Flp.absQ. tests; lra. Qed.

Section SmallGrid.

Variable rnd : Q -> Q.
Variable eps : Q.
Hypothesis faithful : faithfulRounding rnd.
Hypothesis eps_nonneg : 0 <= eps.
Hypothesis eps_small : eps <= 1 # 67108864.

Lemma rnd_wd (x y : Q) : x == y -> rnd x == rnd y.
Proof. apply faithful. Qed.

Lemma rnd_mono (x y : Q) : x <= y -> rnd x <= rnd y.
Proof. apply faithful. Qed.

Lemma rnd_int (q : Q) : intWithin (2 ^ 53) q -> rnd q == q.
Proof.
  intros (z & Hz & Hb). rewrite (rnd_wd q (inject_Z z) Hz), Hz.
  now apply faithful.
Qed.

Lemma rnd_half (z : Z) :
  (Z.abs z <= 2 ^ 53)%Z -> rnd (inject_Z z / 2) == inject_Z z / 2.
Proof. apply faithful. Qed.

Lemma rnd_nonneg (q : Q) : 0 <= q -> 0 <= rnd q.
Proof.
  intros H. assert (Z0 : rnd 0 == 0).
  { apply (rnd_int 0). exists 0%Z. split; [reflexivity|]. simpl. lia. }
  rewrite <- Z0. now apply rnd_mono.
Qed.

Lemma sub_exact (A B : Z) (x y : Q) :
  intWithin A x -> intWithin B y -> (A + B <= 2 ^ 53)%Z ->
  Rounded.sub rnd x y == x - y /\ intWithin (A + B) (x - y).
Proof.
  intros (a & Ha & Ba) (b & Hb & Bb) H.
  assert (I : intWithin (A + B) (x - y)).
  { exists (a - b)%Z. split; [|lia].
    rewrite Ha, Hb. unfold Zminus. rewrite inject_Z_plus, inject_Z_opp.
    ring. }
  split; [|exact I]. unfold Rounded.sub. apply rnd_int.
  now apply (intWithin_weaken (A + B)).
Qed.

Lemma mul_exact (A B : Z) (x y : Q) :
  intWithin A x -> intWithin B y -> (A * B <= 2 ^ 53)%Z ->
  Rounded.mul rnd x y == x * y /\ intWithin (A * B) (x * y).
Proof.
  intros (a & Ha & Ba) (b & Hb & Bb) H.
  assert (I : intWithin (A * B) (x * y)).
  { exists (a * b)%Z. split; [now rewrite Ha, Hb, inject_Z_mult|].
    rewrite Z.abs_mul. apply Z.mul_le_mono_nonneg; lia. }
  split; [|exact I]. unfold Rounded.mul. apply rnd_int.
  now apply (intWithin_weaken (A * B)).
Qed.

(** The tolerance side of [flpEQ] on two coordinates of the small grid is
    at most one half, however the product is rounded. *)
Lemma tolerance_small (x y : Q) :
  intWithin (2 ^ 25) x -> intWithin (2 ^ 25) y ->
  0 <= Rounded.mul rnd eps (Flp.maxQ (Flp.maxQ 1 (Flp.absQ x)) (Flp.absQ y))
  /\ Rounded.mul rnd eps (Flp.maxQ (Flp.maxQ 1 (Flp.absQ x)) (Flp.absQ y))
     <= 1 # 2.
Proof.
  intros Ix Iy.
  pose proof (intWithin_abs _ _ Ix) as Bx.
  pose proof (intWithin_abs _ _ Iy) as By.
  pose proof (absQ_nonneg x) as Nx. pose proof (absQ_nonneg y) as Ny.
  change (inject_Z (2 ^ 25)) with (33554432 # 1) in Bx, By.
  set (m := Flp.maxQ (Flp.maxQ 1 (Flp.absQ x)) (Flp.absQ y)).
  assert (M : 1 <= m /\ m <= 33554432 # 1).
  { unfold m, Flp.maxQ. tests; lra. }
  unfold Rounded.mul. split.
  - apply rnd_nonneg. nra.
  - assert (H : rnd (inject_Z 1 / 2) == inject_Z 1 / 2)
      by (apply rnd_half; simpl; lia).
    assert (E : inject_Z 1 / 2 == 1 # 2) by reflexivity.
    rewrite <- E, <- H. apply rnd_mono. rewrite E.
    assert (K : eps * m <= (1 # 67108864) * (33554432 # 1)) by nra.
    assert (K' : (1 # 67108864) * (33554432 # 1) == 1 # 2) by reflexivity.
    lra.
Qed.

Lemma flpEQ_small (x y : Q) :
  intWithin (2 ^ 25) x -> intWithin (2 ^ 25) y ->
  Rounded.flpEQ rnd eps x y = Flp.flpEQ eps x y.
Proof.
  intros Ix Iy.
  pose proof (intWithin_abs _ _ Ix) as Bx.
  pose proof (intWithin_abs _ _ Iy) as By.
  change (inject_Z (2 ^ 25)) with (33554432 # 1) in Bx, By.
  pose proof (absQ_nonneg x) as Nx. pose proof (absQ_nonneg y) as Ny.
  rewrite (flpEQ_grid eps x y); try lra;
    try (eapply intWithin_integral; eassumption); try nra.
  destruct (tolerance_small x y Ix Iy) as [T0 T1].
  destruct (sub_exact _ _ x y Ix Iy) as [S _]; [simpl; lia|].
  unfold Rounded.flpEQ.
  destruct (flpEQ_exact x y) as [E|E].
  - apply Qle_bool_iff.
    rewrite (absQ_wd _ 0); [unfold Flp.absQ; simpl; exact T0|].
    rewrite S. lra.
  - apply Qle_bool_false.
    assert (G : 1 <= Flp.absQ (x - y)).
    { apply integral_abs_ge1.
      - apply integral_minus; eapply intWithin_integral; eassumption.
      - intros D. apply E. lra. }
    rewrite (absQ_wd _ _ S). lra.
Qed.

Lemma flpLT_small (x y : Q) :
  intWithin (2 ^ 25) x -> intWithin (2 ^ 25) y ->
  Rounded.flpLT rnd eps x y = Flp.flpLT eps x y.
Proof.
  intros Ix Iy. unfold Rounded.flpLT, Flp.flpLT.
  now rewrite flpEQ_small.
Qed.

Lemma flpCompare_small (x y : Q) :
  intWithin (2 ^ 25) x -> intWithin (2 ^ 25) y ->
  Rounded.flpCompare rnd eps x y = Flp.flpCompare eps x y.
Proof.
  intros Ix Iy. unfold Rounded.flpCompare, Flp.flpCompare.
  now rewrite flpEQ_small.
Qed.

(** Against zero, a cross product of the small grid is told from zero as
    the exact test tells it, however the tolerance is rounded. *)
Lemma flpEQ_zero_small (c : Q) :
  intWithin (2 ^ 53) c ->
  Rounded.flpEQ rnd eps c 0 = Flp.flpEQ eps c 0.
Proof.
  intros Ic.
  rewrite (flpEQ_grid_zero eps c); try lra;
    try (eapply intWithin_integral; eassumption).
  assert (S : Rounded.sub rnd c 0 == c).
  { unfold Rounded.sub. rewrite (rnd_wd (c - 0) c) by ring.
    now apply rnd_int. }
  unfold Rounded.flpEQ.
  destruct (flpEQ_exact c 0) as [E|E].
  - apply Qle_bool_iff.
    rewrite (absQ_wd _ 0) by (rewrite S; exact E).
    unfold Flp.absQ at 1. simpl. apply rnd_nonneg.
    pose proof (absQ_nonneg c). pose proof (absQ_nonneg 0).
    assert (M : 1 <= Flp.maxQ (Flp.maxQ 1 (Flp.absQ c)) (Flp.absQ 0)).
    { unfold Flp.maxQ. tests; lra. }
    nra.
  - apply Qle_bool_false. rewrite (absQ_wd _ _ S).
    assert (G : 1 <= Flp.absQ c).
    { apply integral_abs_ge1; [|exact E].
      eapply intWithin_integral; eassumption. }
    assert (M : Flp.maxQ (Flp.maxQ 1 (Flp.absQ c)) (Flp.absQ 0)
                == Flp.absQ c).
    { assert (Z0 : Flp.absQ 0 == 0) by reflexivity.
      unfold Flp.maxQ. tests; lra. }
    destruct Ic as (z & Hz & Hb).
    assert (A : Flp.absQ c == inject_Z (Z.abs z)).
    { rewrite (absQ_wd c _ Hz). apply absQ_inject_Z. }
    assert (H : rnd (inject_Z (Z.abs z) / 2) == inject_Z (Z.abs z) / 2).
    { apply rnd_half. rewrite Z.abs_idemp. exact Hb. }
    assert (L : Rounded.mul rnd eps
                  (Flp.maxQ (Flp.maxQ 1 (Flp.absQ c)) (Flp.absQ 0))
                <= inject_Z (Z.abs z) / 2).
    { unfold Rounded.mul. rewrite <- H. apply rnd_mono.
      rewrite M, A. rewrite A in G.
      assert (eps <= 1 # 2) by lra. 
      set (w := inject_Z (Z.abs z)) in *.
      assert (W : w / 2 == w * (1 # 2)) by (field).
      rewrite W. nra. }
    rewrite A in *. set (w := inject_Z (Z.abs z)) in *.
    assert (W : w / 2 == w * (1 # 2)) by (field).
    rewrite W in L. lra.
Qed.

Lemma flpCompare_zero_small (c : Q) :
  intWithin (2 ^ 53) c ->
  Rounded.flpCompare rnd eps c 0 = Flp.flpCompare eps c 0.
Proof.
  intros Ic. unfold Rounded.flpCompare, Flp.flpCompare.
  now rewrite flpEQ_zero_small.
Qed.

Lemma crossProduct_small (u v : Point) :
  intWithin (2 ^ 26) (fst u) -> intWithin (2 ^ 26) (snd u) ->
  intWithin (2 ^ 26) (fst v) -> intWithin (2 ^ 26) (snd v) ->
  Rounded.crossProduct rnd u v == Vector.crossProduct u v /\
  intWithin (2 ^ 53) (Vector.crossProduct u v).
Proof.
  intros U1 U2 V1 V2. unfold Rounded.crossProduct, Vector.crossProduct.
  destruct (mul_exact _ _ (fst u) (snd v) U1 V2) as [M1 I1]; [simpl; lia|].
  destruct (mul_exact _ _ (snd u) (fst v) U2 V1) as [M2 I2]; [simpl; lia|].
  destruct (sub_exact _ _ _ _ I1 I2) as [S I]; [simpl; lia|].
  assert (I' : intWithin (2 ^ 26 * 2 ^ 26) (Rounded.mul rnd (fst u) (snd v)))
    by (eapply intWithin_wd; [symmetry; exact M1|exact I1]).
  assert (I'' : intWithin (2 ^ 26 * 2 ^ 26) (Rounded.mul rnd (snd u) (fst v)))
    by (eapply intWithin_wd; [symmetry; exact M2|exact I2]).
  destruct (sub_exact _ _ _ _ I' I'') as [S' _]; [simpl; lia|].
  split.
  - rewrite S', M1, M2. reflexivity.
  - eapply intWithin_weaken; [|exact I]. simpl. lia.
Qed.

Lemma crossProduct_wd (u u' v v' : Point) :
  pointEq u u' -> pointEq v v' ->
  Vector.crossProduct u v == Vector.crossProduct u' v'.
Proof.
  intros [U1 U2] [V1 V2]. unfold Vector.crossProduct.
  now rewrite U1, U2, V1, V2.
Qed.

Lemma compareVectorAngles_small (p a b : Point) :
  smallGridPoint p -> smallGridPoint a -> smallGridPoint b ->
  Rounded.compareVectorAngles rnd eps p a b
  = Vector.compareVectorAngles eps p a b.
Proof.
  intros [P1 P2] [A1 A2] [B1 B2].
  unfold Rounded.compareVectorAngles, Vector.compareVectorAngles.
  destruct (sub_exact _ _ _ _ B1 A1) as [S1 I1]; [simpl; lia|].
  destruct (sub_exact _ _ _ _ B2 A2) as [S2 I2]; [simpl; lia|].
  destruct (sub_exact _ _ _ _ P1 A1) as [S3 I3]; [simpl; lia|].
  destruct (sub_exact _ _ _ _ P2 A2) as [S4 I4]; [simpl; lia|].
  set (u := (Rounded.sub rnd (fst b) (fst a),
             Rounded.sub rnd (snd b) (snd a))).
  set (v := (Rounded.sub rnd (fst p) (fst a),
             Rounded.sub rnd (snd p) (snd a))).
  assert (Iu1 : intWithin (2 ^ 26) (fst u))
    by (eapply intWithin_wd; [symmetry; exact S1|exact I1]).
  assert (Iu2 : intWithin (2 ^ 26) (snd u))
    by (eapply intWithin_wd; [symmetry; exact S2|exact I2]).
  assert (Iv1 : intWithin (2 ^ 26) (fst v))
    by (eapply intWithin_wd; [symmetry; exact S3|exact I3]).
  assert (Iv2 : intWithin (2 ^ 26) (snd v))
    by (eapply intWithin_wd; [symmetry; exact S4|exact I4]).
  destruct (crossProduct_small u v Iu1 Iu2 Iv1 Iv2) as [C I].
  assert (I' : intWithin (2 ^ 53) (Rounded.crossProduct rnd u v))
    by (eapply intWithin_wd; [symmetry; exact C|exact I]).
  rewrite (flpCompare_zero_small _ I').
  apply flpCompare_wd; [|reflexivity].
  rewrite C. apply crossProduct_wd; split; simpl; assumption.
Qed.

Lemma arePointsEqual_small (p q : Point) :
  smallGridPoint p -> smallGridPoint q ->
  Rounded.arePointsEqual rnd eps p q = arePointsEqual eps p q.
Proof.
  intros [P1 P2] [Q1 Q2]. unfold Rounded.arePointsEqual, arePointsEqual.
  now rewrite !flpEQ_small.
Qed.

Lemma comparePoints_small (p q : Point) :
  smallGridPoint p -> smallGridPoint q ->
  Rounded.comparePoints rnd eps p q = SweepEvent.comparePoints eps p q.
Proof.
  intros [P1 P2] [Q1 Q2].
  unfold Rounded.comparePoints, SweepEvent.comparePoints.
  now rewrite !flpCompare_small.
Qed.

Lemma isAnEndpoint_small (s : Segment.Segment) (pt : Point) :
  onSmallGrid s -> smallGridPoint pt ->
  Rounded.isAnEndpoint rnd eps s pt = Segment.isAnEndpoint eps s pt.
Proof.
  intros [L R] P. unfold Rounded.isAnEndpoint, Segment.isAnEndpoint,
    Segment.points. simpl.
  now rewrite !arePointsEqual_small.
Qed.

Lemma isPointColinear_small (s : Segment.Segment) (pt : Point) :
  onSmallGrid s -> smallGridPoint pt ->
  Rounded.isPointColinear rnd eps s pt = Segment.isPointColinear eps s pt.
Proof.
  intros G P. unfold Rounded.isPointColinear, Segment.isPointColinear.
  rewrite isAnEndpoint_small by assumption.
  destruct G as [L R]. now rewrite compareVectorAngles_small.
Qed.

Lemma isColinearWith_small (a b : Segment.Segment) :
  onSmallGrid a -> onSmallGrid b ->
  Rounded.isColinearWith rnd eps a b = Segment.isColinearWith eps a b.
Proof.
  intros Ga [L R]. unfold Rounded.isColinearWith, Segment.isColinearWith,
    Segment.points. simpl.
  now rewrite !isPointColinear_small.
Qed.

Lemma isPointBelow_small (s : Segment.Segment) (pt : Point) :
  onSmallGrid s -> smallGridPoint pt ->
  Rounded.isPointBelow rnd eps s pt = Segment.isPointBelow eps s pt.
Proof.
  intros G P. unfold Rounded.isPointBelow, Segment.isPointBelow.
  rewrite isAnEndpoint_small by assumption.
  destruct G as [L R]. now rewrite compareVectorAngles_small.
Qed.

(** On the small grid the program's [compare], with its rounding, and
    the exact [compare] are the same function. *)
Lemma compare_small (a b : Segment.Segment) :
  onSmallGrid a -> onSmallGrid b ->
  Rounded.compare rnd eps a b = Segment.compare eps a b.
Proof.
  intros Ga Gb. pose proof Ga as [[A1 A2] [A3 A4]].
  pose proof Gb as [[B1 B2] [B3 B4]].
  unfold Rounded.compare, Segment.compare.
  rewrite !flpLT_small, !flpCompare_small by assumption.
  rewrite isColinearWith_small by assumption.
  rewrite arePointsEqual_small by (split; assumption).
  rewrite !isPointBelow_small by (assumption || split; assumption).
  reflexivity.
Qed.

Lemma wellFormed_small (s : Segment.Segment) :
  onSmallGrid s -> Rounded.wellFormed rnd eps s -> wellFormed eps s.
Proof.
  intros [L R]. unfold Rounded.wellFormed, wellFormed.
  now rewrite comparePoints_small.
Qed.

Lemma smallGridPoint_grid (p : Point) : smallGridPoint p -> gridPoint eps p.
Proof.
  intros [P1 P2]. unfold gridPoint.
  pose proof (intWithin_abs _ _ P1) as B1.
  pose proof (intWithin_abs _ _ P2) as B2.
  change (inject_Z (2 ^ 25)) with (33554432 # 1) in B1, B2.
  pose proof (absQ_nonneg (fst p)). pose proof (absQ_nonneg (snd p)).
  split; [eapply intWithin_integral; eassumption|].
  split; [eapply intWithin_integral; eassumption|].
  split; nra.
Qed.

Lemma onSmallGrid_grid (s : Segment.Segment) : onSmallGrid s -> onGrid eps s.
Proof. intros [L R]. split; now apply smallGridPoint_grid. Qed.

End SmallGrid.

(** C2, as the code has it.  On the small grid, where the coordinates are
    integers of magnitude at most [2^25], no difference, product or cross
    product that [compare] computes is rounded, and with a tolerance of at
    most [2^-26] every tolerant test decides as the exact one does,
    however the tolerance itself is rounded.  There [compare], with its
    rounding, is antisymmetric on distinct well-formed segments: whenever
    neither [compare a b] nor [compare b a] throws,
    [compare a b = - compare b a]. *)
Theorem compare_antisym_small_grid (rnd : Q -> Q) (eps : Q)
    (a b : Segment.Segment) (r r' : Z) :
  faithfulRounding rnd ->
  0 <= eps -> eps <= 1 # 67108864 ->
  onSmallGrid a -> onSmallGrid b ->
  Segment.sid a <> Segment.sid b ->
  Rounded.wellFormed rnd eps a -> Rounded.wellFormed rnd eps b ->
  Rounded.compare rnd eps a b = Return r ->
  Rounded.compare rnd eps b a = Return r' ->
  r = (- r')%Z.
Proof.
  intros F E0 E1 Ga Gb Hid Wa Wb.
  rewrite (compare_small rnd eps F E0 E1 a b Ga Gb).
  rewrite (compare_small rnd eps F E0 E1 b a Gb Ga).
  apply (wellFormed_small rnd eps F E0 E1 a Ga) in Wa.
  apply (wellFormed_small rnd eps F E0 E1 b Gb) in Wb.
  assert (E2 : eps < 1) by lra.
  apply (compare_antisym_on_grid eps a b r r' E0 E2); auto;
    eapply onSmallGrid_grid; eassumption.
Qed.

Lemma Qfloor_shifted (z : Z) : Qfloor (inject_Z z + (1 # 2)) = z.
Proof.
  pose proof (Qfloor_le (inject_Z z + (1 # 2))) as L.
  pose proof (Qlt_floor (inject_Z z + (1 # 2))) as U.
  set (n := Qfloor (inject_Z z + (1 # 2))) in *.
  assert (A : inject_Z n < inject_Z (z + 1)).
  { rewrite inject_Z_plus. change (inject_Z 1) with 1. lra. }
  assert (B : inject_Z z < inject_Z (n + 1)) by lra.
  rewrite <- Zlt_Qlt in A, B. lia.
Qed.

(** Rounding to halves is a rounding in the sense of [faithfulRounding]. *)
Lemma roundToHalves_faithful : faithfulRounding roundToHalves.
Proof.
  unfold faithfulRounding, roundToHalves. repeat split.
  - intros x y E. now rewrite E.
  - intros x y L.
    assert (H : (Qfloor (2 * x + (1 # 2)) <= Qfloor (2 * y + (1 # 2)))%Z)
      by (apply Qfloor_resp_le; lra).
    rewrite Zle_Qle in H.
    apply Qmult_le_compat_r; [exact H|]. discriminate.
  - intros z _.
    assert (E : 2 * inject_Z z + (1 # 2) == inject_Z (2 * z) + (1 # 2))
      by (rewrite inject_Z_mult; reflexivity).
    rewrite E, Qfloor_shifted, inject_Z_mult. field.
  - intros z _.
    assert (E : 2 * (inject_Z z / 2) + (1 # 2) == inject_Z z + (1 # 2))
      by field.
    now rewrite E, Qfloor_shifted.
Qed.

Example roundToHalves_rounds :
  roundToHalves (1 # 3) == 1 # 2 /\ roundToHalves (7 # 10) == 1 # 2 /\
  roundToHalves (3 # 4) == 1.
Proof. repeat split. Qed.

Lemma smallGridPoint_example (x y : Z) :
  (Z.abs x <= 2 ^ 25)%Z -> (Z.abs y <= 2 ^ 25)%Z ->
  smallGridPoint (inject_Z x, inject_Z y).
Proof.
  intros Hx Hy. split; simpl; eexists; (split; [reflexivity|assumption]).
Qed.

Lemma compare_antisym_small_grid_witness :
  Rounded.compare roundToHalves Examples.EPSILON risingLong risingFlat
    = Return 1%Z /\
  Rounded.compare roundToHalves Examples.EPSILON risingFlat risingLong
    = Return (-1)%Z /\
  1%Z = (- -1)%Z.
Proof.
  split; [vm_compute; reflexivity|]. split; [vm_compute; reflexivity|].
  apply (compare_antisym_small_grid roundToHalves Examples.EPSILON
           risingLong risingFlat 1 (-1)).
  - exact roundToHalves_faithful.
  - vm_compute. discriminate.
  - vm_compute. discriminate.
  - split; [apply (smallGridPoint_example 0 0)
           |apply (smallGridPoint_example 4 4)]; vm_compute; discriminate.
  - split; [apply (smallGridPoint_example 1 0)
           |apply (smallGridPoint_example 5 1)]; vm_compute; discriminate.
  - vm_compute. discriminate.
  - vm_compute. reflexivity.
  - vm_compute. reflexivity.
  - vm_compute. reflexivity.
  - vm_compute. reflexivity.
Defined.
